(** * TileDB: the virtual filesystem layer and the subarray partitioner

    A shallow embedding of [tiledb/sm/filesystem/vfs.cc] (reference-counted
    file locks, parallel reads, batched reads) and of the subarray
    partitioner declared in [tiledb/sm/subarray/subarray_partitioner.h].

    Unsigned 64-bit quantities are integers in [Z] and every C++ operation
    that can wrap is written with [wrap64].  The process-wide lock table is a
    finite map keyed by the URI string.  Definitions come first, the
    theorems about them follow in the second half of the file. *)

From Stdlib Require Import ZArith Lia String List Bool Permutation Sorted.
From Stdlib Require Import Floats.SpecFloat.
From stdpp Require Import gmap strings list sorting.

Local Open Scope Z_scope.

(** ** Machine integers *)

Definition UINT64_MOD : Z := 2 ^ 64.

(** The value a [uint64_t] holds after an arithmetic operation whose
    mathematical result is [z]. *)
Definition wrap64 (z : Z) : Z := z mod UINT64_MOD.

Definition is_u64 (z : Z) : Prop := 0 <= z < UINT64_MOD.

(** ** Status values *)

Inductive Status : Type :=
  | Ok
  | VFSError (msg : string)
  | IOError (msg : string)
  | BudgetError (msg : string)
  | GenericError (msg : string).

Definition ok (st : Status) : bool :=
  match st with Ok => true | _ => false end.

(** ** URIs, configuration and the platform

    Class [URI], [Config::VFSParams], the backends ([posix_], [win_],
    [hdfs_], [s3_]), [Buffer], [parallel_sort] and [utils::math::ceil] are
    declared outside the files embedded here.  A URI is its string; what the
    embedded code asks of the absent parts is collected in [Platform]. *)

Record URI : Type := mkURI { to_string : string }.

Record FileParams : Type := mkFileParams {
  enable_filelocks_ : bool;
  file_max_parallel_ops_ : Z
}.

Record S3Params : Type := mkS3Params {
  s3_max_parallel_ops_ : Z
}.

Record VFSParams : Type := mkVFSParams {
  min_parallel_size_ : Z;
  min_batch_size_ : Z;
  min_batch_gap_ : Z;
  file_params_ : FileParams;
  s3_params_ : S3Params
}.

Abbreviation filelock_t := Z (only parsing).

Definition INVALID_FILELOCK : filelock_t := -1.

(** Lock calls that reach the operating system through the local backend
    ([posix_] or [win_]). *)
Inductive OsCall : Type :=
  | OsLock (path : string) (shared : bool)
  | OsUnlock (fd : filelock_t).

(** A region to read: [std::tuple<uint64_t, void*, uint64_t>], that is file
    offset, destination address and number of bytes. *)
Definition Region : Type := Z * Z * Z.

Definition get_0 (r : Region) : Z := r.1.1.
Definition get_1 (r : Region) : Z := r.1.2.
Definition get_2 (r : Region) : Z := r.2.

(** The comparator handed to [parallel_sort] in [compute_read_batches]. *)
Definition region_offset_lt (a b : Region) : bool := get_0 a <? get_0 b.

Record Platform : Type := mkPlatform {
  (** Scheme tests and path conversion of class [URI]. *)
  is_file : URI -> bool;
  is_hdfs : URI -> bool;
  is_s3 : URI -> bool;
  to_path : URI -> string;
  (** Build flags. *)
  HAVE_HDFS : bool;
  HAVE_S3 : bool;
  (** The local backend's [filelock_lock] answers with a status and the
      handle it stored through the out-parameter, [filelock_unlock] with a
      status; both may depend on the lock calls made so far. *)
  backend_filelock_lock : list OsCall -> string -> bool -> Status * Z;
  backend_filelock_unlock : list OsCall -> Z -> Status;
  (** Backend reads: a status and the bytes delivered for (offset, nbytes). *)
  local_read : string -> Z -> Z -> Status * list Byte.byte;
  hdfs_read : URI -> Z -> Z -> Status * list Byte.byte;
  s3_read : URI -> Z -> Z -> Status * list Byte.byte;
  (** [Buffer::realloc]. *)
  buffer_realloc : Z -> Status;
  (** [parallel_sort] on regions with a comparator. *)
  parallel_sort : (Region -> Region -> bool) -> list Region -> list Region
}.

(** The VFS object: the platform it was built for and its parameters. *)
Record VFS : Type := mkVFS {
  platform : Platform;
  vfs_params_ : VFSParams
}.

(** ** File locks *)

(** The state shared by the whole process: the static map
    [process_filelocks_] (URI string to lock count and lock handle) and the
    history of backend lock calls.  Every function below runs with
    [filelock_mtx_] held, so a call is one atomic step on this state. *)
Record World : Type := mkWorld {
  process_filelocks_ : gmap string (Z * Z);
  os_calls : list OsCall
}.

(** [VFS::filelock_lock]; the out-parameter [lock] goes in with its current
    value and comes out second in the result. *)
Definition filelock_lock (this : VFS) (uri : URI) (lock : Z) (shared : bool)
    (w : World) : Status * Z * World :=
  let P := platform this in
  if negb (enable_filelocks_ (file_params_ (vfs_params_ this))) then (Ok, lock, w)
  else
    match process_filelocks_ w !! to_string uri with
    | Some (count, fd) =>
        (Ok, fd,
         mkWorld (<[to_string uri := (wrap64 (count + 1), fd)]> (process_filelocks_ w))
                 (os_calls w))
    | None =>
        if is_file P uri then
          let '(st, fd) := backend_filelock_lock P (os_calls w) (to_path P uri) shared in
          let calls := os_calls w ++ [OsLock (to_path P uri) shared] in
          if ok st
          then (st, fd, mkWorld (<[to_string uri := (1, fd)]> (process_filelocks_ w)) calls)
          else (st, fd, mkWorld (process_filelocks_ w) calls)
        else if is_hdfs P uri then
          if HAVE_HDFS P then (Ok, lock, w)
          else (VFSError "TileDB was built without HDFS support", lock, w)
        else if is_s3 P uri then
          if HAVE_S3 P then (Ok, lock, w)
          else (VFSError "TileDB was built without S3 support", lock, w)
        else (VFSError ("Unsupported URI scheme: " +:+ to_string uri), lock, w)
    end.

(** [VFS::decr_lock_count] on the process-wide map; the out-parameters
    [is_zero] and [lock] go in with their current values. *)
Definition decr_lock_count (uri : URI) (is_zero : bool) (lock : Z)
    (m : gmap string (Z * Z)) : Status * bool * Z * gmap string (Z * Z) :=
  match m !! to_string uri with
  | None => (VFSError ("No lock counter for URI " +:+ to_string uri), is_zero, lock, m)
  | Some (count, fd) =>
      if count =? 0 then
        (VFSError ("Invalid lock count for URI " +:+ to_string uri), is_zero, lock, m)
      else
        let count' := wrap64 (count - 1) in
        if count' =? 0
        then (Ok, true, fd, delete (to_string uri) m)
        else (Ok, false, lock, <[to_string uri := (count', fd)]> m)
  end.

(** [VFS::filelock_unlock]. *)
Definition filelock_unlock (this : VFS) (uri : URI) (w : World) : Status * World :=
  let P := platform this in
  if negb (enable_filelocks_ (file_params_ (vfs_params_ this))) then (Ok, w)
  else
    let '(st, should_unlock, fd, m) :=
      decr_lock_count uri false INVALID_FILELOCK (process_filelocks_ w) in
    if negb (ok st) || negb should_unlock then (st, mkWorld m (os_calls w))
    else if is_file P uri then
      (backend_filelock_unlock P (os_calls w) fd,
       mkWorld m (os_calls w ++ [OsUnlock fd]))
    else if is_hdfs P uri then
      if HAVE_HDFS P then (Ok, mkWorld m (os_calls w))
      else (VFSError "TileDB was built without HDFS support", mkWorld m (os_calls w))
    else if is_s3 P uri then
      if HAVE_S3 P then (Ok, mkWorld m (os_calls w))
      else (VFSError "TileDB was built without S3 support", mkWorld m (os_calls w))
    else (VFSError ("Unsupported URI scheme: " +:+ to_string uri), mkWorld m (os_calls w)).

(** [VFS::max_parallel_ops]. *)
Definition max_parallel_ops (this : VFS) (uri : URI) : Z :=
  let P := platform this in
  if is_file P uri then file_max_parallel_ops_ (file_params_ (vfs_params_ this))
  else if is_hdfs P uri then 1
  else if is_s3 P uri then s3_max_parallel_ops_ (s3_params_ (vfs_params_ this))
  else 1.

(** ** Reads *)

(** [utils::math::ceil]: the ceiling of [x / y], and 0 when [y] is 0. *)
Definition ceil (x y : Z) : Z :=
  if y =? 0 then 0 else x / y + (if x mod y =? 0 then 0 else 1).

Definition message (st : Status) : string :=
  match st with
  | Ok => ""
  | VFSError m | IOError m | BudgetError m | GenericError m => m
  end.

(** [VFS::read_impl]: the status and the bytes the backend delivered. *)
Definition read_impl (this : VFS) (uri : URI) (offset nbytes : Z)
    : Status * list Byte.byte :=
  let P := platform this in
  if is_file P uri then local_read P (to_path P uri) offset nbytes
  else if is_hdfs P uri then
    if HAVE_HDFS P then hdfs_read P uri offset nbytes
    else (VFSError "TileDB was built without HDFS support", [])
  else if is_s3 P uri then
    if HAVE_S3 P then s3_read P uri offset nbytes
    else (VFSError "TileDB was built without S3 support", [])
  else (VFSError ("Unsupported URI schemes: " +:+ to_string uri), []).

(** Storing [data] into a buffer at position [pos]; storing nothing leaves
    the buffer alone, and a store that runs past the end of the buffer is
    undefined behaviour ([None]). *)
Definition buffer_store (buffer : list Byte.byte) (pos : Z) (data : list Byte.byte)
    : option (list Byte.byte) :=
  match data with
  | [] => Some buffer
  | _ :: _ =>
      if decide (0 <= pos /\ pos + Z.of_nat (length data) <= Z.of_nat (length buffer))
      then Some (take (Z.to_nat pos) buffer ++ data
                 ++ drop (Z.to_nat pos + length data)%nat buffer)
      else None
  end.

(** One iteration of the loop of [VFS::read]: the byte range [begin, end]
    of the chunk, the number of bytes it asks for and the file offset it
    reads from.  The chunk's buffer position is [chunk_begin]. *)
Record ReadChunk : Type := mkReadChunk {
  chunk_begin : Z;
  chunk_end : Z;
  thread_nbytes : Z;
  thread_offset : Z
}.

Definition read_chunk (offset nbytes thread_read_nbytes i : Z) : ReadChunk :=
  let begin := wrap64 (i * thread_read_nbytes) in
  let end_ := Z.min (wrap64 ((i + 1) * thread_read_nbytes - 1)) (wrap64 (nbytes - 1)) in
  mkReadChunk begin end_ (wrap64 (end_ - begin + 1)) (wrap64 (offset + begin)).

(** The number of parallel operations [VFS::read] decides on. *)
Definition num_ops (this : VFS) (uri : URI) (nbytes : Z) : Z :=
  Z.min (Z.max (nbytes / min_parallel_size_ (vfs_params_ this)) 1)
        (max_parallel_ops this uri).

(** The chunks of the parallel branch of [VFS::read], in loop order. *)
Definition read_chunks (this : VFS) (uri : URI) (offset nbytes : Z) : list ReadChunk :=
  let n := num_ops this uri nbytes in
  map (read_chunk offset nbytes (ceil nbytes n)) (seqZ 0 n).

(** Running the enqueued chunk reads: each stores what the backend delivered
    at the chunk's buffer position; the statuses are kept in loop order. *)
Fixpoint run_chunks (this : VFS) (uri : URI) (chunks : list ReadChunk)
    (buffer : list Byte.byte) : option (list Status * list Byte.byte) :=
  match chunks with
  | [] => Some ([], buffer)
  | c :: rest =>
      let '(st, data) := read_impl this uri (thread_offset c) (thread_nbytes c) in
      buffer' ← buffer_store buffer (chunk_begin c) data;
      '(sts, buffer'') ← run_chunks this uri rest buffer';
      Some (st :: sts, buffer'')
  end.

(** [ThreadPool::wait_all]: the first status that is not Ok, else Ok. *)
Definition wait_all (results : list Status) : Status :=
  match filter (fun st => ok st = false) results with
  | [] => Ok
  | st :: _ => st
  end.

(** [VFS::read] into a buffer of which [buffer] is the current content.
    Dividing by a zero [min_parallel_size_] is undefined ([None]). *)
Definition read (this : VFS) (uri : URI) (offset : Z) (buffer : list Byte.byte)
    (nbytes : Z) : option (Status * list Byte.byte) :=
  if min_parallel_size_ (vfs_params_ this) =? 0 then None
  else if num_ops this uri nbytes =? 1 then
    let '(st, data) := read_impl this uri offset nbytes in
    buffer' ← buffer_store buffer 0 data;
    Some (st, buffer')
  else
    '(results, buffer') ← run_chunks this uri (read_chunks this uri offset nbytes) buffer;
    let st := wait_all results in
    if negb (ok st) then
      Some (VFSError ("VFS parallel read error '" +:+ to_string uri +:+ "'; "
                      +:+ message st), buffer')
    else Some (st, buffer').

(** ** Batched reads *)

Module BatchedRead.

(** [struct BatchedRead]: the span to read and the regions it serves. *)
Record t : Type := mk {
  offset : Z;
  nbytes : Z;
  regions : list Region
}.

(** The constructor from a single region. *)
Definition of_region (region : Region) : t :=
  mk (get_0 region) (get_2 region) [region].

End BatchedRead.

(** The variables of the loop in [VFS::compute_read_batches]. *)
Record BatchLoop : Type := mkBatchLoop {
  curr_batch : BatchedRead.t;
  curr_batch_useful_bytes : Z;
  batches_out : list BatchedRead.t
}.

(** The body of the loop for one [region = sorted_regions[i]]. *)
Definition batch_step (this : VFS) (st : BatchLoop) (region : Region) : BatchLoop :=
  let curr := curr_batch st in
  let offset := get_0 region in
  let nbytes := get_2 region in
  let new_batch_size := wrap64 ((offset + nbytes) - BatchedRead.offset curr) in
  let gap := wrap64 (offset - (BatchedRead.offset curr + BatchedRead.nbytes curr)) in
  if (new_batch_size <=? min_batch_size_ (vfs_params_ this))
     || (gap <=? min_batch_gap_ (vfs_params_ this))
  then
    mkBatchLoop
      (BatchedRead.mk (BatchedRead.offset curr) new_batch_size
                      (BatchedRead.regions curr ++ [region]))
      (wrap64 (curr_batch_useful_bytes st + nbytes))
      (batches_out st)
  else
    mkBatchLoop (BatchedRead.mk offset nbytes [region]) nbytes
                (batches_out st ++ [curr]).

(** [VFS::compute_read_batches]; [batches] is the vector the results are
    pushed onto.  Taking [front()] of an empty vector is undefined ([None]). *)
Definition compute_read_batches (this : VFS) (regions : list Region)
    (batches : list BatchedRead.t) : option (Status * list BatchedRead.t) :=
  let sorted_regions := parallel_sort (platform this) region_offset_lt regions in
  match sorted_regions with
  | [] => None
  | front :: rest =>
      let st := fold_left (batch_step this) rest
                  (mkBatchLoop (BatchedRead.of_region front) (get_2 front) batches) in
      Some (Ok, batches_out st ++ [curr_batch st])
  end.

(** The closure [read_all] enqueues: it captures the URI and the batch. *)
Record Task : Type := mkTask {
  uri_copy : URI;
  batch_copy : BatchedRead.t
}.

(** [std::memcpy(dest, src, n)] into the destination memory. *)
Fixpoint store_bytes (mem : gmap Z Byte.byte) (dest : Z) (data : list Byte.byte)
    : gmap Z Byte.byte :=
  match data with
  | [] => mem
  | b :: data' => store_bytes (<[dest := b]> mem) (dest + 1) data'
  end.

(** The [n] bytes at [buffer.data(pos)]; reading past the end of the buffer
    is undefined behaviour ([None]). *)
Definition buffer_slice (buffer : list Byte.byte) (pos n : Z) : option (list Byte.byte) :=
  if decide (0 <= pos /\ 0 <= n /\ pos + n <= Z.of_nat (length buffer))
  then Some (take (Z.to_nat n) (drop (Z.to_nat pos) buffer))
  else None.

(** The copy loop of the task over [batch_copy.regions]. *)
Fixpoint scatter (batch_offset : Z) (buffer : list Byte.byte) (regions : list Region)
    (mem : gmap Z Byte.byte) : option (gmap Z Byte.byte) :=
  match regions with
  | [] => Some mem
  | region :: rest =>
      let offset := get_0 region in
      let dest := get_1 region in
      let nbytes := get_2 region in
      data ← buffer_slice buffer (wrap64 (offset - batch_offset)) nbytes;
      scatter batch_offset buffer rest (store_bytes mem dest data)
  end.

(** The body of the task: allocate, read the batch, copy to the regions. *)
Definition run_task (this : VFS) (task : Task) (mem : gmap Z Byte.byte)
    : option (Status * gmap Z Byte.byte) :=
  let batch := batch_copy task in
  let st := buffer_realloc (platform this) (BatchedRead.nbytes batch) in
  if negb (ok st) then Some (st, mem)
  else
    let buffer := replicate (Z.to_nat (BatchedRead.nbytes batch)) Byte.x00 in
    '(st, buffer') ← read this (uri_copy task) (BatchedRead.offset batch) buffer
                        (BatchedRead.nbytes batch);
    if negb (ok st) then Some (st, mem)
    else
      mem' ← scatter (BatchedRead.offset batch) buffer' (BatchedRead.regions batch) mem;
      Some (Ok, mem').

(** The loop of [read_all] over the batches: one [enqueue] on the caller's
    pool and one [push_back] on [tasks] per batch. *)
Fixpoint enqueue_batches (uri : URI) (batches : list BatchedRead.t)
    (thread_pool tasks : list Task) : list Task * list Task :=
  match batches with
  | [] => (thread_pool, tasks)
  | batch :: rest =>
      let task := mkTask uri batch in
      enqueue_batches uri rest (thread_pool ++ [task]) (tasks ++ [task])
  end.

(** [VFS::read_all]: the status, the caller's pool queue and [tasks]
    afterwards.  (The assertion that the pool is not the VFS's own is a
    debug check on the caller and is not modelled.) *)
Definition read_all (this : VFS) (uri : URI) (regions : list Region)
    (thread_pool tasks : list Task) : option (Status * list Task * list Task) :=
  match regions with
  | [] => Some (Ok, thread_pool, tasks)
  | _ :: _ =>
      '(st, batches) ← compute_read_batches this regions [];
      if negb (ok st) then Some (st, thread_pool, tasks)
      else
        let '(thread_pool', tasks') := enqueue_batches uri batches thread_pool tasks in
        Some (Ok, thread_pool', tasks')
  end.

(** ** What the embedded code relies on from [parallel_sort]

    With the comparator of [compute_read_batches] the result is a
    rearrangement of the input in which offsets never decrease.  The order
    among regions of equal offset is left open. *)
Definition sort_contract (this : VFS) : Prop :=
  forall l : list Region,
    parallel_sort (platform this) region_offset_lt l ≡ₚ l /\
    StronglySorted (fun a b => get_0 a <= get_0 b)
                   (parallel_sort (platform this) region_offset_lt l).

(** ** A concrete platform for running the code on examples *)

(** A stable insertion sort: what [std::sort] does on short inputs.  A
    region goes before the first one it is less than, so regions that
    compare equal keep the order they came in. *)
Fixpoint insert_sorted (cmp : Region -> Region -> bool) (r : Region)
    (l : list Region) : list Region :=
  match l with
  | [] => [r]
  | x :: l' => if cmp r x then r :: x :: l' else x :: insert_sorted cmp r l'
  end.

Definition insertion_sort (cmp : Region -> Region -> bool) (l : list Region)
    : list Region :=
  foldl (fun acc r => insert_sorted cmp r acc) [] l.

(** Every file of the example platform is 4096 bytes long; this is its byte
    at position [p].  A read that runs past the end fails and delivers
    nothing. *)
Definition demo_file_byte (p : Z) : Byte.byte :=
  if Z.even p then Byte.x61 else Byte.x62.

Definition demo_read (offset nbytes : Z) : Status * list Byte.byte :=
  if offset + nbytes <=? 4096
  then (Ok, map (fun i => demo_file_byte (offset + i)) (seqZ 0 nbytes))
  else (IOError "Cannot read past the end of the file", []).

Definition demo_platform : Platform := {|
  is_file := fun u => String.prefix "file://" (to_string u);
  is_hdfs := fun u => String.prefix "hdfs://" (to_string u);
  is_s3 := fun u => String.prefix "s3://" (to_string u);
  to_path := to_string;
  HAVE_HDFS := false;
  HAVE_S3 := false;
  backend_filelock_lock := fun calls _ _ => (Ok, 3 + Z.of_nat (length calls));
  backend_filelock_unlock := fun _ _ => Ok;
  local_read := fun _ => demo_read;
  hdfs_read := fun _ => demo_read;
  s3_read := fun _ => demo_read;
  buffer_realloc := fun _ => Ok;
  parallel_sort := insertion_sort
|}.

(** Parameters of the example VFS: locks enabled, at most four parallel
    operations of at least one byte each, batches merged up to 64 bytes or
    across gaps of at most 4 bytes. *)
Definition demo_params : VFSParams := {|
  min_parallel_size_ := 1;
  min_batch_size_ := 64;
  min_batch_gap_ := 4;
  file_params_ := {| enable_filelocks_ := true; file_max_parallel_ops_ := 4 |};
  s3_params_ := {| s3_max_parallel_ops_ := 1 |}
|}.

Definition demo_vfs : VFS := mkVFS demo_platform demo_params.

Definition demo_uri : URI := mkURI "file:///tmp/array/__lock.tdb".


(** ** Chunk lists that split a read

    [chunks_tile b chunks last]: the chunks, in order, are the byte ranges
    [begin, end] with [begin <= end], the first beginning at [b], each next
    one beginning right after the previous end, the last ending at [last].
    Such chunks are pairwise disjoint and their union is [b, last]. *)
Fixpoint chunks_tile (b : Z) (chunks : list ReadChunk) (last : Z) : bool :=
  match chunks with
  | [] => b =? last + 1
  | c :: rest =>
      (chunk_begin c =? b) && (chunk_begin c <=? chunk_end c)
      && chunks_tile (chunk_end c + 1) rest last
  end.

(** Each chunk reads its own range: from file offset [offset + begin], for
    [end - begin + 1] bytes. *)
Definition chunk_reads_own_range (offset : Z) (c : ReadChunk) : bool :=
  (thread_offset c =? offset + chunk_begin c)
  && (thread_nbytes c =? chunk_end c - chunk_begin c + 1).

(** ** Describing the batches

    The test of the loop of [compute_read_batches], as the code computes it
    (both quantities are unsigned 64-bit), and the batch after taking a
    region. *)
Definition merges (this : VFS) (curr : BatchedRead.t) (region : Region) : bool :=
  (wrap64 ((get_0 region + get_2 region) - BatchedRead.offset curr)
     <=? min_batch_size_ (vfs_params_ this))
  || (wrap64 (get_0 region - (BatchedRead.offset curr + BatchedRead.nbytes curr))
        <=? min_batch_gap_ (vfs_params_ this)).

Definition extend (curr : BatchedRead.t) (region : Region) : BatchedRead.t :=
  BatchedRead.mk (BatchedRead.offset curr)
                 (wrap64 ((get_0 region + get_2 region) - BatchedRead.offset curr))
                 (BatchedRead.regions curr ++ [region]).

(** The criterion in the words of the specification: the merged span (the
    region's end minus the batch's offset) is at most [min_batch_size_], or
    the gap between the batch's end and the region's offset is at most
    [min_batch_gap_].  Plain integer differences. *)
Definition stated_merge_criterion (this : VFS) (curr : BatchedRead.t)
    (region : Region) : bool :=
  ((get_0 region + get_2 region) - BatchedRead.offset curr
     <=? min_batch_size_ (vfs_params_ this))
  || (get_0 region - (BatchedRead.offset curr + BatchedRead.nbytes curr)
        <=? min_batch_gap_ (vfs_params_ this)).

(** [batching this l bs]: [bs] are the batches obtained from the regions
    [l] taken in order; the first region starts the first batch, and each
    further region joins the current (last) batch when [merges] says so and
    otherwise closes it and starts a new batch of its own. *)
Inductive batching (this : VFS) : list Region -> list BatchedRead.t -> Prop :=
  | batching_first r :
      batching this [r] [BatchedRead.of_region r]
  | batching_merge l bs b r :
      batching this l (bs ++ [b]) ->
      merges this b r = true ->
      batching this (l ++ [r]) (bs ++ [extend b r])
  | batching_new l bs b r :
      batching this l (bs ++ [b]) ->
      merges this b r = false ->
      batching this (l ++ [r]) (bs ++ [b; BatchedRead.of_region r]).

(** Two regions overlap when they have a byte of the file in common. *)
Definition overlap (a b : Region) : bool :=
  Z.max (get_0 a) (get_0 b) <? Z.min (get_0 a + get_2 a) (get_0 b + get_2 b).

Fixpoint pairwise_non_overlapping (l : list Region) : Prop :=
  match l with
  | [] => True
  | a :: l' => Forall (fun b => overlap a b = false) l' /\ pairwise_non_overlapping l'
  end.

(** A region lies within the byte span of a batch. *)
Definition within (b : BatchedRead.t) (r : Region) : Prop :=
  BatchedRead.offset b <= get_0 r
  /\ get_0 r + get_2 r <= BatchedRead.offset b + BatchedRead.nbytes b.

(** A region that can be read from a file: its bounds are unsigned 64-bit
    numbers and so is its end. *)
Definition region_in_range (r : Region) : Prop :=
  0 <= get_0 r /\ 0 <= get_2 r /\ get_0 r + get_2 r < UINT64_MOD.

(** A batch spans its regions: its own bounds are in range and each of its
    regions lies within it. *)
Definition batch_spans (b : BatchedRead.t) : Prop :=
  0 <= BatchedRead.offset b
  /\ BatchedRead.offset b + BatchedRead.nbytes b < UINT64_MOD
  /\ Forall (fun r => within b r /\ 0 <= get_2 r) (BatchedRead.regions b).

(** The destination address [a] lies in the destination range of [r]. *)
Definition in_dest (r : Region) (a : Z) : Prop :=
  get_1 r <= a < get_1 r + get_2 r.

(** What the copy loop of a task has done to memory: for every region of
    the batch, its [nbytes] destination bytes hold the bytes of the buffer
    from position (region offset minus batch offset) on, as far as no later
    region of the batch wrote to the same address; addresses in no
    destination range are as before. *)
Definition copied (batch_offset : Z) (buffer : list Byte.byte) (rs : list Region)
    (mem mem' : gmap Z Byte.byte) : Prop :=
  (forall a, (forall r, r ∈ rs -> ~ in_dest r a) -> mem' !! a = mem !! a)
  /\ (forall pre r post j,
        rs = pre ++ r :: post ->
        0 <= j < get_2 r ->
        (forall r', r' ∈ post -> ~ in_dest r' (get_1 r + j)) ->
        mem' !! (get_1 r + j)
          = buffer !! Z.to_nat (wrap64 (get_0 r - batch_offset) + j)).

(** * The subarray partitioner

    [subarray_partitioner.h] declares the class; its member functions are
    defined outside the files embedded here.  The types and the names below
    are those of the header; the bodies follow the specification of the
    partitioner, section by section. *)

(** ** Domains (specification 3 and 4.A) *)

Inductive Layout : Type := ROW_MAJOR | COL_MAJOR | GLOBAL_ORDER | UNORDERED.

(** Modelled from the spec: the operations a coordinate type [T] offers
    (the "DomainOps" interface of the design notes, implemented once per
    numeric type).  [ord] places the values of [T] in order in the
    integers, so that the number of splittable points of [lo, hi] is
    [ord hi - ord lo]; [midpoint] is the splitting point of a range;
    [next_after] is the successor ([p + 1] for integers, the float
    successor for floats) and [next_before] the predecessor. *)
Class DomainOps (T : Type) : Type := {
  ord : T -> Z;
  is_integer : bool;
  midpoint : T -> T -> T;
  next_after : T -> T;
  next_before : T -> T
}.

(** Modelled from the spec: order and equality of coordinates. *)
Definition t_leb {T} `{DomainOps T} (a b : T) : bool := ord a <=? ord b.
Definition t_ltb {T} `{DomainOps T} (a b : T) : bool := ord a <? ord b.
Definition t_eqb {T} `{DomainOps T} (a b : T) : bool := ord a =? ord b.

(** Modelled from the spec: integer coordinates of any width, as integers.
    The splitting point is [lo + (hi - lo) / 2], the division being that of
    C++ (it truncates; the dividend is not negative for [lo <= hi]). *)
#[export] Instance integer_domain : DomainOps Z := {|
  ord := fun p => p;
  is_integer := true;
  midpoint := fun lo hi => lo + (hi - lo) ÷ 2;
  next_after := fun p => p + 1;
  next_before := fun p => p - 1
|}.

(** Modelled from the spec: 64-bit floating-point coordinates, as the
    binary64 values of the Standard Library's IEEE 754 specification.  The
    splitting point is [lo / 2 + hi / 2], each operation rounded. *)
Definition float64 : Type := spec_float.

Definition f64_prec : Z := 53.
Definition f64_emax : Z := 1024.

Definition f64_two : float64 := S754_finite false 4503599627370496 (-51).

(** The place of a finite binary64 value among the finite binary64 values:
    the subnormal and normal numbers of one sign are numbered upwards from
    zero by exponent and mantissa. *)
Definition f64_ord (x : float64) : Z :=
  match x with
  | S754_zero _ => 0
  | S754_finite s m e =>
      let k := (e - (3 - f64_emax - f64_prec)) * 2 ^ (f64_prec - 1) + Z.pos m in
      if s then - k else k
  | S754_infinity s => if s then - 2 ^ 63 else 2 ^ 63
  | S754_nan => 0
  end.

#[export] Instance float64_domain : DomainOps float64 := {|
  ord := f64_ord;
  is_integer := false;
  midpoint := fun lo hi =>
    SFadd f64_prec f64_emax (SFdiv f64_prec f64_emax lo f64_two)
                            (SFdiv f64_prec f64_emax hi f64_two);
  next_after := SFsucc f64_prec f64_emax;
  next_before := SFpred f64_prec f64_emax
|}.

(** ** Ranges and subarrays (specification 3 and 4.B) *)

(** Modelled from the spec: a closed interval [lo, hi]. *)
Record Range (T : Type) : Type := mkRange { lo : T; hi : T }.

Arguments mkRange {T} _ _.
Arguments lo {T} _.
Arguments hi {T} _.

(** Modelled from the spec: the per-dimension range sequences, in schema
    order, and the traversal layout. *)
Record Subarray (T : Type) : Type := mkSubarray {
  dims : list (list (Range T));
  layout : Layout
}.

Arguments mkSubarray {T} _ _.
Arguments dims {T} _.
Arguments layout {T} _.

(** Modelled from the spec: [splittable(r) = (r.hi > r.lo)]. *)
Definition splittable {T} `{DomainOps T} (r : Range T) : bool := t_ltb (lo r) (hi r).

(** Modelled from the spec: the number of splittable points of a range,
    the points [p] with [lo <= p < hi]. *)
Definition splittable_points {T} `{DomainOps T} (r : Range T) : Z :=
  Z.max 0 (ord (hi r) - ord (lo r)).

(** Modelled from the spec: [range_num(dim)] and [range_num()], the size of
    the flattened 1D index space. *)
Definition range_num_dim {T} (s : Subarray T) (d : nat) : Z :=
  match dims s !! d with
  | Some rs => Z.of_nat (length rs)
  | None => 0
  end.

Definition range_num {T} (s : Subarray T) : Z :=
  foldr (fun rs n => Z.of_nat (length rs) * n) 1 (dims s).

(** The range indices of a flat index when the first of the given
    dimensions varies fastest. *)
Fixpoint coords_fastest_first (lens : list nat) (i : Z) : list nat :=
  match lens with
  | [] => []
  | n :: rest =>
      Z.to_nat (i mod Z.of_nat n) :: coords_fastest_first rest (i / Z.of_nat n)
  end.

(** Modelled from the spec: the mapping of a flat index to one range index
    per dimension.  ROW_MAJOR: the last dimension varies fastest;
    COL_MAJOR: the first one does.  For UNORDERED the flattening is left
    to the implementation, and for GLOBAL_ORDER the specification speaks of
    cells only; both take the row-major flattening here. *)
Definition get_range_coords {T} (s : Subarray T) (i : Z) : list nat :=
  let lens := map length (dims s) in
  match layout s with
  | COL_MAJOR => coords_fastest_first lens i
  | _ => reverse (coords_fastest_first (reverse lens) i)
  end.

(** Modelled from the spec: [get_range(flat_idx)], the subarray of exactly
    one range per dimension at a flat index. *)
Definition get_range {T} (s : Subarray T) (i : Z) : Subarray T :=
  mkSubarray
    (zip_with (fun rs c => take 1 (drop c rs)) (dims s) (get_range_coords s i))
    (layout s).

(** Modelled from the spec: the subarray materialized from the flat
    interval [start, end]: on every dimension the ranges from the range
    index of [start] to that of [end]. *)
Definition get_subarray {T} (s : Subarray T) (start end_ : Z) : Subarray T :=
  mkSubarray
    (zip_with (fun rs ab => take (S (ab.2 - ab.1)) (drop ab.1 rs))
              (dims s)
              (zip (get_range_coords s start) (get_range_coords s end_)))
    (layout s).

(** Modelled from the spec: the ranges of the splitting dimension that go
    left and right of a splitting point; a range entirely at or below the
    point goes left, one entirely above it goes right, and one that
    straddles the point is split at it into [lo, p] and
    [next_after p, hi]. *)
Definition split_ranges_left {T} `{DomainOps T} (p : T) (rs : list (Range T))
    : list (Range T) :=
  flat_map (fun r =>
              if t_leb (hi r) p then [r]
              else if t_ltb p (lo r) then []
              else [mkRange (lo r) p]) rs.

Definition split_ranges_right {T} `{DomainOps T} (p : T) (rs : list (Range T))
    : list (Range T) :=
  flat_map (fun r =>
              if t_leb (hi r) p then []
              else if t_ltb p (lo r) then [r]
              else [mkRange (next_after p) (hi r)]) rs.

(** Modelled from the spec: [split(splitting_dim, splitting_point)]; all
    other dimensions are carried over verbatim. *)
Definition split {T} `{DomainOps T} (s : Subarray T) (splitting_dim : nat)
    (splitting_point : T) : Subarray T * Subarray T :=
  (mkSubarray (alter (split_ranges_left splitting_point) splitting_dim (dims s))
              (layout s),
   mkSubarray (alter (split_ranges_right splitting_point) splitting_dim (dims s))
              (layout s)).

(** ** The types of the header *)

(** [struct ResultBudget]. *)
Record ResultBudget : Type := mkResultBudget {
  size_fixed_ : Z;
  size_var_ : Z
}.

Module PartitionInfo.

(** [struct PartitionInfo]: the current partition and the interval
    [start_, end_] of flat range indices of the original subarray it was
    constructed from. *)
Record t (T : Type) : Type := mk {
  partition_ : Subarray T;
  start_ : Z;
  end_ : Z;
  split_multi_range_ : bool
}.

Arguments mk {T} _ _ _ _.
Arguments partition_ {T} _.
Arguments start_ {T} _.
Arguments end_ {T} _.
Arguments split_multi_range_ {T} _.

End PartitionInfo.

Module State.

(** [struct State]: the interval of flat range indices still to be
    explored and the two lists of pending subarrays. *)
Record t (T : Type) : Type := mk {
  start_ : Z;
  end_ : Z;
  single_range_ : list (Subarray T);
  multi_range_ : list (Subarray T)
}.

Arguments mk {T} _ _ _ _.
Arguments start_ {T} _.
Arguments end_ {T} _.
Arguments single_range_ {T} _.
Arguments multi_range_ {T} _.

End State.

(** The private attributes of [class SubarrayPartitioner]. *)
Record SubarrayPartitioner (T : Type) : Type := mkSubarrayPartitioner {
  subarray_ : Subarray T;
  budget_ : gmap string ResultBudget;
  current_ : PartitionInfo.t T;
  state_ : State.t T;
  memory_budget_ : Z;
  memory_budget_var_ : Z
}.

Arguments mkSubarrayPartitioner {T} _ _ _ _ _ _.
Arguments subarray_ {T} _.
Arguments budget_ {T} _.
Arguments current_ {T} _.
Arguments state_ {T} _.
Arguments memory_budget_ {T} _.
Arguments memory_budget_var_ {T} _.

(** Modelled from the spec: the collaborators the partitioner consumes and
    the parts of the core the specification leaves open.  The schema tells
    whether an attribute exists and is var-sized; the estimator is a pure
    function of a subarray; calibration (4.E) maps the original subarray,
    [start] and the tentative [end] to the adjusted [end] and the flag
    [must_split_slab]; the tile-aligned split (4.F.3) depends on the tile
    extents of the schema and answers with a dimension and a point, or with
    nothing when the range lies within one space tile. *)
Record Engine (T : Type) : Type := mkEngine {
  attribute_var_sized : string -> option bool;
  estimate_result_size : Subarray T -> string -> ResultBudget;
  calibrate : Subarray T -> Z -> Z -> Z * bool;
  tile_split : Subarray T -> option (nat * T);
  default_memory_budget : Z;
  default_memory_budget_var : Z
}.

Arguments mkEngine {T} _ _ _ _ _ _.
Arguments attribute_var_sized {T} _ _.
Arguments estimate_result_size {T} _ _ _.
Arguments calibrate {T} _ _ _ _.
Arguments tile_split {T} _ _.
Arguments default_memory_budget {T} _.
Arguments default_memory_budget_var {T} _.

(** [std::list::empty]. *)
Definition is_empty {A} (l : list A) : bool :=
  match l with [] => true | _ :: _ => false end.

Section PartitionerOperations.

Context {T : Type} {ops : DomainOps T}.
Variable eng : Engine T.

(** ** Construction, accessors and budgets (specification 4.C, 4.D, 6) *)

(** Modelled from the spec: [new(subarray)], a partitioner in the
    FreshInterval state with [state.start = 0] and
    [state.end = range_num() - 1]. *)
Definition new (subarray : Subarray T) : SubarrayPartitioner T :=
  mkSubarrayPartitioner
    subarray
    ∅
    (PartitionInfo.mk (mkSubarray [] (layout subarray)) 0 0 false)
    (State.mk 0 (range_num subarray - 1) [] [])
    (default_memory_budget eng)
    (default_memory_budget_var eng).

(** Modelled from the spec: [current()], the last-emitted partition. *)
Definition current (p : SubarrayPartitioner T) : Subarray T :=
  PartitionInfo.partition_ (current_ p).

Definition current_partition_info (p : SubarrayPartitioner T) : PartitionInfo.t T :=
  current_ p.

(** Modelled from the spec: [done()] holds exactly when
    [state.start > state.end] and both lists are empty (invariant 5). *)
Definition done (p : SubarrayPartitioner T) : bool :=
  (State.end_ (state_ p) <? State.start_ (state_ p))
  && is_empty (State.single_range_ (state_ p))
  && is_empty (State.multi_range_ (state_ p)).

(** Modelled from the spec: setting budgets (4.C).  The fixed-size setter
    is refused for an attribute the schema does not know or that is
    var-sized, the var-sized setter for one that is unknown or fixed-sized;
    neither touches the state or the current partition. *)
Definition set_result_budget (attr_name : string) (budget : Z)
    (p : SubarrayPartitioner T) : Status * SubarrayPartitioner T :=
  match attribute_var_sized eng attr_name with
  | None => (BudgetError "unknown attribute", p)
  | Some true => (BudgetError "attribute is var-sized", p)
  | Some false =>
      (Ok, mkSubarrayPartitioner (subarray_ p)
             (<[attr_name := mkResultBudget budget 0]> (budget_ p))
             (current_ p) (state_ p) (memory_budget_ p) (memory_budget_var_ p))
  end.

Definition set_result_budget_var (attr_name : string) (budget_off budget_val : Z)
    (p : SubarrayPartitioner T) : Status * SubarrayPartitioner T :=
  match attribute_var_sized eng attr_name with
  | None => (BudgetError "unknown attribute", p)
  | Some false => (BudgetError "attribute is fixed-sized", p)
  | Some true =>
      (Ok, mkSubarrayPartitioner (subarray_ p)
             (<[attr_name := mkResultBudget budget_off budget_val]> (budget_ p))
             (current_ p) (state_ p) (memory_budget_ p) (memory_budget_var_ p))
  end.

Definition set_memory_budget (budget budget_var : Z) (p : SubarrayPartitioner T)
    : Status * SubarrayPartitioner T :=
  (Ok, mkSubarrayPartitioner (subarray_ p) (budget_ p) (current_ p) (state_ p)
         budget budget_var).

(** Modelled from the spec: [get_result_budget], the budget set for an
    attribute or nothing ("NotSet"). *)
Definition get_result_budget (attr_name : string) (p : SubarrayPartitioner T)
    : option ResultBudget :=
  budget_ p !! attr_name.

Definition get_memory_budget (p : SubarrayPartitioner T) : Z * Z :=
  (memory_budget_ p, memory_budget_var_ p).

(** ** Estimates against budgets (specification 4.F, [must_split]) *)

(** An estimate exceeds the budget of its attribute or the memory budget. *)
Definition exceeds (p : SubarrayPartitioner T) (b est : ResultBudget) : bool :=
  (size_fixed_ b <? size_fixed_ est)
  || (size_var_ b <? size_var_ est)
  || (memory_budget_ p <? size_fixed_ est)
  || (memory_budget_var_ p <? size_var_ est).

(** Modelled from the spec: [must_split(partition)] is true exactly when
    the partition's estimated result size exceeds some per-attribute budget
    or the memory budget. *)
Definition must_split (p : SubarrayPartitioner T) (partition : Subarray T) : bool :=
  existsb (fun ab => exceeds p ab.2 (estimate_result_size eng partition ab.1))
          (map_to_list (budget_ p)).

(** The cumulative estimate, for one attribute, of the single ranges at the
    flat indices [start, end]. *)
Definition cumulative_estimate (p : SubarrayPartitioner T) (attr_name : string)
    (start end_ : Z) : ResultBudget :=
  foldl (fun acc i =>
           let est := estimate_result_size eng (get_range (subarray_ p) i) attr_name in
           mkResultBudget (size_fixed_ acc + size_fixed_ est)
                          (size_var_ acc + size_var_ est))
        (mkResultBudget 0 0)
        (seqZ start (end_ - start + 1)).

Definition interval_fits (p : SubarrayPartitioner T) (start end_ : Z) : bool :=
  forallb (fun ab => negb (exceeds p ab.2 (cumulative_estimate p ab.1 start end_)))
          (map_to_list (budget_ p)).

(** Modelled from the spec (4.D, step 3a): the largest [end'] in
    [state.start, state.end] such that the cumulative estimate of the flat
    indices [state.start, end'] fits every attribute budget and the memory
    budget; nothing when there is none ([found = false] in the header). *)
Definition compute_current_start_end (p : SubarrayPartitioner T) : option Z :=
  let start := State.start_ (state_ p) in
  last (filter (fun e => interval_fits p start e = true)
               (seqZ start (State.end_ (state_ p) - start + 1))).

(** ** Splitting points (specification 4.F) *)

(** The single range of every dimension that has one, with the index of
    the dimension. *)
Definition indexed_single_ranges (range : Subarray T) : list (nat * Range T) :=
  omap (fun drs => r ← head drs.2; Some (drs.1, r))
       (zip (seq 0 (length (dims range))) (dims range)).

(** Modelled from the spec: the dimension with the largest number of
    splittable points, the lowest index winning a tie. *)
Definition choose_splitting_dim (range : Subarray T) : option (nat * Range T) :=
  foldl (fun best dr =>
           match best with
           | None => Some dr
           | Some (_, rb) =>
               if splittable_points rb <? splittable_points dr.2
               then Some dr else best
           end)
        None (indexed_single_ranges range).

(** Modelled from the spec: for floating [T], the splitting point has come
    out equal to [lo] or to [hi] after rounding and its next-float
    neighbour is the other endpoint. *)
Definition rounding_exhausted (r : Range T) : bool :=
  let splitting_point := midpoint (lo r) (hi r) in
  (t_eqb splitting_point (lo r) && t_eqb (next_after splitting_point) (hi r))
  || (t_eqb splitting_point (hi r) && t_eqb (next_before splitting_point) (lo r)).

(** Modelled from the spec: a range cannot be split when it is a single
    point or, on a real domain, when rounding is exhausted. *)
Definition range_unsplittable (r : Range T) : bool :=
  negb (splittable r) || (negb is_integer && rounding_exhausted r).

(** Modelled from the spec (4.F.1): [compute_splitting_point_single_range];
    the results are the out-parameters [splitting_dim], [splitting_point]
    and [unsplittable] of the header. *)
Definition compute_splitting_point_single_range (range : Subarray T)
    : nat * option T * bool :=
  match choose_splitting_dim range with
  | None => (0%nat, None, true)
  | Some (d, r) => (d, Some (midpoint (lo r) (hi r)), range_unsplittable r)
  end.

(** Modelled from the spec (4.F.3): [compute_splitting_point_on_tiles],
    through the schema's tile-aligned split. *)
Definition compute_splitting_point_on_tiles (range : Subarray T)
    : nat * option T * bool :=
  match tile_split eng range with
  | None => (0%nat, None, true)
  | Some (d, point) => (d, Some point, false)
  end.

(** Modelled from the spec (4.F.2 and testable property 5): the splitting
    dimension of a multi-range split is dimension 0 under ROW_MAJOR and the
    last dimension under COL_MAJOR; under the other layouts any dimension
    may be chosen, and dimension 0 is. *)
Definition multi_range_splitting_dim (s : Subarray T) : nat :=
  match layout s with
  | COL_MAJOR => (length (dims s) - 1)%nat
  | _ => 0%nat
  end.

(** Modelled from the spec (4.F.2): [compute_splitting_point_multi_range]
    for a slab; the results are the out-parameters [splitting_dim],
    [splitting_range], [splitting_point] and [unsplittable] of the header.
    With several ranges on the splitting dimension the splitting range is
    the middle one and the point its upper endpoint; with one range the
    single-range split of that range is taken. *)
Definition compute_splitting_point_multi_range (slab : Subarray T)
    : nat * nat * option T * bool :=
  let d := multi_range_splitting_dim slab in
  match dims slab !! d with
  | None | Some [] => (d, 0%nat, None, true)
  | Some [r] => (d, 0%nat, Some (midpoint (lo r) (hi r)), range_unsplittable r)
  | Some rs =>
      let splitting_range := ((length rs - 1) / 2)%nat in
      match rs !! splitting_range with
      | Some r => (d, splitting_range, Some (hi r), false)
      | None => (d, splitting_range, None, true)
      end
  end.

(** The two halves of a subarray, when a splitting point was found. *)
Definition split_at (s : Subarray T) (found : nat * option T * bool)
    : option (Subarray T * Subarray T) :=
  match found with
  | (d, Some point, false) => Some (split s d point)
  | _ => None
  end.

(** Modelled from the spec: the single-range split of a subarray; under
    GLOBAL_ORDER the splitting point is the tile-aligned one. *)
Definition split_single_range (range : Subarray T)
    : option (Subarray T * Subarray T) :=
  split_at range
    (match layout range with
     | GLOBAL_ORDER => compute_splitting_point_on_tiles range
     | _ => compute_splitting_point_single_range range
     end).

(** Modelled from the spec: the multi-range split of a slab. *)
Definition split_multi_range (slab : Subarray T)
    : option (Subarray T * Subarray T) :=
  let '(d, _, point, unsplittable) := compute_splitting_point_multi_range slab in
  split_at slab (d, point, unsplittable).

(** The partitioner with other pending lists. *)
Definition with_single_range (p : SubarrayPartitioner T)
    (single_range : list (Subarray T)) : SubarrayPartitioner T :=
  mkSubarrayPartitioner (subarray_ p) (budget_ p) (current_ p)
    (State.mk (State.start_ (state_ p)) (State.end_ (state_ p))
              single_range (State.multi_range_ (state_ p)))
    (memory_budget_ p) (memory_budget_var_ p).

Definition with_multi_range (p : SubarrayPartitioner T)
    (multi_range : list (Subarray T)) : SubarrayPartitioner T :=
  mkSubarrayPartitioner (subarray_ p) (budget_ p) (current_ p)
    (State.mk (State.start_ (state_ p)) (State.end_ (state_ p))
              (State.single_range_ (state_ p)) multi_range)
    (memory_budget_ p) (memory_budget_var_ p).

(** The partitioner after emitting [partition] as the current partition;
    the interval [start_, end_] stays that of the originating interval. *)
Definition emit (p : SubarrayPartitioner T) (partition : Subarray T)
    (split_multi_range : bool) : SubarrayPartitioner T :=
  mkSubarrayPartitioner (subarray_ p) (budget_ p)
    (PartitionInfo.mk partition
                      (PartitionInfo.start_ (current_ p))
                      (PartitionInfo.end_ (current_ p))
                      split_multi_range)
    (state_ p) (memory_budget_ p) (memory_budget_var_ p).

(** Modelled from the spec (4.F): [split_top_single_range] pops the front,
    computes a split and pushes both halves, left first; when no split can
    be produced it sets [unsplittable] and leaves the list alone. *)
Definition split_top_single_range (p : SubarrayPartitioner T)
    : SubarrayPartitioner T * bool :=
  match State.single_range_ (state_ p) with
  | [] => (p, true)
  | front :: rest =>
      match split_single_range front with
      | Some (l, r) => (with_single_range p (l :: r :: rest), false)
      | None => (p, true)
      end
  end.

(** Modelled from the spec (4.F): [split_top_multi_range], likewise. *)
Definition split_top_multi_range (p : SubarrayPartitioner T)
    : SubarrayPartitioner T * bool :=
  match State.multi_range_ (state_ p) with
  | [] => (p, true)
  | front :: rest =>
      match split_multi_range front with
      | Some (l, r) => (with_multi_range p (l :: r :: rest), false)
      | None => (p, true)
      end
  end.

(** What bounds the splits of a subarray: every range counts for one more
    than its number of splittable points. *)
Definition subarray_measure (s : Subarray T) : nat :=
  Z.to_nat (foldr (fun rs n => foldr (fun r m => 1 + splittable_points r + m) n rs)
                  0 (dims s)).

(** ** The state machine (specification 4.D) *)

(** Modelled from the spec (4.D, step 4, DrainingSingle): the front of
    [single_range] is the candidate.  If it need not be split it is popped
    and emitted; otherwise the top is split and the new front is examined
    in turn, and if the top cannot be split the front is emitted anyway and
    popped, with [unsplittable] set.  [fuel] bounds the number of splits;
    running out of it yields nothing. *)
Fixpoint next_from_single_range (fuel : nat) (p : SubarrayPartitioner T)
    : option (SubarrayPartitioner T * bool) :=
  match State.single_range_ (state_ p) with
  | [] => None
  | front :: rest =>
      if negb (must_split p front)
      then Some (emit (with_single_range p rest) front false, false)
      else
        match split_top_single_range p with
        | (_, true) => Some (emit (with_single_range p rest) front false, true)
        | (p', false) =>
            match fuel with
            | O => None
            | S fuel' => next_from_single_range fuel' p'
            end
        end
  end.

(** Modelled from the spec (4.D, step 5, DrainingMulti): the same with the
    multi-range split; what is emitted carries [split_multi_range]. *)
Fixpoint next_from_multi_range (fuel : nat) (p : SubarrayPartitioner T)
    : option (SubarrayPartitioner T * bool) :=
  match State.multi_range_ (state_ p) with
  | [] => None
  | front :: rest =>
      if negb (must_split p front)
      then Some (emit (with_multi_range p rest) front true, false)
      else
        match split_top_multi_range p with
        | (_, true) => Some (emit (with_multi_range p rest) front true, true)
        | (p', false) =>
            match fuel with
            | O => None
            | S fuel' => next_from_multi_range fuel' p'
            end
        end
  end.

(** The partitioner that has taken the flat interval [start, end] out of
    the 1D space: the interval is that of the current partition from now
    on and [state.start] moves past it.  (The specification says when
    [state.start] advances for an interval emitted whole, and is silent for
    an interval handed to one of the lists; it advances at once here.) *)
Definition take_interval (p : SubarrayPartitioner T) (start end_ : Z)
    (partition : Subarray T) (single_range multi_range : list (Subarray T))
    : SubarrayPartitioner T :=
  mkSubarrayPartitioner (subarray_ p) (budget_ p)
    (PartitionInfo.mk partition start end_ false)
    (State.mk (end_ + 1) (State.end_ (state_ p)) single_range multi_range)
    (memory_budget_ p) (memory_budget_var_ p).

(** Modelled from the spec (4.D): [next].  The result is the status, the
    partitioner afterwards and the out-parameter [unsplittable]. *)
Definition next (p : SubarrayPartitioner T)
    : option (Status * SubarrayPartitioner T * bool) :=
  if done p then Some (Ok, p, false)
  else
    match State.single_range_ (state_ p), State.multi_range_ (state_ p) with
    | front :: _, _ =>
        '(p', unsplittable) ← next_from_single_range (subarray_measure front) p;
        Some (Ok, p', unsplittable)
    | [], front :: _ =>
        '(p', unsplittable) ← next_from_multi_range (subarray_measure front) p;
        Some (Ok, p', unsplittable)
    | [], [] =>
        let start := State.start_ (state_ p) in
        match compute_current_start_end p with
        | None =>
            let range := get_range (subarray_ p) start in
            let p1 := take_interval p start start (current p) [range] [] in
            '(p', unsplittable) ← next_from_single_range (subarray_measure range) p1;
            Some (Ok, p', unsplittable)
        | Some end' =>
            let '(end'', must_split_slab) := calibrate eng (subarray_ p) start end' in
            let slab := get_subarray (subarray_ p) start end'' in
            if must_split_slab then
              let p1 := take_interval p start end'' (current p) [] [slab] in
              '(p', unsplittable) ← next_from_multi_range (subarray_measure slab) p1;
              Some (Ok, p', unsplittable)
            else Some (Ok, take_interval p start end'' slab [] [], false)
        end
    end.

(** A subarray with more than one range on some dimension. *)
Definition is_multi_range (s : Subarray T) : bool :=
  existsb (fun rs => (1 <? length rs)%nat) (dims s).

(** Modelled from the spec (4.D): [split_current].  The current partition
    is split again, as a multi-range or a single-range subarray; both
    halves go to the front of the list, left first, and the new front is
    popped and emitted again as the current partition.  If no split can be
    produced, [unsplittable] is set and the lists are not modified.  After
    [done()] it is a no-op that sets [unsplittable]. *)
Definition split_current (p : SubarrayPartitioner T)
    : Status * SubarrayPartitioner T * bool :=
  if done p then (Ok, p, true)
  else if is_multi_range (current p) then
    match split_multi_range (current p) with
    | Some (l, r) =>
        (Ok, emit (with_multi_range p (r :: State.multi_range_ (state_ p))) l true,
         false)
    | None => (Ok, p, true)
    end
  else
    match split_single_range (current p) with
    | Some (l, r) =>
        (Ok, emit (with_single_range p (r :: State.single_range_ (state_ p))) l false,
         false)
    | None => (Ok, p, true)
    end.

(** ** Call sequences *)

(** The public operations that change a partitioner. *)
Inductive Call : Type :=
  | CallNext
  | CallSplitCurrent
  | CallSetResultBudget (attr_name : string) (budget : Z)
  | CallSetResultBudgetVar (attr_name : string) (budget_off budget_val : Z)
  | CallSetMemoryBudget (budget budget_var : Z).

(** One call: the partitioner afterwards and whether the call emitted a
    partition ([next] on a partitioner that is not done, [split_current]
    that produced a split). *)
Definition call (c : Call) (p : SubarrayPartitioner T)
    : option (SubarrayPartitioner T * bool) :=
  match c with
  | CallNext =>
      '(_, p', _) ← next p;
      Some (p', negb (done p))
  | CallSplitCurrent =>
      let '(_, p', unsplittable) := split_current p in
      Some (p', negb unsplittable)
  | CallSetResultBudget a b => Some ((set_result_budget a b p).2, false)
  | CallSetResultBudgetVar a bo bv => Some ((set_result_budget_var a bo bv p).2, false)
  | CallSetMemoryBudget b bv => Some ((set_memory_budget b bv p).2, false)
  end.

(** A sequence of calls: the partitioner afterwards and the partitions
    emitted, in order, with their intervals. *)
Fixpoint run (calls : list Call) (p : SubarrayPartitioner T)
    : option (SubarrayPartitioner T * list (PartitionInfo.t T)) :=
  match calls with
  | [] => Some (p, [])
  | c :: rest =>
      match call c p with
      | None => None
      | Some (p', emitted) =>
          match run rest p' with
          | None => None
          | Some (p'', log) =>
              Some (p'', if emitted : bool then current_ p' :: log else log)
          end
      end
  end.


(** ** Partitions that cannot be split *)




End PartitionerOperations.

(** The flat interval of an emitted partition. *)
Definition interval {T} (info : PartitionInfo.t T) : Z * Z :=
  (PartitionInfo.start_ info, PartitionInfo.end_ info).


(** ** Subarrays on which every call returns

    The specification asks no more of a subarray than to be well-formed.
    Its split goes by
    value (4.B): on a dimension whose ranges are not in increasing order a
    half can come out without any range, and the lists are then never
    drained.  What follows describes the subarrays, the coordinate types
    and the parameters for which the calls of the state machine are shown
    to return and to reach [done()] under any budgets; the theorems on the
    emitted intervals and on partitions that cannot be split do not depend
    on them. *)

(** The ranges of a dimension are non-empty intervals that follow one
    another: each ends below the beginning of the next. *)
Definition increasing {T} `{DomainOps T} (rs : list (Range T)) : Prop :=
  Forall (fun r => ord (lo r) <= ord (hi r)) rs
  /\ StronglySorted (fun a b => ord (hi a) < ord (lo b)) rs.

(** A subarray in order: it has the given number of dimensions and, on
    each, at least one range, the ranges being increasing. *)
Definition ordered_subarray {T} `{DomainOps T} (dim_num : nat) (s : Subarray T) : Prop :=
  length (dims s) = dim_num
  /\ Forall (fun rs => rs <> [] /\ increasing rs) (dims s).

(** A coordinate type on which splits make progress: the successor is the
    next value, and the splitting point of a range that can be split lies
    in it, below its upper end.  The integer types are such; binary64
    with its infinities and NaN is not, [next_after] being stationary
    there. *)
Class DomainLaws (T : Type) `{DomainOps T} : Prop := {
  next_after_ord : forall p : T, ord (next_after p) = ord p + 1;
  midpoint_inside : forall r : Range T,
    range_unsplittable r = false ->
    ord (lo r) <= ord (midpoint (lo r) (hi r)) < ord (hi r)
}.

(** Modelled from the spec (4.E): calibration answers with an end in the 1D
    space, at or after the start of the interval. *)
Definition calibration_in_range {T} (eng : Engine T) (original : Subarray T)
    : Prop :=
  forall start end_,
    0 <= start <= end_ -> end_ <= range_num original - 1 ->
    start <= (calibrate eng original start end_).1 <= range_num original - 1.

(** Calibration and a tile-aligned split with which every call returns,
    for a given original subarray: the calibrated end stays in the 1D space
    at or after [start], the calibrated interval materializes to a subarray
    in order, and a tile-aligned splitting point lies in the single range
    of its dimension, below its upper end. *)
Record engine_contract {T} `{DomainOps T} (eng : Engine T) (original : Subarray T)
    : Prop := {
  calibrate_in_range : calibration_in_range eng original;
  calibrate_valid : forall start end_,
    0 <= start <= end_ -> end_ <= range_num original - 1 ->
    ordered_subarray (length (dims original))
      (get_subarray original start (calibrate eng original start end_).1);
  tile_split_inside : forall range d point,
    tile_split eng range = Some (d, point) ->
    exists r, dims range !! d = Some [r]
              /\ ord (lo r) <= ord point < ord (hi r)
}.


(** ** A concrete engine for running the partitioner on examples *)

(** The number of cells of an integer subarray. *)
Definition cell_num (s : Subarray Z) : Z :=
  foldr (fun rs n => foldr (fun r m => (hi r - lo r + 1) + m) 0 rs * n) 1 (dims s).

(** One fixed-sized attribute ["a"] of 4 bytes per cell; the estimate is
    exact; calibration keeps the first range of the interval only; no tile
    extents. *)
Definition demo_engine : Engine Z := {|
  attribute_var_sized := fun a => if String.eqb a "a" then Some false else None;
  estimate_result_size := fun s _ => mkResultBudget (4 * cell_num s) 0;
  calibrate := fun _ start _ => (start, false);
  tile_split := fun _ => None;
  default_memory_budget := 5368709120;
  default_memory_budget_var := 10737418240
|}.

(** A partitioner on the single range [1, 4] with a budget of two cells,
    and one on a single cell with a budget of less than a cell. *)
Definition demo_partitioner : SubarrayPartitioner Z :=
  (set_result_budget demo_engine "a" 8
     (new demo_engine (mkSubarray [[mkRange 1 4]] ROW_MAJOR))).2.

Definition demo_cell_partitioner : SubarrayPartitioner Z :=
  (set_result_budget demo_engine "a" 2
     (new demo_engine (mkSubarray [[mkRange 5 5]; [mkRange 7 7]] ROW_MAJOR))).2.

(** [demo_partitioner] after the two calls of [next] that exhaust it. *)
Definition demo_done_partitioner : SubarrayPartitioner Z :=
  match run demo_engine [CallNext; CallNext] demo_partitioner with
  | Some (p, _) => p
  | None => demo_partitioner
  end.

(** ** Following the intervals of a partitioner *)

(** A partitioner just created from [original]. *)
Definition fresh {T} (original : Subarray T) (p : SubarrayPartitioner T) : Prop :=
  subarray_ p = original
  /\ State.start_ (state_ p) = 0
  /\ State.end_ (state_ p) = range_num original - 1
  /\ State.single_range_ (state_ p) = []
  /\ State.multi_range_ (state_ p) = [].

(** A partitioner whose last emitted interval is [prev]: the current
    partition carries it and [state.start] is right after it. *)
Definition tracks {T} (original : Subarray T) (p : SubarrayPartitioner T)
    (prev : Z * Z) : Prop :=
  subarray_ p = original
  /\ State.end_ (state_ p) = range_num original - 1
  /\ State.start_ (state_ p) = prev.2 + 1
  /\ interval (current_ p) = prev
  /\ 0 <= prev.1 <= prev.2
  /\ prev.2 <= range_num original - 1.

(** A call sequence is legal when [split_current] is not called before the
    first [next]: there is no current partition to split before. *)
Fixpoint legal (calls : list Call) : bool :=
  match calls with
  | [] => true
  | CallNext :: _ => true
  | CallSplitCurrent :: _ => false
  | _ :: rest => legal rest
  end.


(** The measure of the ranges of one dimension and of all dimensions, as
    integers; [subarray_measure] is the latter. *)
Definition ranges_measure {T} `{DomainOps T} (rs : list (Range T)) : Z :=
  foldr (fun r m => 1 + splittable_points r + m) 0 rs.

Definition dims_measure {T} `{DomainOps T} (ds : list (list (Range T))) : Z :=
  foldr (fun rs n => ranges_measure rs + n) 0 ds.

(** What bounds the partitions to come of a pending subarray, and of the
    pending subarrays of a partitioner: a split makes two subarrays of
    smaller measure, so two to the measure bounds the pieces. *)
Definition subarray_weight {T} `{DomainOps T} (s : Subarray T) : Z :=
  2 ^ dims_measure (dims s).

Definition pending_weight {T} `{DomainOps T} (p : SubarrayPartitioner T) : Z :=
  foldr (fun s n => subarray_weight s + n) 0
        (State.single_range_ (state_ p) ++ State.multi_range_ (state_ p)).

(** What holds of a partitioner of [original] between calls: it keeps its
    subarray, [state.end] is the last flat index, [state.start] is not
    negative, and every pending subarray is in order. *)
Definition partitioner_invariant {T} `{DomainOps T} (original : Subarray T)
    (p : SubarrayPartitioner T) : Prop :=
  subarray_ p = original
  /\ State.end_ (state_ p) = range_num original - 1
  /\ 0 <= State.start_ (state_ p)
  /\ Forall (ordered_subarray (length (dims original))) (State.single_range_ (state_ p))
  /\ Forall (ordered_subarray (length (dims original))) (State.multi_range_ (state_ p)).




(** An engine like [demo_engine] whose calibration takes the whole 1D space
    as one slab that must be split; and three ranges on one dimension. *)
Definition demo_slab_engine : Engine Z := {|
  attribute_var_sized := attribute_var_sized demo_engine;
  estimate_result_size := estimate_result_size demo_engine;
  calibrate := fun s _ _ => (range_num s - 1, true);
  tile_split := tile_split demo_engine;
  default_memory_budget := default_memory_budget demo_engine;
  default_memory_budget_var := default_memory_budget_var demo_engine
|}.


(** Two ranges on the first dimension and one on the second: two flat
    indices. *)
Definition demo_grid : Subarray Z :=
  mkSubarray [[mkRange 1 10; mkRange 20 30]; [mkRange 1 5]] ROW_MAJOR.



(** Two ranges on one dimension that are not in increasing order. *)
Definition demo_unordered : Subarray Z :=
  mkSubarray [[mkRange 20 30; mkRange 1 10]] ROW_MAJOR.

(** A partitioner on them whose budget fits the first range and not the
    two together. *)
Definition demo_unordered_partitioner : SubarrayPartitioner Z :=
  (set_result_budget demo_slab_engine "a" 44
     (new demo_slab_engine demo_unordered)).2.

(** * The storage operations of the virtual filesystem

    The rest of [tiledb/sm/filesystem/vfs.cc]: the operations that hand a
    URI to the backend that serves it, and the ones built on them
    ([create_dir], [dir_size], [move_file], [open_file]). *)

(** ** The backends

    The VFS object holds a local backend ([posix_], or [win_] on Windows),
    [hdfs_] and [s3_]; their classes are declared outside the file embedded
    here.  [FS] is the state of the storage they act on.  A method that
    changes the storage answers with a status and the storage afterwards;
    a query ([is_dir], [is_file], [file_size], [ls], ...) is taken to leave
    the storage as it is.  Where a method answers through an out-parameter
    the field gives what it stored there: [Some v], or [None] when it left
    the variable untouched. *)
Set Implicit Arguments.

Record Backends (FS : Type) : Type := mkBackends {
  local_create_dir : string -> FS -> Status * FS;
  local_touch : string -> FS -> Status * FS;
  local_remove_dir : string -> FS -> Status * FS;
  local_remove_file : string -> FS -> Status * FS;
  local_file_size : string -> FS -> Status * option Z;
  local_is_dir : string -> FS -> bool;
  local_is_file : string -> FS -> bool;
  local_ls : string -> FS -> Status * list string;
  local_move_path : string -> string -> FS -> Status * FS;
  local_sync : string -> FS -> Status * FS;
  local_write : string -> list Byte.byte -> Z -> FS -> Status * FS;
  hdfs_create_dir : URI -> FS -> Status * FS;
  hdfs_touch : URI -> FS -> Status * FS;
  hdfs_remove_dir : URI -> FS -> Status * FS;
  hdfs_remove_file : URI -> FS -> Status * FS;
  hdfs_file_size : URI -> FS -> Status * option Z;
  hdfs_is_dir : URI -> FS -> Status * option bool;
  hdfs_is_file : URI -> FS -> Status * option bool;
  hdfs_ls : URI -> FS -> Status * list string;
  hdfs_move_path : URI -> URI -> FS -> Status * FS;
  hdfs_sync : URI -> FS -> Status * FS;
  hdfs_write : URI -> list Byte.byte -> Z -> FS -> Status * FS;
  s3_touch : URI -> FS -> Status * FS;
  s3_remove_dir : URI -> FS -> Status * FS;
  s3_remove_object : URI -> FS -> Status * FS;
  s3_object_size : URI -> FS -> Status * option Z;
  s3_is_dir : URI -> FS -> Status * option bool;
  s3_is_object : URI -> FS -> bool;
  s3_is_bucket : URI -> FS -> bool;
  s3_ls : URI -> FS -> Status * list string;
  s3_move_object : URI -> URI -> FS -> Status * FS;
  s3_move_dir : URI -> URI -> FS -> Status * FS;
  s3_flush_object : URI -> FS -> Status * FS;
  s3_write : URI -> list Byte.byte -> Z -> FS -> Status * FS;
  s3_create_bucket : URI -> FS -> Status * FS;
  s3_remove_bucket : URI -> FS -> Status * FS;
  s3_empty_bucket : URI -> FS -> Status * FS;
  s3_is_empty_bucket : URI -> FS -> Status * option bool;
  s3_disconnect : FS -> Status * FS;
  (** [parallel_sort] on a vector of paths, with the order of strings. *)
  sort_paths : list string -> list string;
  (** The constructor of class [URI] from a path. *)
  URI_of_path : string -> URI
}.

Unset Implicit Arguments.

(** A variable after a call that may have stored through its address. *)
Definition assign {A : Type} (var written : option A) : option A :=
  match written with
  | Some _ => written
  | None => var
  end.

(** [enum class Filesystem] and [enum class VFSMode]. *)
Inductive Filesystem : Type := HDFS | S3.

Inductive VFSMode : Type := VFS_READ | VFS_WRITE | VFS_APPEND.

#[global] Instance Filesystem_eq_dec : EqDecision Filesystem.
Proof. solve_decision. Defined.

#[global] Instance Filesystem_countable : Countable Filesystem.
Proof.
  refine (inj_countable' (fun fs => match fs with HDFS => false | S3 => true end)
                         (fun b : bool => if b then S3 else HDFS) _).
  intros []; reflexivity.
Defined.

(** The constructor [VFS::VFS]: the set [supported_fs_] it fills, first
    with HDFS and then with S3, each when the build has it. *)
Definition supported_fs_ (this : VFS) : gset Filesystem :=
  let P := platform this in
  let hdfs : gset Filesystem := if HAVE_HDFS P then {[HDFS]} ∪ ∅ else ∅ in
  if HAVE_S3 P then {[S3]} ∪ hdfs else hdfs.

(** [VFS::supports_fs]. *)
Definition supports_fs (this : VFS) (fs : Filesystem) : bool :=
  bool_decide (fs ∈ supported_fs_ this).

(** [VFS::supports_uri_scheme]. *)
Definition supports_uri_scheme (this : VFS) (uri : URI) : bool :=
  let P := platform this in
  if is_s3 P uri then supports_fs this S3
  else if is_hdfs P uri then supports_fs this HDFS
  else true.

(** The result of a function whose loop need not end: what it returned,
    undefined behaviour, or still running after the steps allowed. *)
Inductive Outcome (A : Type) : Type :=
  | Returns (a : A)
  | Undefined
  | OutOfFuel.

Arguments Returns {A}.
Arguments Undefined {A}.
Arguments OutOfFuel {A}.

(** The variables of [VFS::dir_size] that live across its loops: the list
    [to_ls], the sum [*dir_size], and the locals [size] and [is_file], which
    are declared without a value. *)
Record DirSizeLoop : Type := mkDirSizeLoop {
  to_ls : list URI;
  dir_size_sum : Z;
  size_var : option Z;
  is_file_var : option bool
}.

Section StorageOperations.

Context {FS : Type}.
Variable this : VFS.
Variable B : Backends FS.

Local Abbreviation P := (platform this).
Local Abbreviation without_hdfs := (VFSError "TileDB was built without HDFS support").
Local Abbreviation without_s3 := (VFSError "TileDB was built without S3 support").

(** [VFS::is_dir]; second is what was stored in [*is_dir]. *)
Definition is_dir (uri : URI) (fs : FS) : Status * option bool :=
  if is_file P uri then (Ok, Some (local_is_dir B (to_path P uri) fs))
  else if is_hdfs P uri then
    if HAVE_HDFS P then hdfs_is_dir B uri fs
    else (without_hdfs, Some false)
  else if is_s3 P uri then
    if HAVE_S3 P then s3_is_dir B uri fs
    else (without_s3, Some false)
  else (VFSError ("Unsupported URI scheme: " +:+ to_string uri), None).

(** [VFS::is_file]; second is what was stored in [*is_file].  (The name
    [is_file] is that of the scheme test of class [URI].) *)
Definition vfs_is_file (uri : URI) (fs : FS) : Status * option bool :=
  if is_file P uri then (Ok, Some (local_is_file B (to_path P uri) fs))
  else if is_hdfs P uri then
    if HAVE_HDFS P then hdfs_is_file B uri fs
    else (without_hdfs, Some false)
  else if is_s3 P uri then
    if HAVE_S3 P then (Ok, Some (s3_is_object B uri fs))
    else (without_s3, Some false)
  else (VFSError ("Unsupported URI scheme: " +:+ to_string uri), None).

(** [VFS::is_bucket]; second is what was stored in [*is_bucket]. *)
Definition is_bucket (uri : URI) (fs : FS) : Status * option bool :=
  if is_s3 P uri then
    if HAVE_S3 P then (Ok, Some (s3_is_bucket B uri fs))
    else (without_s3, Some false)
  else (VFSError ("Unsupported URI scheme: " +:+ to_string uri), None).

(** [VFS::file_size]; second is what was stored in [*size]. *)
Definition file_size (uri : URI) (fs : FS) : Status * option Z :=
  if is_file P uri then local_file_size B (to_path P uri) fs
  else if is_hdfs P uri then
    if HAVE_HDFS P then hdfs_file_size B uri fs
    else (without_hdfs, None)
  else if is_s3 P uri then
    if HAVE_S3 P then s3_object_size B uri fs
    else (without_s3, None)
  else (VFSError ("Unsupported URI scheme: " +:+ to_string uri), None).

(** [VFS::ls]; [uris] is the vector the entries are appended to. *)
Definition ls (parent : URI) (uris : list URI) (fs : FS) : Status * list URI :=
  let listed : Status * list string :=
    if is_file P parent then local_ls B (to_path P parent) fs
    else if is_hdfs P parent then
      if HAVE_HDFS P then hdfs_ls B parent fs
      else (without_hdfs, [])
    else if is_s3 P parent then
      if HAVE_S3 P then s3_ls B parent fs
      else (without_s3, [])
    else (VFSError ("Unsupported URI scheme: " +:+ to_string parent), []) in
  let '(st, paths) := listed in
  if negb (ok st) then (st, uris)
  else (Ok, uris ++ map (URI_of_path B) (sort_paths B paths)).

(** [VFS::touch]. *)
Definition touch (uri : URI) (fs : FS) : Status * FS :=
  if is_file P uri then local_touch B (to_path P uri) fs
  else if is_hdfs P uri then
    if HAVE_HDFS P then hdfs_touch B uri fs
    else (without_hdfs, fs)
  else if is_s3 P uri then
    if HAVE_S3 P then s3_touch B uri fs
    else (without_s3, fs)
  else (VFSError ("Unsupported URI scheme: " +:+ to_string uri), fs).

(** [VFS::remove_dir]. *)
Definition remove_dir (uri : URI) (fs : FS) : Status * FS :=
  if is_file P uri then local_remove_dir B (to_path P uri) fs
  else if is_hdfs P uri then
    if HAVE_HDFS P then hdfs_remove_dir B uri fs
    else (without_hdfs, fs)
  else if is_s3 P uri then
    if HAVE_S3 P then s3_remove_dir B uri fs
    else (without_s3, fs)
  else (VFSError ("Unsupported URI scheme: " +:+ to_string uri), fs).

(** [VFS::remove_file]. *)
Definition remove_file (uri : URI) (fs : FS) : Status * FS :=
  if is_file P uri then local_remove_file B (to_path P uri) fs
  else if is_hdfs P uri then
    if HAVE_HDFS P then hdfs_remove_file B uri fs
    else (without_hdfs, fs)
  else if is_s3 P uri then
    if HAVE_S3 P then s3_remove_object B uri fs
    else (without_s3, fs)
  else (VFSError ("Unsupported URI scheme: " +:+ to_string uri), fs).

(** [VFS::sync]. *)
Definition sync (uri : URI) (fs : FS) : Status * FS :=
  if is_file P uri then local_sync B (to_path P uri) fs
  else if is_hdfs P uri then
    if HAVE_HDFS P then hdfs_sync B uri fs
    else (without_hdfs, fs)
  else if is_s3 P uri then
    if HAVE_S3 P then (Ok, fs)
    else (without_s3, fs)
  else (VFSError ("Unsupported URI scheme: " +:+ to_string uri), fs).

(** [VFS::close_file]. *)
Definition close_file (uri : URI) (fs : FS) : Status * FS :=
  if is_file P uri then local_sync B (to_path P uri) fs
  else if is_hdfs P uri then
    if HAVE_HDFS P then hdfs_sync B uri fs
    else (without_hdfs, fs)
  else if is_s3 P uri then
    if HAVE_S3 P then s3_flush_object B uri fs
    else (without_s3, fs)
  else (VFSError ("Unsupported URI schemes: " +:+ to_string uri), fs).

(** [VFS::write]. *)
Definition write (uri : URI) (buffer : list Byte.byte) (buffer_size : Z) (fs : FS)
    : Status * FS :=
  if is_file P uri then local_write B (to_path P uri) buffer buffer_size fs
  else if is_hdfs P uri then
    if HAVE_HDFS P then hdfs_write B uri buffer buffer_size fs
    else (without_hdfs, fs)
  else if is_s3 P uri then
    if HAVE_S3 P then s3_write B uri buffer buffer_size fs
    else (without_s3, fs)
  else (VFSError ("Unsupported URI schemes: " +:+ to_string uri), fs).

(** [VFS::create_bucket]. *)
Definition create_bucket (uri : URI) (fs : FS) : Status * FS :=
  if is_s3 P uri then
    if HAVE_S3 P then s3_create_bucket B uri fs
    else (VFSError "S3 is not supported", fs)
  else (VFSError ("Cannot create bucket; Unsupported URI scheme: " +:+ to_string uri),
        fs).

(** [VFS::remove_bucket]. *)
Definition remove_bucket (uri : URI) (fs : FS) : Status * FS :=
  if is_s3 P uri then
    if HAVE_S3 P then s3_remove_bucket B uri fs
    else (VFSError "S3 is not supported", fs)
  else (VFSError ("Cannot remove bucket; Unsupported URI scheme: " +:+ to_string uri),
        fs).

(** [VFS::empty_bucket]. *)
Definition empty_bucket (uri : URI) (fs : FS) : Status * FS :=
  if is_s3 P uri then
    if HAVE_S3 P then s3_empty_bucket B uri fs
    else (VFSError "S3 is not supported", fs)
  else (VFSError ("Cannot remove bucket; Unsupported URI scheme: " +:+ to_string uri),
        fs).

(** [VFS::is_empty_bucket]; second is what was stored in [*is_empty]. *)
Definition is_empty_bucket (uri : URI) (fs : FS) : Status * option bool :=
  if is_s3 P uri then
    if HAVE_S3 P then s3_is_empty_bucket B uri fs
    else (VFSError "S3 is not supported", None)
  else (VFSError ("Cannot remove bucket; Unsupported URI scheme: " +:+ to_string uri),
        None).

(** [VFS::terminate]. *)
Definition terminate (fs : FS) : Status * FS :=
  if HAVE_S3 P then s3_disconnect B fs else (Ok, fs).

(** [VFS::create_dir].  The local [is_dir] has no value until the call
    stores one; reading it without is undefined ([None]). *)
Definition create_dir (uri : URI) (fs : FS) : option (Status * FS) :=
  let create : Status * FS :=
    if is_file P uri then local_create_dir B (to_path P uri) fs
    else if is_hdfs P uri then
      if HAVE_HDFS P then hdfs_create_dir B uri fs
      else (without_hdfs, fs)
    else if is_s3 P uri then
      if HAVE_S3 P then (Ok, fs)
      else (without_s3, fs)
    else (GenericError ("Unsupported URI scheme: " +:+ to_string uri), fs) in
  if negb (is_s3 P uri) then
    let '(st, is_dir_) := is_dir uri fs in
    if negb (ok st) then Some (st, fs)
    else
      match is_dir_ with
      | None => None
      | Some true => Some (Ok, fs)
      | Some false => Some create
      end
  else Some create.

(** The part of [VFS::move_file] and the whole of [VFS::move_dir] that
    looks at the two schemes; they differ in the call made on S3. *)
Definition move_by_scheme (s3_move : URI -> URI -> FS -> Status * FS)
    (old_uri new_uri : URI) (fs : FS) : Status * FS :=
  let across := VFSError "Moving files across filesystems is not supported yet" in
  if is_file P old_uri then
    if is_file P new_uri
    then local_move_path B (to_path P old_uri) (to_path P new_uri) fs
    else (across, fs)
  else if is_hdfs P old_uri then
    if is_hdfs P new_uri then
      if HAVE_HDFS P then hdfs_move_path B old_uri new_uri fs
      else (without_hdfs, fs)
    else (across, fs)
  else if is_s3 P old_uri then
    if is_s3 P new_uri then
      if HAVE_S3 P then s3_move old_uri new_uri fs
      else (without_s3, fs)
    else (across, fs)
  else (VFSError ("Unsupported URI schemes: " +:+ to_string old_uri +:+ ", "
                  +:+ to_string new_uri), fs).

(** [VFS::move_file]. *)
Definition move_file (old_uri new_uri : URI) (fs : FS) : option (Status * FS) :=
  let '(st, is_file_) := vfs_is_file new_uri fs in
  if negb (ok st) then Some (st, fs)
  else
    match is_file_ with
    | None => None
    | Some true =>
        let '(st, fs') := remove_file new_uri fs in
        if negb (ok st) then Some (st, fs')
        else Some (move_by_scheme (s3_move_object B) old_uri new_uri fs')
    | Some false => Some (move_by_scheme (s3_move_object B) old_uri new_uri fs)
    end.

(** [VFS::move_dir]. *)
Definition move_dir (old_uri new_uri : URI) (fs : FS) : Status * FS :=
  move_by_scheme (s3_move_dir B) old_uri new_uri fs.

(** [VFS::open_file]. *)
Definition open_file (uri : URI) (mode : VFSMode) (fs : FS) : option (Status * FS) :=
  let '(st, is_file_) := vfs_is_file uri fs in
  if negb (ok st) then Some (st, fs)
  else
    match mode with
    | VFS_READ =>
        match is_file_ with
        | None => None
        | Some false =>
            Some (VFSError ("Cannot open file '" +:+ to_string uri
                            +:+ "'; File does not exist"), fs)
        | Some true => Some (Ok, fs)
        end
    | VFS_WRITE =>
        match is_file_ with
        | None => None
        | Some true =>
            let '(st, fs') := remove_file uri fs in
            if negb (ok st) then Some (st, fs') else Some (Ok, fs')
        | Some false => Some (Ok, fs)
        end
    | VFS_APPEND =>
        if is_s3 P uri then
          if HAVE_S3 P
          then Some (VFSError ("Cannot open file '" +:+ to_string uri
                               +:+ "'; S3 does not support append mode"), fs)
          else Some (VFSError "Cannot open file; TileDB was built without S3 support",
                     fs)
        else Some (Ok, fs)
    end.

(** The loop of [VFS::dir_size] over the children of one directory. *)
Fixpoint dir_size_children (fs : FS) (children : list URI) (l : DirSizeLoop)
    : option (Status * DirSizeLoop) :=
  match children with
  | [] => Some (Ok, l)
  | child :: rest =>
      let '(st, written) := vfs_is_file child fs in
      let l := mkDirSizeLoop (to_ls l) (dir_size_sum l) (size_var l)
                             (assign (is_file_var l) written) in
      if negb (ok st) then Some (st, l)
      else
        match is_file_var l with
        | None => None
        | Some true =>
            let '(st, written) := file_size child fs in
            let l := mkDirSizeLoop (to_ls l) (dir_size_sum l)
                                   (assign (size_var l) written) (is_file_var l) in
            if negb (ok st) then Some (st, l)
            else
              match size_var l with
              | None => None
              | Some size =>
                  dir_size_children fs rest
                    (mkDirSizeLoop (to_ls l) (wrap64 (dir_size_sum l + size))
                                   (size_var l) (is_file_var l))
              end
        | Some false =>
            dir_size_children fs rest
              (mkDirSizeLoop (to_ls l ++ [child]) (dir_size_sum l)
                             (size_var l) (is_file_var l))
        end
  end.

(** The [do ... while (!to_ls.empty())] of [VFS::dir_size], for at most
    [fuel] rounds. *)
Fixpoint dir_size_loop (fs : FS) (fuel : nat) (l : DirSizeLoop)
    : Outcome (Status * DirSizeLoop) :=
  match fuel with
  | O => OutOfFuel
  | S fuel' =>
      match to_ls l with
      | [] => Undefined
      | uri :: rest =>
          let l := mkDirSizeLoop rest (dir_size_sum l) (size_var l) (is_file_var l) in
          let '(st, children) := ls uri [] fs in
          if negb (ok st) then Returns (st, l)
          else
            match dir_size_children fs children l with
            | None => Undefined
            | Some (st, l') =>
                if negb (ok st) then Returns (st, l')
                else
                  match to_ls l' with
                  | [] => Returns (Ok, l')
                  | _ :: _ => dir_size_loop fs fuel' l'
                  end
            end
      end
  end.

(** [VFS::dir_size]; second is what was stored in [*dir_size]. *)
Definition dir_size (fuel : nat) (dir_name : URI) (fs : FS)
    : Outcome (Status * option Z) :=
  let '(st, is_dir_) := is_dir dir_name fs in
  if negb (ok st) then Returns (st, None)
  else
    match is_dir_ with
    | None => Undefined
    | Some false =>
        Returns (VFSError ("Cannot get directory size; Input '"
                           +:+ to_string dir_name +:+ "' is not a directory"), None)
    | Some true =>
        match dir_size_loop fs fuel (mkDirSizeLoop [dir_name] 0 None None) with
        | Returns (st, l) => Returns (st, Some (dir_size_sum l))
        | Undefined => Undefined
        | OutOfFuel => OutOfFuel
        end
    end.

End StorageOperations.

(** * Call sequences, files and trees

    What the statements about the storage operations, the locks and the
    reads are phrased with. *)

(** ** Sequences of lock calls *)

(** [n] calls of [filelock_lock] in a row on the same lock variable: the
    statuses and handles they answered, in order, and the state after. *)
Fixpoint lock_times (this : VFS) (uri : URI) (lock : Z) (shared : bool) (n : nat)
    (w : World) : list (Status * Z) * World :=
  match n with
  | O => ([], w)
  | S n' =>
      let '(st, lock', w') := filelock_lock this uri lock shared w in
      let '(rs, w'') := lock_times this uri lock' shared n' w' in
      ((st, lock') :: rs, w'')
  end.

(** [n] calls of [filelock_unlock] in a row. *)
Fixpoint unlock_times (this : VFS) (uri : URI) (n : nat) (w : World)
    : list Status * World :=
  match n with
  | O => ([], w)
  | S n' =>
      let '(st, w') := filelock_unlock this uri w in
      let '(rs, w'') := unlock_times this uri n' w' in
      (st :: rs, w'')
  end.

(** Every count in the lock table is a positive 64-bit number. *)
Definition lock_counts_valid (m : gmap string (Z * Z)) : Prop :=
  map_Forall (fun _ entry => 1 <= entry.1 < UINT64_MOD) m.

(** A platform like [demo_platform] built with HDFS and S3 support. *)
Definition demo_cloud_platform : Platform := {|
  is_file := is_file demo_platform;
  is_hdfs := is_hdfs demo_platform;
  is_s3 := is_s3 demo_platform;
  to_path := to_path demo_platform;
  HAVE_HDFS := true;
  HAVE_S3 := true;
  backend_filelock_lock := backend_filelock_lock demo_platform;
  backend_filelock_unlock := backend_filelock_unlock demo_platform;
  local_read := local_read demo_platform;
  hdfs_read := hdfs_read demo_platform;
  s3_read := s3_read demo_platform;
  buffer_realloc := buffer_realloc demo_platform;
  parallel_sort := parallel_sort demo_platform
|}.

Definition demo_cloud_vfs : VFS := mkVFS demo_cloud_platform demo_params.

Definition demo_s3_uri : URI := mkURI "s3://bucket/array/__lock.tdb".

(** ** Files *)

(** The [nbytes] bytes of a file from [offset] on. *)
Definition file_bytes (content : list Byte.byte) (offset nbytes : Z) : list Byte.byte :=
  take (Z.to_nat nbytes) (drop (Z.to_nat offset) content).

(** The backend behind [uri] holds a file of the given content: a read that
    stays inside the file succeeds and delivers the bytes asked for. *)
Definition serves (this : VFS) (uri : URI) (content : list Byte.byte) : Prop :=
  forall offset nbytes,
    0 <= offset -> 0 <= nbytes ->
    offset + nbytes <= Z.of_nat (length content) ->
    read_impl this uri offset nbytes = (Ok, file_bytes content offset nbytes).

(** The statuses of the chunk reads of [VFS::read], in chunk order. *)
Definition chunk_statuses (this : VFS) (uri : URI) (offset nbytes : Z) : list Status :=
  map (fun c => (read_impl this uri (thread_offset c) (thread_nbytes c)).1)
      (read_chunks this uri offset nbytes).

(** The content of every file of the example platform. *)
Definition demo_content : list Byte.byte := map demo_file_byte (seqZ 0 4096).

(** Example parameters with larger chunks: at most four parallel operations
    of at least four bytes each; and parameters that allow no operation. *)
Definition demo_wide_params : VFSParams := {|
  min_parallel_size_ := 4;
  min_batch_size_ := 64;
  min_batch_gap_ := 4;
  file_params_ := {| enable_filelocks_ := true; file_max_parallel_ops_ := 4 |};
  s3_params_ := {| s3_max_parallel_ops_ := 1 |}
|}.

Definition demo_wide_vfs : VFS := mkVFS demo_platform demo_wide_params.

Definition demo_idle_params : VFSParams := {|
  min_parallel_size_ := 4;
  min_batch_size_ := 64;
  min_batch_gap_ := 4;
  file_params_ := {| enable_filelocks_ := true; file_max_parallel_ops_ := 0 |};
  s3_params_ := {| s3_max_parallel_ops_ := 1 |}
|}.

Definition demo_idle_vfs : VFS := mkVFS demo_platform demo_idle_params.

Definition demo_hdfs_uri : URI := mkURI "hdfs://namenode/array/data.tdb".

(** ** Regions and tasks *)

(** Each region begins where the one before it ends. *)
Fixpoint contiguous (l : list Region) : Prop :=
  match l with
  | a :: rest =>
      match rest with
      | b :: _ => get_0 b = get_0 a + get_2 a
      | [] => True
      end /\ contiguous rest
  | [] => True
  end.

(** The number of bytes the regions ask for. *)
Definition total_bytes (l : list Region) : Z :=
  foldr (fun r n => get_2 r + n) 0 l.

(** The destination ranges of two regions have no address in common. *)
Definition dest_disjoint (a b : Region) : Prop :=
  get_1 a + get_2 a <= get_1 b \/ get_1 b + get_2 b <= get_1 a.

Fixpoint pairwise_dest_disjoint (l : list Region) : Prop :=
  match l with
  | [] => True
  | a :: l' => Forall (dest_disjoint a) l' /\ pairwise_dest_disjoint l'
  end.

(** A region of at least one byte inside a file of [size] bytes. *)
Definition region_in_file (size : Z) (r : Region) : Prop :=
  0 <= get_0 r /\ 1 <= get_2 r /\ get_0 r + get_2 r <= size.

(** The tasks of a queue run to completion one after the other, in queue
    order: their statuses and the destination memory afterwards. *)
Fixpoint run_tasks (this : VFS) (tasks : list Task) (mem : gmap Z Byte.byte)
    : option (list Status * gmap Z Byte.byte) :=
  match tasks with
  | [] => Some ([], mem)
  | task :: rest =>
      '(st, mem') ← run_task this task mem;
      '(sts, mem'') ← run_tasks this rest mem';
      Some (st :: sts, mem'')
  end.

(** A batch that lies inside a file of the given content and spans its
    regions, each of at least one byte. *)
Definition good_batch (content : list Byte.byte) (b : BatchedRead.t) : Prop :=
  0 <= BatchedRead.offset b
  /\ 1 <= BatchedRead.nbytes b
  /\ BatchedRead.offset b + BatchedRead.nbytes b <= Z.of_nat (length content)
  /\ Forall (fun r => within b r /\ 1 <= get_2 r) (BatchedRead.regions b).

(** ** Directory trees *)

(** What is found under a URI: a file of some size, or a directory with
    its entries in the order [ls] gives them. *)
#[warnings="-register-all"]
Inductive Tree : Type :=
  | TreeFile (size : Z)
  | TreeDir (children : list (URI * Tree)).

(** The bytes of all files of a tree, and the number of its directories. *)
Fixpoint tree_bytes (t : Tree) : Z :=
  match t with
  | TreeFile size => size
  | TreeDir children => foldr (fun c acc => tree_bytes c.2 + acc) 0 children
  end.

Fixpoint tree_dirs (t : Tree) : nat :=
  match t with
  | TreeFile _ => O
  | TreeDir children => S (foldr (fun c acc => tree_dirs c.2 + acc)%nat O children)
  end.

Definition forest_bytes (children : list (URI * Tree)) : Z :=
  foldr (fun c acc => tree_bytes c.2 + acc) 0 children.

Definition forest_dirs (children : list (URI * Tree)) : nat :=
  foldr (fun c acc => tree_dirs c.2 + acc)%nat O children.

(** The bytes of the files directly in a directory, and its
    subdirectories with their entries. *)
Fixpoint files_bytes (children : list (URI * Tree)) : Z :=
  match children with
  | [] => 0
  | (_, TreeFile size) :: rest => size + files_bytes rest
  | (_, TreeDir _) :: rest => files_bytes rest
  end.

Fixpoint subdirs (children : list (URI * Tree)) : list (URI * list (URI * Tree)) :=
  match children with
  | [] => []
  | (_, TreeFile _) :: rest => subdirs rest
  | (uri, TreeDir entries) :: rest => (uri, entries) :: subdirs rest
  end.

Section Describes.

Context {FS : Type}.
Variable this : VFS.
Variable B : Backends FS.
Variable fs : FS.

(** The storage holds the tree [t] at [uri], as far as [VFS::is_file],
    [VFS::file_size] and [VFS::ls] tell. *)
Fixpoint describes (uri : URI) (t : Tree) : Prop :=
  match t with
  | TreeFile size =>
      vfs_is_file this B uri fs = (Ok, Some true)
      /\ file_size this B uri fs = (Ok, Some size)
  | TreeDir children =>
      vfs_is_file this B uri fs = (Ok, Some false)
      /\ ls this B uri [] fs = (Ok, map fst children)
      /\ foldr (fun c rest => describes c.1 c.2 /\ rest) True children
  end.

(** The storage lists [children] under [uri] and holds their trees. *)
Definition lists (uri : URI) (children : list (URI * Tree)) : Prop :=
  ls this B uri [] fs = (Ok, map fst children)
  /\ foldr (fun c rest => describes c.1 c.2 /\ rest) True children.

End Describes.

(** A URI no backend of this build serves: its scheme is none of the
    three, or it is [hdfs://] or [s3://] on a build without that backend. *)
Definition unserved (this : VFS) (uri : URI) : Prop :=
  let P := platform this in
  is_file P uri = false
  /\ ((is_hdfs P uri = false /\ is_s3 P uri = false)
      \/ (is_hdfs P uri = true /\ is_s3 P uri = false /\ HAVE_HDFS P = false)
      \/ (is_hdfs P uri = false /\ is_s3 P uri = true /\ HAVE_S3 P = false)).

(** ** An example storage *)

(** Storage in memory: what is at each path, a file of some size or a
    directory.  The entries of a directory are the paths one name below
    it.  In the example all three backends work on this one storage, the
    remote ones on the string of the URI. *)
Inductive DemoEntry : Type :=
  | DemoFile (size : Z)
  | DemoDir.

Definition DemoStorage : Type := gmap string DemoEntry.

Definition demo_is_child (dir path : string) : bool :=
  let name := substring (String.length dir + 1)
                        (String.length path - String.length dir - 1) path in
  String.prefix (dir +:+ "/") path
  && negb (String.eqb name "")
  && match index 0 "/" name with None => true | Some _ => false end.

Definition demo_is_dir (path : string) (fs : DemoStorage) : bool :=
  match fs !! path with Some DemoDir => true | _ => false end.

Definition demo_is_file (path : string) (fs : DemoStorage) : bool :=
  match fs !! path with Some (DemoFile _) => true | _ => false end.

Definition demo_file_size (path : string) (fs : DemoStorage) : Status * option Z :=
  match fs !! path with
  | Some (DemoFile size) => (Ok, Some size)
  | _ => (IOError "Cannot get file size; not a file", None)
  end.

Definition demo_ls (path : string) (fs : DemoStorage) : Status * list string :=
  if demo_is_dir path fs
  then (Ok, filter (fun p => demo_is_child path p = true) (map fst (map_to_list fs)))
  else (IOError "Cannot list; not a directory", []).

Definition demo_create_dir (path : string) (fs : DemoStorage) : Status * DemoStorage :=
  match fs !! path with
  | Some _ => (IOError "Cannot create directory; path exists", fs)
  | None => (Ok, <[path := DemoDir]> fs)
  end.

Definition demo_touch (path : string) (fs : DemoStorage) : Status * DemoStorage :=
  match fs !! path with
  | Some _ => (Ok, fs)
  | None => (Ok, <[path := DemoFile 0]> fs)
  end.

Definition demo_remove_file (path : string) (fs : DemoStorage) : Status * DemoStorage :=
  if demo_is_file path fs then (Ok, delete path fs)
  else (IOError "Cannot remove file; not a file", fs).

Definition demo_remove_dir (path : string) (fs : DemoStorage) : Status * DemoStorage :=
  if demo_is_dir path fs
  then (Ok, filter (fun entry => String.prefix (path +:+ "/") entry.1 = false)
                   (delete path fs))
  else (IOError "Cannot remove directory; not a directory", fs).

Definition demo_move_path (old_path new_path : string) (fs : DemoStorage)
    : Status * DemoStorage :=
  match fs !! old_path with
  | Some (DemoFile size) => (Ok, <[new_path := DemoFile size]> (delete old_path fs))
  | _ => (IOError "Cannot move; not a file", fs)
  end.

Definition demo_write (path : string) (buffer : list Byte.byte) (buffer_size : Z)
    (fs : DemoStorage) : Status * DemoStorage :=
  match fs !! path with
  | Some (DemoFile size) => (Ok, <[path := DemoFile (size + buffer_size)]> fs)
  | Some DemoDir => (IOError "Cannot write; path is a directory", fs)
  | None => (Ok, <[path := DemoFile buffer_size]> fs)
  end.

(** A stable insertion sort of paths in the order of strings. *)
Fixpoint insert_path (p : string) (l : list string) : list string :=
  match l with
  | [] => [p]
  | x :: l' => if String.ltb p x then p :: x :: l' else x :: insert_path p l'
  end.

Definition demo_sort_paths (l : list string) : list string :=
  foldl (fun acc p => insert_path p acc) [] l.

(** The example backends, given how the local one creates and lists a
    directory and tells directories and files. *)
Definition make_demo_backends
    (create_a_dir : string -> DemoStorage -> Status * DemoStorage)
    (list_dir : string -> DemoStorage -> Status * list string)
    (is_a_dir is_a_file : string -> DemoStorage -> bool) : Backends DemoStorage := {|
  local_create_dir := create_a_dir;
  local_touch := demo_touch;
  local_remove_dir := demo_remove_dir;
  local_remove_file := demo_remove_file;
  local_file_size := demo_file_size;
  local_is_dir := is_a_dir;
  local_is_file := is_a_file;
  local_ls := list_dir;
  local_move_path := demo_move_path;
  local_sync := fun _ fs => (Ok, fs);
  local_write := demo_write;
  hdfs_create_dir := fun u => demo_create_dir (to_string u);
  hdfs_touch := fun u => demo_touch (to_string u);
  hdfs_remove_dir := fun u => demo_remove_dir (to_string u);
  hdfs_remove_file := fun u => demo_remove_file (to_string u);
  hdfs_file_size := fun u => demo_file_size (to_string u);
  hdfs_is_dir := fun u fs => (Ok, Some (demo_is_dir (to_string u) fs));
  hdfs_is_file := fun u fs => (Ok, Some (demo_is_file (to_string u) fs));
  hdfs_ls := fun u => demo_ls (to_string u);
  hdfs_move_path := fun u v => demo_move_path (to_string u) (to_string v);
  hdfs_sync := fun _ fs => (Ok, fs);
  hdfs_write := fun u => demo_write (to_string u);
  s3_touch := fun u => demo_touch (to_string u);
  s3_remove_dir := fun u => demo_remove_dir (to_string u);
  s3_remove_object := fun u => demo_remove_file (to_string u);
  s3_object_size := fun u => demo_file_size (to_string u);
  s3_is_dir := fun u fs => (Ok, Some (demo_is_dir (to_string u) fs));
  s3_is_object := fun u => demo_is_file (to_string u);
  s3_is_bucket := fun u => demo_is_dir (to_string u);
  s3_ls := fun u => demo_ls (to_string u);
  s3_move_object := fun u v => demo_move_path (to_string u) (to_string v);
  s3_move_dir := fun u v => demo_move_path (to_string u) (to_string v);
  s3_flush_object := fun _ fs => (Ok, fs);
  s3_write := fun u => demo_write (to_string u);
  s3_create_bucket := fun u => demo_create_dir (to_string u);
  s3_remove_bucket := fun u => demo_remove_dir (to_string u);
  s3_empty_bucket := fun u fs => (Ok, fs);
  s3_is_empty_bucket := fun u fs =>
    (Ok, Some (match (demo_ls (to_string u) fs).2 with [] => true | _ => false end));
  s3_disconnect := fun fs => (Ok, fs);
  sort_paths := demo_sort_paths;
  URI_of_path := mkURI
|}.

Definition demo_backends : Backends DemoStorage :=
  make_demo_backends demo_create_dir demo_ls demo_is_dir demo_is_file.

(** Backends whose every path is a directory that lists itself. *)
Definition demo_loop_backends : Backends DemoStorage :=
  make_demo_backends demo_create_dir (fun path _ => (Ok, [path]))
                     (fun _ _ => true) (fun _ _ => false).

(** Backends whose local disk is full. *)
Definition demo_full_backends : Backends DemoStorage :=
  make_demo_backends (fun _ fs => (GenericError "disk full", fs))
                     demo_ls demo_is_dir demo_is_file.

(** A directory with a file and a subdirectory with a file, and an object
    on S3. *)
Definition demo_storage : DemoStorage :=
  <["file:///data" := DemoDir]>
  (<["file:///data/a.tdb" := DemoFile 10]>
  (<["file:///data/sub" := DemoDir]>
  (<["file:///data/sub/b.tdb" := DemoFile 32]>
  (<["s3://bucket/a.tdb" := DemoFile 7]> ∅)))).

Definition demo_tree : list (URI * Tree) :=
  [ (mkURI "file:///data/a.tdb", TreeFile 10);
    (mkURI "file:///data/sub",
     TreeDir [ (mkURI "file:///data/sub/b.tdb", TreeFile 32) ]) ].

Definition demo_unknown_uri : URI := mkURI "ftp://host/array".

(** The directories waiting in [to_ls], each with its entries: the bytes
    of all their files, and the number of directories among and below
    them. *)
Definition queue_bytes (queue : list (URI * list (URI * Tree))) : Z :=
  foldr (fun d acc => forest_bytes d.2 + acc) 0 queue.

Definition queue_dirs (queue : list (URI * list (URI * Tree))) : nat :=
  foldr (fun d acc => S (forest_dirs d.2) + acc)%nat O queue.

(** An operation was refused: it answered with an error and left the
    storage as it was. *)
Definition refused {FS : Type} (fs : FS) (r : Status * FS) : Prop :=
  ok r.1 = false /\ r.2 = fs.

(** The remote backends and the size queries store their answer through
    the out-parameter whenever they answer Ok. *)
Definition backends_store_answers {FS : Type} (B : Backends FS) : Prop :=
  (forall uri fs st, hdfs_is_dir B uri fs = (st, None) -> ok st = false)
  /\ (forall uri fs st, hdfs_is_file B uri fs = (st, None) -> ok st = false)
  /\ (forall uri fs st, s3_is_dir B uri fs = (st, None) -> ok st = false)
  /\ (forall path fs st, local_file_size B path fs = (st, None) -> ok st = false)
  /\ (forall uri fs st, hdfs_file_size B uri fs = (st, None) -> ok st = false)
  /\ (forall uri fs st, s3_object_size B uri fs = (st, None) -> ok st = false).
(** * Theorems *)

(** ** Machine integers *)

Lemma wrap64_small z : is_u64 z -> wrap64 z = z.
Proof. unfold wrap64, is_u64. intros H. by apply Z.mod_small. Qed.

Lemma wrap64_range z : is_u64 (wrap64 z).
Proof. unfold wrap64, is_u64, UINT64_MOD. apply Z.mod_pos_bound. lia. Qed.

Lemma UINT64_MOD_eq : UINT64_MOD = 18446744073709551616.
Proof. reflexivity. Qed.

(** ** File locks *)

Section FileLockFacts.

Variable this : VFS.
Variable uri : URI.

Hypothesis locks_enabled :
  enable_filelocks_ (file_params_ (vfs_params_ this)) = true.

(** A lock on a URI that already has an entry only counts. *)
Lemma filelock_lock_held lock shared w count fd :
  process_filelocks_ w !! to_string uri = Some (count, fd) ->
  filelock_lock this uri lock shared w =
    (Ok, fd,
     mkWorld (<[to_string uri := (wrap64 (count + 1), fd)]> (process_filelocks_ w))
             (os_calls w)).
Proof. intros Hm. unfold filelock_lock. rewrite locks_enabled, Hm. reflexivity. Qed.

(** A lock on a local file without an entry asks the backend, and records
    the handle only when the backend succeeded. *)
Lemma filelock_lock_fresh lock shared w st fd :
  is_file (platform this) uri = true ->
  process_filelocks_ w !! to_string uri = None ->
  backend_filelock_lock (platform this) (os_calls w) (to_path (platform this) uri) shared
    = (st, fd) ->
  filelock_lock this uri lock shared w =
    (st, fd,
     mkWorld (if ok st then <[to_string uri := (1, fd)]> (process_filelocks_ w)
              else process_filelocks_ w)
             (os_calls w ++ [OsLock (to_path (platform this) uri) shared])).
Proof.
  intros Hf Hm Hb. unfold filelock_lock.
  rewrite locks_enabled, Hm, Hf. simpl. rewrite Hb.
  destruct (ok st); reflexivity.
Qed.

(** What [decr_lock_count] does to an entry with a positive count. *)
Lemma decr_lock_count_positive is_zero lock m count fd :
  m !! to_string uri = Some (count, fd) ->
  0 < count < UINT64_MOD ->
  decr_lock_count uri is_zero lock m =
    if count =? 1
    then (Ok, true, fd, delete (to_string uri) m)
    else (Ok, false, lock, <[to_string uri := (count - 1, fd)]> m).
Proof.
  intros Hm Hc. unfold decr_lock_count. rewrite Hm.
  assert (Hw : wrap64 (count - 1) = count - 1)
    by (apply wrap64_small; unfold is_u64; lia).
  rewrite Hw.
  destruct (count =? 0) eqn:E0; [lia|].
  destruct (count =? 1) eqn:E1.
  - apply Z.eqb_eq in E1. subst count. reflexivity.
  - destruct (count - 1 =? 0) eqn:E2; [lia | reflexivity].
Qed.

(** [decr_lock_count] refuses a URI without an entry or with count 0 and
    changes nothing. *)
Lemma decr_lock_count_refused is_zero lock m :
  (m !! to_string uri = None \/ exists fd, m !! to_string uri = Some (0, fd)) ->
  exists msg, decr_lock_count uri is_zero lock m = (VFSError msg, is_zero, lock, m).
Proof.
  unfold decr_lock_count. intros [-> | [fd ->]]; simpl; eauto.
Qed.

(** C2.  With file locks enabled and a [file://] URI: the first
    [filelock_lock] on the URI (no entry in the process-wide map) makes one
    backend lock call and, the backend having granted the lock with handle
    [fd], records the count 1 and [fd] under the URI; every further
    [filelock_lock] increments the count, hands back the recorded handle and
    makes no backend call; every [filelock_unlock] on an entry with a
    positive count decrements it, and the backend unlock call is made
    exactly when the count was 1, in which case the entry is erased. *)
Theorem filelock_reference_counting (lock : Z) (shared : bool) (w : World) :
  is_file (platform this) uri = true ->
  (* first lock *)
  (forall fd,
     process_filelocks_ w !! to_string uri = None ->
     backend_filelock_lock (platform this) (os_calls w)
                           (to_path (platform this) uri) shared = (Ok, fd) ->
     filelock_lock this uri lock shared w =
       (Ok, fd,
        mkWorld (<[to_string uri := (1, fd)]> (process_filelocks_ w))
                (os_calls w ++ [OsLock (to_path (platform this) uri) shared])))
  /\
  (* further locks *)
  (forall count fd,
     process_filelocks_ w !! to_string uri = Some (count, fd) ->
     filelock_lock this uri lock shared w =
       (Ok, fd,
        mkWorld (<[to_string uri := (wrap64 (count + 1), fd)]> (process_filelocks_ w))
                (os_calls w))
     /\ (0 <= count < UINT64_MOD - 1 -> wrap64 (count + 1) = count + 1))
  /\
  (* unlocks *)
  (forall count fd,
     process_filelocks_ w !! to_string uri = Some (count, fd) ->
     0 < count < UINT64_MOD ->
     filelock_unlock this uri w =
       if count =? 1
       then (backend_filelock_unlock (platform this) (os_calls w) fd,
             mkWorld (delete (to_string uri) (process_filelocks_ w))
                     (os_calls w ++ [OsUnlock fd]))
       else (Ok,
             mkWorld (<[to_string uri := (count - 1, fd)]> (process_filelocks_ w))
                     (os_calls w))).
Proof.
  intros Hf. split; [|split].
  - intros fd Hm Hb.
    rewrite (filelock_lock_fresh lock shared w Ok fd Hf Hm Hb). reflexivity.
  - intros count fd Hm. split.
    + by apply filelock_lock_held.
    + intros Hc. apply wrap64_small. unfold is_u64. lia.
  - intros count fd Hm Hc. unfold filelock_unlock.
    rewrite locks_enabled. simpl.
    rewrite (decr_lock_count_positive false INVALID_FILELOCK _ count fd Hm Hc).
    destruct (count =? 1); simpl; [rewrite Hf|]; reflexivity.
Qed.

(** C10.  With file locks enabled, [filelock_unlock] on a URI that has no
    entry in the process-wide map, or whose entry has count 0, returns an
    error status, leaves the map unchanged and makes no backend call. *)
Theorem filelock_unlock_without_lock (w : World) :
  (process_filelocks_ w !! to_string uri = None
   \/ exists fd, process_filelocks_ w !! to_string uri = Some (0, fd)) ->
  exists st w',
    filelock_unlock this uri w = (st, w')
    /\ ok st = false
    /\ process_filelocks_ w' = process_filelocks_ w
    /\ os_calls w' = os_calls w.
Proof.
  intros H. unfold filelock_unlock. rewrite locks_enabled. simpl.
  destruct (decr_lock_count_refused false INVALID_FILELOCK _ H) as [msg ->].
  simpl. eauto 10.
Qed.

End FileLockFacts.

(** The theorem at work on [demo_uri]: lock, lock again, unlock, unlock.
    The backend is called at the first lock and at the last unlock only. *)
Lemma filelock_reference_counting_witness :
  let k := to_string demo_uri in
  let w0 := mkWorld ∅ [] in
  let w1 := mkWorld (<[k := (1, 3)]> ∅) [OsLock k false] in
  let w2 := mkWorld (<[k := (2, 3)]> (<[k := (1, 3)]> ∅)) [OsLock k false] in
  filelock_lock demo_vfs demo_uri INVALID_FILELOCK false w0 = (Ok, 3, w1)
  /\ filelock_lock demo_vfs demo_uri INVALID_FILELOCK false w1 = (Ok, 3, w2)
  /\ filelock_unlock demo_vfs demo_uri w2
     = (Ok, mkWorld (<[k := (1, 3)]> (process_filelocks_ w2)) [OsLock k false])
  /\ filelock_unlock demo_vfs demo_uri w1
     = (Ok, mkWorld (delete k (process_filelocks_ w1)) [OsLock k false; OsUnlock 3]).
Proof.
  intros k w0 w1 w2.
  split; [|split; [|split]].
  - apply (filelock_reference_counting demo_vfs demo_uri eq_refl
             INVALID_FILELOCK false w0 eq_refl); reflexivity.
  - apply (proj1 (proj2 (filelock_reference_counting demo_vfs demo_uri eq_refl
             INVALID_FILELOCK false w1 eq_refl)) 1 3).
    apply lookup_insert_eq.
  - apply (proj2 (proj2 (filelock_reference_counting demo_vfs demo_uri eq_refl
             INVALID_FILELOCK false w2 eq_refl)) 2 3).
    + apply lookup_insert_eq.
    + rewrite UINT64_MOD_eq. lia.
  - apply (proj2 (proj2 (filelock_reference_counting demo_vfs demo_uri eq_refl
             INVALID_FILELOCK false w1 eq_refl)) 1 3).
    + apply lookup_insert_eq.
    + rewrite UINT64_MOD_eq. lia.
Defined.

(** The theorem at work: unlocking a URI nobody locked. *)
Lemma filelock_unlock_without_lock_witness :
  exists st w',
    filelock_unlock demo_vfs demo_uri (mkWorld ∅ []) = (st, w')
    /\ ok st = false
    /\ process_filelocks_ w' = ∅
    /\ os_calls w' = [].
Proof.
  apply (filelock_unlock_without_lock demo_vfs demo_uri eq_refl (mkWorld ∅ [])).
  left. apply lookup_empty.
Defined.

(** ** Parallel reads *)

Lemma ceil_bounds x y :
  0 <= x -> 0 < y -> x <= y * ceil x y < x + y.
Proof.
  intros Hx Hy. unfold ceil.
  destruct (y =? 0) eqn:E; [lia|].
  pose proof (Z.div_mod x y ltac:(lia)) as Hdm.
  pose proof (Z.mod_pos_bound x y Hy) as Hm.
  destruct (x mod y =? 0) eqn:E'; lia.
Qed.

Lemma ceil_positive x y : 0 < x -> 0 < y -> 0 < ceil x y.
Proof.
  intros Hx Hy. pose proof (ceil_bounds x y ltac:(lia) Hy). nia.
Qed.

Section ReadChunks.

Variables offset nbytes n t : Z.

Hypothesis offset_range : 0 <= offset /\ offset + nbytes <= UINT64_MOD.
Hypothesis nbytes_range : 1 <= nbytes /\ nbytes + n <= UINT64_MOD.
Hypothesis t_positive : 0 < t.
Hypothesis t_covers : nbytes <= n * t < nbytes + n.
Hypothesis last_begins_inside : (n - 1) * t < nbytes.

(** A chunk before the last one is a full chunk of [t] bytes. *)
Lemma read_chunk_inner i :
  0 <= i < n - 1 ->
  read_chunk offset nbytes t i =
    mkReadChunk (i * t) ((i + 1) * t - 1) t (offset + i * t).
Proof using All.
  intros Hi. unfold read_chunk.
  assert (Hle : (i + 1) * t <= (n - 1) * t) by nia.
  assert (0 <= i * t) by nia.
  rewrite !wrap64_small by (unfold is_u64; nia).
  rewrite Z.min_l by lia.
  rewrite ?wrap64_small by (unfold is_u64; nia).
  f_equal; lia.
Qed.

(** The last chunk ends at the last byte. *)
Lemma read_chunk_last :
  1 <= n ->
  read_chunk offset nbytes t (n - 1) =
    mkReadChunk ((n - 1) * t) (nbytes - 1) (nbytes - (n - 1) * t)
                (offset + (n - 1) * t).
Proof using All.
  intros Hn. unfold read_chunk.
  assert (0 <= (n - 1) * t) by nia.
  replace (n - 1 + 1) with n by lia.
  rewrite !wrap64_small by (unfold is_u64; nia).
  rewrite Z.min_r by lia.
  rewrite ?wrap64_small by (unfold is_u64; nia).
  f_equal; lia.
Qed.

Lemma chunks_tile_from (k : nat) (i : Z) :
  0 <= i -> i = n - 1 - Z.of_nat k ->
  chunks_tile (i * t) (map (read_chunk offset nbytes t) (seqZ i (Z.of_nat k + 1)))
              (nbytes - 1) = true
  /\ forallb (chunk_reads_own_range offset)
             (map (read_chunk offset nbytes t) (seqZ i (Z.of_nat k + 1))) = true.
Proof using All.
  revert i. induction k as [|k IH]; intros i Hi Hik.
  - replace i with (n - 1) by lia.
    rewrite seqZ_cons by lia. rewrite seqZ_nil by lia.
    cbn [map chunks_tile forallb].
    rewrite read_chunk_last by lia. unfold chunk_reads_own_range. simpl.
    repeat (apply andb_true_intro || split); try (apply Z.eqb_eq; lia);
      try (apply Z.leb_le; lia); reflexivity.
  - rewrite seqZ_cons by lia.
    replace (Z.pred (Z.of_nat (S k) + 1)) with (Z.of_nat k + 1) by lia.
    destruct (IH (Z.succ i) ltac:(lia) ltac:(lia)) as [IH1 IH2].
    cbn [map chunks_tile forallb].
    rewrite read_chunk_inner by lia. unfold chunk_reads_own_range at 1. simpl.
    replace ((i + 1) * t - 1 + 1) with (Z.succ i * t) by lia.
    rewrite IH1, IH2.
    repeat (apply andb_true_intro || split); try (apply Z.eqb_eq; lia);
      try (apply Z.leb_le; lia); reflexivity.
Qed.

End ReadChunks.

(** When the last chunk begins inside the read, the chunks of [VFS::read]
    tile [0, nbytes - 1]: they are contiguous, pairwise disjoint and cover
    it, and each reads its own range. *)
Lemma read_chunks_tile (this : VFS) (uri : URI) (offset nbytes : Z) :
  let n := num_ops this uri nbytes in
  1 < n ->
  1 <= nbytes ->
  0 <= offset /\ offset + nbytes <= UINT64_MOD ->
  nbytes + n <= UINT64_MOD ->
  (n - 1) * ceil nbytes n < nbytes ->
  chunks_tile 0 (read_chunks this uri offset nbytes) (nbytes - 1) = true
  /\ forallb (chunk_reads_own_range offset) (read_chunks this uri offset nbytes) = true
  /\ Z.of_nat (length (read_chunks this uri offset nbytes)) = n.
Proof.
  intros n Hn Hnb Hoff Hsum Hlast. unfold read_chunks. fold n.
  pose proof (ceil_bounds nbytes n ltac:(lia) ltac:(lia)) as Hc.
  pose proof (ceil_positive nbytes n ltac:(lia) ltac:(lia)) as Hp.
  split; [|split].
  - pose proof (chunks_tile_from offset nbytes n (ceil nbytes n)
                  Hoff ltac:(lia) Hp ltac:(lia) Hlast
                  (Z.to_nat (n - 1)) 0 ltac:(lia) ltac:(lia)) as [H _].
    replace (Z.of_nat (Z.to_nat (n - 1)) + 1) with n in H by lia.
    exact H.
  - pose proof (chunks_tile_from offset nbytes n (ceil nbytes n)
                  Hoff ltac:(lia) Hp ltac:(lia) Hlast
                  (Z.to_nat (n - 1)) 0 ltac:(lia) ltac:(lia)) as [_ H].
    replace (Z.of_nat (Z.to_nat (n - 1)) + 1) with n in H by lia.
    exact H.
  - rewrite length_map, length_seqZ. lia.
Qed.

(** C9.  A read of 5 bytes with [min_parallel_size_ = 1] and four parallel
    operations allowed takes the parallel branch with [num_ops = 4] and
    chunks of [ceil(5, 4) = 2] bytes.  The fourth chunk begins at byte 6,
    beyond the last byte 4 of the read; its end is clamped to 4, so its
    length [end - begin + 1] wraps to [2^64 - 1].  The chunks do not tile
    [0, 4]: they are not contiguous and the fourth one is no byte range of
    the read at all. *)
Theorem read_chunks_fourth_chunk_out_of_range :
  min_parallel_size_ (vfs_params_ demo_vfs) = 1
  /\ num_ops demo_vfs demo_uri 5 = 4
  /\ read_chunks demo_vfs demo_uri 100 5 =
       [ mkReadChunk 0 1 2 100;
         mkReadChunk 2 3 2 102;
         mkReadChunk 4 4 1 104;
         mkReadChunk 6 4 (UINT64_MOD - 1) 106 ]
  /\ chunks_tile 0 (read_chunks demo_vfs demo_uri 100 5) (5 - 1) = false.
Proof. vm_compute. auto. Qed.

(** ** Batched reads *)

Section Batching.

Variable this : VFS.

Lemma batch_step_merges st region :
  merges this (curr_batch st) region = true ->
  batch_step this st region =
    mkBatchLoop (extend (curr_batch st) region)
                (wrap64 (curr_batch_useful_bytes st + get_2 region))
                (batches_out st).
Proof. unfold merges, batch_step. intros ->. reflexivity. Qed.

Lemma batch_step_new st region :
  merges this (curr_batch st) region = false ->
  batch_step this st region =
    mkBatchLoop (BatchedRead.of_region region) (get_2 region)
                (batches_out st ++ [curr_batch st]).
Proof. unfold merges, batch_step. intros ->. reflexivity. Qed.

(** The loop keeps what was pushed before it started and extends a
    [batching] of the regions seen so far. *)
Lemma fold_batch_step_batching rest :
  forall st pre l bs,
    batches_out st ++ [curr_batch st] = pre ++ bs ->
    batching this l bs ->
    exists bs',
      (let st' := fold_left (batch_step this) rest st in
       batches_out st' ++ [curr_batch st'] = pre ++ bs')
      /\ batching this (l ++ rest) bs'.
Proof.
  induction rest as [|r rest IH]; intros st pre l bs Hst Hb.
  - exists bs. rewrite app_nil_r. auto.
  - assert (Hlast : exists bs0, bs = bs0 ++ [curr_batch st]
                               /\ batches_out st = pre ++ bs0).
    { destruct bs as [|b0 bs] using rev_ind.
      - inversion Hb as [ | ? ? ? ? _ _ Hl Hbs | ? ? ? ? _ _ Hl Hbs ];
          destruct bs; discriminate.
      - rewrite app_assoc in Hst. apply app_inj_tail in Hst as [-> ->]. eauto. }
    destruct Hlast as (bs0 & -> & Hout).
    simpl fold_left.
    replace (l ++ r :: rest) with ((l ++ [r]) ++ rest)
      by (rewrite <- app_assoc; reflexivity).
    destruct (merges this (curr_batch st) r) eqn:Hm.
    + rewrite (batch_step_merges _ _ Hm).
      apply (IH _ pre (l ++ [r]) (bs0 ++ [extend (curr_batch st) r])).
      * simpl. rewrite Hout, app_assoc. reflexivity.
      * by apply batching_merge.
    + rewrite (batch_step_new _ _ Hm).
      apply (IH _ pre (l ++ [r])
                (bs0 ++ [curr_batch st; BatchedRead.of_region r])).
      * simpl. rewrite Hout. rewrite <- !app_assoc. reflexivity.
      * by apply batching_new.
Qed.

(** The regions of the batches, batch after batch, are the regions that
    were batched, in the same order. *)
Lemma batching_concat l bs :
  batching this l bs -> concat (map BatchedRead.regions bs) = l.
Proof.
  induction 1 as [r | l bs b r _ IH Hm | l bs b r _ IH Hm].
  - reflexivity.
  - rewrite map_app, concat_app in *. simpl in *.
    rewrite app_nil_r in *. rewrite app_assoc, IH. reflexivity.
  - rewrite map_app, concat_app in *. simpl in *.
    rewrite app_nil_r in *. rewrite app_assoc, IH. reflexivity.
Qed.

(** Every batch holds at least one region and begins where its first
    region begins. *)
Lemma batching_first_region l bs :
  batching this l bs ->
  Forall (fun b => exists r rs, BatchedRead.regions b = r :: rs
                                /\ BatchedRead.offset b = get_0 r) bs.
Proof.
  induction 1 as [r | l bs b r _ IH Hm | l bs b r _ IH Hm].
  - repeat constructor. simpl. eauto.
  - apply Forall_app in IH as [IH1 IH2]. apply Forall_app. split; [done|].
    apply Forall_cons_1 in IH2 as [(r0 & rs & Hr & Ho) _].
    repeat constructor. exists r0, (rs ++ [r]). simpl. rewrite Hr. auto.
  - apply Forall_app in IH as [IH1 IH2]. apply Forall_app. split; [done|].
    apply Forall_cons_1 in IH2 as [Hb _].
    repeat constructor; [done|]. simpl. eauto.
Qed.

(** [compute_read_batches] on a non-empty list: it returns Ok, keeps what
    [batches] held and appends a [batching] of the sorted regions. *)
Lemma compute_read_batches_batching regions batches :
  regions <> [] ->
  sort_contract this ->
  exists bs,
    compute_read_batches this regions batches = Some (Ok, batches ++ bs)
    /\ batching this (parallel_sort (platform this) region_offset_lt regions) bs.
Proof.
  intros Hne Hsort. destruct (Hsort regions) as [Hperm _].
  unfold compute_read_batches.
  destruct (parallel_sort (platform this) region_offset_lt regions)
    as [|front rest] eqn:Hs.
  - apply Permutation_nil in Hperm. congruence.
  - destruct (fold_batch_step_batching rest
                (mkBatchLoop (BatchedRead.of_region front) (get_2 front) batches)
                batches [front] [BatchedRead.of_region front]
                eq_refl (batching_first this front)) as (bs & Hbs & Hb).
    exists bs. simpl in Hbs. rewrite Hbs. auto.
Qed.

End Batching.

Lemma insert_sorted_perm cmp r l : insert_sorted cmp r l ≡ₚ r :: l.
Proof.
  induction l as [|x l IH]; simpl; [done|].
  destruct (cmp r x); [done|]. rewrite IH. apply Permutation_swap.
Qed.

Lemma insert_sorted_sorted r l :
  StronglySorted (fun a b => get_0 a <= get_0 b) l ->
  StronglySorted (fun a b => get_0 a <= get_0 b)
                 (insert_sorted region_offset_lt r l).
Proof.
  induction 1 as [|x l Hs IH Hx]; simpl; [repeat constructor|].
  unfold region_offset_lt at 1. destruct (Z.ltb_spec (get_0 r) (get_0 x)).
  - constructor; [by constructor|]. constructor; [lia|].
    eapply Forall_impl; [exact Hx|]. simpl. intros; lia.
  - constructor; [done|]. rewrite insert_sorted_perm. by constructor.
Qed.

(** The example platform sorts as [sort_contract] asks. *)
Lemma demo_sort_contract : sort_contract demo_vfs.
Proof.
  intros l. simpl. unfold insertion_sort.
  assert (Hgen : forall acc,
            StronglySorted (fun a b => get_0 a <= get_0 b) acc ->
            foldl (fun acc r => insert_sorted region_offset_lt r acc) acc l
              ≡ₚ acc ++ l
            /\ StronglySorted (fun a b => get_0 a <= get_0 b)
                 (foldl (fun acc r => insert_sorted region_offset_lt r acc) acc l)).
  { induction l as [|r l IH]; intros acc Hacc; simpl.
    - by rewrite app_nil_r.
    - destruct (IH _ (insert_sorted_sorted r acc Hacc)) as [Hp Hs].
      split; [|done]. rewrite Hp, insert_sorted_perm.
      simpl. apply Permutation_middle. }
  destruct (Hgen [] ltac:(constructor)) as [Hp Hs]. done.
Qed.

(** Where the unsigned quantities of the test are the plain differences:
    for a region in range that begins at or after the end of the batch,
    [merges] is the criterion of the specification. *)
Lemma merges_plain this (b : BatchedRead.t) (r : Region) :
  0 <= BatchedRead.offset b -> 0 <= BatchedRead.nbytes b ->
  region_in_range r ->
  BatchedRead.offset b + BatchedRead.nbytes b <= get_0 r ->
  merges this b r = stated_merge_criterion this b r.
Proof.
  intros Ho Hn (Hr0 & Hr2 & Hr) Hend. unfold merges, stated_merge_criterion.
  rewrite !wrap64_small by (unfold is_u64; lia). reflexivity.
Qed.

(** For a region that begins before the end of the batch, at or after its
    offset, the span is the plain difference and the unsigned gap has
    wrapped to [UINT64_MOD] less the bytes by which the region begins before
    the end of the batch: the region joins the batch exactly when the span
    is at most [min_batch_size_] or [min_batch_gap_] is at least that
    wrapped value. *)
Lemma merges_overlapping this (b : BatchedRead.t) (r : Region) :
  0 <= BatchedRead.offset b <= get_0 r ->
  region_in_range r ->
  get_0 r < BatchedRead.offset b + BatchedRead.nbytes b <= UINT64_MOD ->
  merges this b r =
    ((get_0 r + get_2 r) - BatchedRead.offset b
       <=? min_batch_size_ (vfs_params_ this))
    || (UINT64_MOD - (BatchedRead.offset b + BatchedRead.nbytes b - get_0 r)
          <=? min_batch_gap_ (vfs_params_ this)).
Proof.
  intros Hr Hin Hend. unfold merges.
  destruct Hin as (Hr0 & Hr2 & Hre).
  set (d := BatchedRead.offset b + BatchedRead.nbytes b - get_0 r) in *.
  assert (Hw : wrap64 (get_0 r - (BatchedRead.offset b + BatchedRead.nbytes b))
               = UINT64_MOD - d).
  { unfold wrap64.
    replace (get_0 r - (BatchedRead.offset b + BatchedRead.nbytes b))
      with ((UINT64_MOD - d) + (-1) * UINT64_MOD) by lia.
    rewrite Z.mod_add by (unfold UINT64_MOD; lia).
    apply Z.mod_small. unfold UINT64_MOD in *. lia. }
  assert (Hs : wrap64 ((get_0 r + get_2 r) - BatchedRead.offset b)
               = (get_0 r + get_2 r) - BatchedRead.offset b).
  { unfold wrap64. apply Z.mod_small. unfold UINT64_MOD in *. lia. }
  by rewrite Hw, Hs.
Qed.

(** C3, as the code has it.  For a non-empty region list
    [compute_read_batches] returns Ok with a [batching] of the regions
    ordered by offset: each successive region joins the current batch
    exactly when [merges] holds and otherwise the current batch is emitted
    and a new one starts at that region.  The regions of the batches, batch
    after batch, are the ordered regions, so every input region is in
    exactly one batch.  [merges] tests the span and the gap as unsigned
    64-bit differences.  For a region in range that begins at or after the
    end of the batch it is the criterion of the specification.  For a region
    in range that begins before the end of the batch, at or after its
    offset, the gap has wrapped to [UINT64_MOD] less the bytes by which the
    region begins before that end: the region is merged exactly when the
    span is at most [min_batch_size_] or [min_batch_gap_] is at least that
    wrapped value. *)
Theorem compute_read_batches_coalesces (this : VFS) (regions : list Region) :
  regions <> [] ->
  sort_contract this ->
  exists sorted bs,
    compute_read_batches this regions [] = Some (Ok, bs)
    /\ sorted ≡ₚ regions
    /\ StronglySorted (fun a b => get_0 a <= get_0 b) sorted
    /\ batching this sorted bs
    /\ concat (map BatchedRead.regions bs) = sorted
    /\ concat (map BatchedRead.regions bs) ≡ₚ regions
    /\ (forall b r,
          0 <= BatchedRead.offset b -> 0 <= BatchedRead.nbytes b ->
          region_in_range r ->
          BatchedRead.offset b + BatchedRead.nbytes b <= get_0 r ->
          merges this b r = stated_merge_criterion this b r)
    /\ (forall b r,
          0 <= BatchedRead.offset b <= get_0 r ->
          region_in_range r ->
          get_0 r < BatchedRead.offset b + BatchedRead.nbytes b <= UINT64_MOD ->
          merges this b r =
            ((get_0 r + get_2 r) - BatchedRead.offset b
               <=? min_batch_size_ (vfs_params_ this))
            || (UINT64_MOD
                  - (BatchedRead.offset b + BatchedRead.nbytes b - get_0 r)
                  <=? min_batch_gap_ (vfs_params_ this))).
Proof.
  intros Hne Hsort.
  destruct (compute_read_batches_batching this regions [] Hne Hsort)
    as (bs & Hc & Hb).
  destruct (Hsort regions) as [Hperm Hsorted].
  exists (parallel_sort (platform this) region_offset_lt regions), bs.
  pose proof (batching_concat this _ _ Hb) as Hcat.
  split; [exact Hc|]. split; [exact Hperm|]. split; [exact Hsorted|].
  split; [exact Hb|]. split; [exact Hcat|]. split; [by rewrite Hcat|].
  split; [apply merges_plain | apply merges_overlapping].
Qed.

(** The theorem at work on four regions given out of order, and its last
    part on a region that begins inside the batch. *)
Lemma compute_read_batches_coalesces_witness :
  exists sorted bs,
    compute_read_batches demo_vfs
      [(200, 1000, 10); (0, 2000, 10); (12, 3000, 4); (100, 4000, 8)] []
      = Some (Ok, bs)
    /\ sorted ≡ₚ [(200, 1000, 10); (0, 2000, 10); (12, 3000, 4); (100, 4000, 8)]
    /\ batching demo_vfs sorted bs
    /\ concat (map BatchedRead.regions bs) = sorted
    /\ merges demo_vfs (BatchedRead.of_region (0, 1000, 100)) (50, 2000, 100)
       = (150 <=? 64) || (UINT64_MOD - 50 <=? 4).
Proof.
  destruct (compute_read_batches_coalesces demo_vfs
              [(200, 1000, 10); (0, 2000, 10); (12, 3000, 4); (100, 4000, 8)]
              ltac:(discriminate) demo_sort_contract)
    as (sorted & bs & H1 & H2 & _ & H4 & H5 & _ & _ & H8).
  exists sorted, bs.
  split; [exact H1|]. split; [exact H2|]. split; [exact H4|].
  split; [exact H5|].
  apply (H8 (BatchedRead.of_region (0, 1000, 100)) (50, 2000, 100));
    vm_compute; repeat split; congruence.
Defined.

(** C3 as stated fails on regions that overlap.  The second region begins
    inside the first: the merged span 150 exceeds [min_batch_size_ = 64],
    the gap between the batch's end 100 and the region's offset 50 is no
    more than [min_batch_gap_ = 4] (there is none), so the stated criterion
    holds; the code computes the gap as [50 - 100] in unsigned 64-bit
    arithmetic, finds it huge and emits two batches. *)
Lemma compute_read_batches_overlapping_not_merged :
  stated_merge_criterion demo_vfs (BatchedRead.of_region (0, 1000, 100))
                         (50, 2000, 100) = true
  /\ merges demo_vfs (BatchedRead.of_region (0, 1000, 100)) (50, 2000, 100) = false
  /\ compute_read_batches demo_vfs [(0, 1000, 100); (50, 2000, 100)] []
     = Some (Ok, [BatchedRead.of_region (0, 1000, 100);
                  BatchedRead.of_region (50, 2000, 100)]).
Proof. vm_compute. auto. Qed.

(** ** Batches and the bytes of their regions *)

Lemma overlap_sym a b : overlap a b = overlap b a.
Proof. unfold overlap. by rewrite Z.max_comm, Z.min_comm. Qed.

Lemma pairwise_non_overlapping_perm l l' :
  l ≡ₚ l' -> pairwise_non_overlapping l -> pairwise_non_overlapping l'.
Proof.
  induction 1 as [|x l l' Hp IH|x y l|l l' l'' _ IH1 _ IH2]; simpl.
  - done.
  - intros [Hx Hl]. split; [by rewrite <- Hp | auto].
  - intros [Hy [Hx Hl]]. apply Forall_cons_1 in Hy as [Hyx Hy].
    repeat split; try done. constructor; [|done]. by rewrite overlap_sym.
  - auto.
Qed.

(** Non-empty regions ordered by offset that share no byte follow one
    another: each ends where or before the next ones begin. *)
Lemma sorted_disjoint_chain (s : list Region) :
  StronglySorted (fun a b => get_0 a <= get_0 b) s ->
  Forall (fun r => 1 <= get_2 r) s ->
  pairwise_non_overlapping s ->
  StronglySorted (fun a b => get_0 a + get_2 a <= get_0 b) s.
Proof.
  induction 1 as [|a s Hs IH Ha]; intros Hne Hd; [constructor|].
  apply Forall_cons_1 in Hne as [Hna Hne]. destruct Hd as [Hda Hd].
  constructor; [auto|].
  apply Forall_forall. intros b Hb.
  rewrite Forall_forall in Ha, Hda, Hne.
  specialize (Ha b Hb). specialize (Hda b Hb). specialize (Hne b Hb).
  unfold overlap in Hda. apply Z.ltb_ge in Hda. lia.
Qed.

Section Containment.

Variable this : VFS.

(** The invariant of batching a chain of regions: every batch spans its
    regions, and the current batch ends where the last region ends. *)
Lemma batching_spans l bs :
  batching this l bs ->
  Forall region_in_range l ->
  StronglySorted (fun a b => get_0 a + get_2 a <= get_0 b) l ->
  Forall batch_spans bs
  /\ (forall bs0 b, bs = bs0 ++ [b] ->
      exists l0 r, l = l0 ++ [r]
        /\ BatchedRead.offset b + BatchedRead.nbytes b = get_0 r + get_2 r
        /\ BatchedRead.offset b <= get_0 r).
Proof.
  induction 1 as [r | l bs b r Hb IH Hm | l bs b r Hb IH Hm]; intros Hr Hc.
  - apply Forall_cons_1 in Hr as [(Hr0 & Hr2 & Hr) _]. split.
    + repeat constructor; simpl; lia.
    + intros bs0 b Hbs. destruct bs0 as [|? [|? ?]]; try discriminate.
      injection Hbs as <-. exists [], r. simpl. repeat split; lia.
  - apply Forall_app in Hr as [Hrl Hrr].
    apply Forall_cons_1 in Hrr as [(Hr0 & Hr2 & Hr) _].
    apply StronglySorted_app in Hc as (Hlr & Hcl & _).
    destruct (IH Hrl Hcl) as [IHw IHlast].
    destruct (IHlast bs b eq_refl) as (l0 & r' & -> & Hend & Ho).
    assert (Hr'r : get_0 r' + get_2 r' <= get_0 r).
    { apply Hlr; [|by apply list_elem_of_singleton].
      apply elem_of_app. right. by apply list_elem_of_singleton. }
    assert (Hn' : 0 <= get_2 r').
    { apply Forall_app in Hrl as [_ Hrl].
      apply Forall_cons_1 in Hrl as [(_ & H2 & _) _]. exact H2. }
    apply Forall_app in IHw as [IHw1 IHw2].
    apply Forall_cons_1 in IHw2 as [(Hb0 & Hbe & IHb) _].
    assert (Hw : wrap64 (get_0 r + get_2 r - BatchedRead.offset b)
                 = get_0 r + get_2 r - BatchedRead.offset b)
      by (apply wrap64_small; unfold is_u64; lia).
    split.
    + apply Forall_app. split; [done|]. repeat constructor.
      * simpl. lia.
      * simpl. rewrite Hw. lia.
      * unfold extend. simpl. rewrite Hw. apply Forall_app. split.
        -- eapply Forall_impl; [exact IHb|]. unfold within. simpl.
           intros x Hx. lia.
        -- repeat constructor; simpl; lia.
    + intros bs0 b' Hbs. apply app_inj_tail in Hbs as [_ <-].
      exists (l0 ++ [r']), r. unfold extend. simpl. rewrite Hw.
      repeat split; lia.
  - apply Forall_app in Hr as [Hrl Hrr].
    apply Forall_cons_1 in Hrr as [(Hr0 & Hr2 & Hr) _].
    apply StronglySorted_app in Hc as (Hlr & Hcl & _).
    destruct (IH Hrl Hcl) as [IHw IHlast]. split.
    + replace (bs ++ [b; BatchedRead.of_region r])
        with ((bs ++ [b]) ++ [BatchedRead.of_region r])
        by (rewrite <- app_assoc; reflexivity).
      apply Forall_app. split; [done|].
      repeat constructor; simpl; lia.
    + intros bs0 b' Hbs.
      replace (bs ++ [b; BatchedRead.of_region r])
        with ((bs ++ [b]) ++ [BatchedRead.of_region r]) in Hbs
        by (rewrite <- app_assoc; reflexivity).
      apply app_inj_tail in Hbs as [_ <-].
      exists l, r. simpl. repeat split; lia.
Qed.

(** Copying out the regions of a batch that spans them stays inside a
    buffer of the batch's size. *)
Lemma scatter_in_bounds (b : BatchedRead.t) (buffer : list Byte.byte)
    (rs : list Region) (mem : gmap Z Byte.byte) :
  Z.of_nat (length buffer) = BatchedRead.nbytes b ->
  0 <= BatchedRead.offset b ->
  BatchedRead.offset b + BatchedRead.nbytes b < UINT64_MOD ->
  Forall (fun r => within b r /\ 0 <= get_2 r) rs ->
  is_Some (scatter (BatchedRead.offset b) buffer rs mem).
Proof.
  intros Hlen Ho Hend Hw. revert mem.
  induction rs as [|r rs IH]; intros mem; simpl; [eauto|].
  apply Forall_cons_1 in Hw as [[[Hr1 Hr2] Hrn] Hw].
  rewrite wrap64_small by (unfold is_u64; lia).
  unfold buffer_slice. rewrite decide_True by lia. simpl. auto.
Qed.

End Containment.

(** C8, for regions that hold at least one byte.  For every list of
    regions in range (offsets, sizes and ends are unsigned 64-bit numbers)
    that each hold at least one byte and pairwise share no byte, every
    batch of [compute_read_batches] spans each of its regions: the region
    begins at or after the batch's offset and ends at or before the
    batch's end.  Hence the copy loop of [read_all], run on a buffer of
    the batch's size, never reads outside the buffer. *)
Theorem batches_span_their_regions (this : VFS) (regions : list Region) :
  regions <> [] ->
  sort_contract this ->
  Forall region_in_range regions ->
  Forall (fun r => 1 <= get_2 r) regions ->
  pairwise_non_overlapping regions ->
  exists bs,
    compute_read_batches this regions [] = Some (Ok, bs)
    /\ Forall (fun b => Forall (within b) (BatchedRead.regions b)) bs
    /\ Forall (fun b => forall buffer mem,
                 Z.of_nat (length buffer) = BatchedRead.nbytes b ->
                 is_Some (scatter (BatchedRead.offset b) buffer
                                  (BatchedRead.regions b) mem)) bs.
Proof.
  intros Hne Hsort Hr Hn Hd.
  destruct (compute_read_batches_batching this regions [] Hne Hsort)
    as (bs & Hc & Hb).
  destruct (Hsort regions) as [Hperm Hsorted].
  set (s := parallel_sort (platform this) region_offset_lt regions) in *.
  assert (Hrs : Forall region_in_range s) by (by rewrite Hperm).
  assert (Hns : Forall (fun r => 1 <= get_2 r) s) by (by rewrite Hperm).
  assert (Hds : pairwise_non_overlapping s)
    by (eapply pairwise_non_overlapping_perm; [symmetry; exact Hperm | exact Hd]).
  pose proof (sorted_disjoint_chain s Hsorted Hns Hds) as Hchain.
  destruct (batching_spans this s bs Hb Hrs Hchain) as [Hw _].
  exists bs. split; [exact Hc|]. split.
  - eapply Forall_impl; [exact Hw|]. intros b (_ & _ & Hb').
    eapply Forall_impl; [exact Hb'|]. by intros r [? _].
  - eapply Forall_impl; [exact Hw|]. intros b (Ho & He & Hb') buffer mem Hlen.
    by apply scatter_in_bounds.
Qed.

(** The theorem at work on four regions given out of order. *)
Lemma batches_span_their_regions_witness :
  exists bs,
    compute_read_batches demo_vfs
      [(200, 1000, 10); (0, 2000, 10); (12, 3000, 4); (100, 4000, 8)] []
      = Some (Ok, bs)
    /\ Forall (fun b => Forall (within b) (BatchedRead.regions b)) bs.
Proof.
  destruct (batches_span_their_regions demo_vfs
              [(200, 1000, 10); (0, 2000, 10); (12, 3000, 4); (100, 4000, 8)])
    as (bs & H1 & H2 & _).
  - discriminate.
  - exact demo_sort_contract.
  - repeat constructor; vm_compute; congruence.
  - repeat constructor; vm_compute; congruence.
  - simpl. repeat split; repeat constructor.
  - exists bs. auto.
Defined.

(** C8 as stated fails when a region holds no byte.  The regions
    (offset 0, 10 bytes) and (offset 5, 0 bytes) share no byte.  Sorted by
    offset the empty one comes second; the merged span is [5 - 0 = 5], at
    most [min_batch_size_], so it joins the batch and the batch's size
    becomes 5: the first region, bytes 0 to 9, no longer lies within the
    batch, and copying it out of a buffer of 5 bytes reads past its end.
    Likewise for the regions (offset 5, 10 bytes) and (offset 5, 0 bytes),
    of which the second ends where the first begins, when the sort leaves
    them in the order given: the batch's size becomes 0. *)
Lemma batch_shrinks_below_its_region :
  (pairwise_non_overlapping [(0, 1000, 10); (5, 2000, 0)]
   /\ Forall region_in_range [(0, 1000, 10); (5, 2000, 0)]
   /\ compute_read_batches demo_vfs [(0, 1000, 10); (5, 2000, 0)] []
      = Some (Ok, [BatchedRead.mk 0 5 [(0, 1000, 10); (5, 2000, 0)]])
   /\ ~ within (BatchedRead.mk 0 5 [(0, 1000, 10); (5, 2000, 0)]) (0, 1000, 10)
   /\ scatter 0 (replicate 5 Byte.x00) [(0, 1000, 10); (5, 2000, 0)] ∅ = None)
  /\
  (pairwise_non_overlapping [(5, 1000, 10); (5, 2000, 0)]
   /\ get_0 (5, 2000, 0) + get_2 (5, 2000, 0) <= get_0 (5, 1000, 10)
   /\ compute_read_batches demo_vfs [(5, 1000, 10); (5, 2000, 0)] []
      = Some (Ok, [BatchedRead.mk 5 0 [(5, 1000, 10); (5, 2000, 0)]])
   /\ ~ within (BatchedRead.mk 5 0 [(5, 1000, 10); (5, 2000, 0)]) (5, 1000, 10)
   /\ scatter 5 [] [(5, 1000, 10); (5, 2000, 0)] ∅ = None).
Proof.
  split; (split; [|split; [|split; [|split]]]).
  - simpl. repeat split; repeat constructor.
  - repeat constructor; vm_compute; congruence.
  - vm_compute. reflexivity.
  - unfold within. simpl. lia.
  - vm_compute. reflexivity.
  - simpl. repeat split; repeat constructor.
  - vm_compute. congruence.
  - vm_compute. reflexivity.
  - unfold within. simpl. lia.
  - vm_compute. reflexivity.
Qed.

(** The first of these does not depend on how the sort orders regions of
    equal offset: whatever sort obeys [sort_contract], and whenever
    [min_batch_size_] is at least 5, the batch comes out 5 bytes long. *)
Lemma batch_shrinks_for_any_sort (this : VFS) :
  sort_contract this ->
  5 <= min_batch_size_ (vfs_params_ this) ->
  compute_read_batches this [(0, 1000, 10); (5, 2000, 0)] []
    = Some (Ok, [BatchedRead.mk 0 5 [(0, 1000, 10); (5, 2000, 0)]]).
Proof.
  intros Hsort Hmin. unfold compute_read_batches.
  destruct (Hsort [(0, 1000, 10); (5, 2000, 0)]) as [Hperm Hsorted].
  symmetry in Hperm. apply Permutation_length_2_inv in Hperm as [-> | Heq].
  - assert (Hspan : (5 <=? min_batch_size_ (vfs_params_ this)) = true)
      by (apply Z.leb_le; lia).
    simpl. unfold batch_step. simpl.
    match goal with
    | |- context [ (?a <=? min_batch_size_ _) || _ ] =>
        change a with 5
    end.
    rewrite Hspan. reflexivity.
  - rewrite Heq in Hsorted. apply StronglySorted_cons in Hsorted as [Hle _].
    apply Forall_cons_1 in Hle as [Hle _]. vm_compute in Hle. done.
Qed.

(** ** The tasks of [read_all] *)

Lemma store_bytes_lookup (data : list Byte.byte) :
  forall (mem : gmap Z Byte.byte) (dest a : Z),
    store_bytes mem dest data !! a =
      if decide (dest <= a < dest + Z.of_nat (length data))
      then data !! Z.to_nat (a - dest)
      else mem !! a.
Proof.
  induction data as [|b data IH]; intros mem dest a; simpl store_bytes.
  - rewrite decide_False by (simpl; lia). reflexivity.
  - rewrite IH. simpl length.
    destruct (decide (dest + 1 <= a < dest + 1 + Z.of_nat (length data))) as [Hin|Hout].
    + rewrite decide_True by lia.
      replace (Z.to_nat (a - dest)) with (S (Z.to_nat (a - (dest + 1)))) by lia.
      reflexivity.
    + destruct (decide (a = dest)) as [->|Hne].
      * rewrite decide_True by lia. rewrite lookup_insert_eq.
        replace (dest - dest) with 0 by lia. reflexivity.
      * rewrite decide_False by lia. by rewrite lookup_insert_ne.
Qed.

Lemma buffer_slice_Some buffer pos n data :
  buffer_slice buffer pos n = Some data ->
  Z.of_nat (length data) = n
  /\ forall j, 0 <= j < n -> data !! Z.to_nat j = buffer !! Z.to_nat (pos + j).
Proof.
  unfold buffer_slice. case_decide as H; [|done]. intros [= <-]. split.
  - rewrite length_take, length_drop. lia.
  - intros j Hj. rewrite lookup_take_lt by lia. rewrite lookup_drop.
    f_equal. lia.
Qed.

Lemma scatter_copied batch_offset buffer rs :
  forall mem mem',
    scatter batch_offset buffer rs mem = Some mem' ->
    copied batch_offset buffer rs mem mem'.
Proof.
  induction rs as [|r rs IH]; intros mem mem' Hs; simpl in Hs.
  - injection Hs as <-. split; [done|].
    intros [|? ?] ? ? ? ?; discriminate.
  - destruct (buffer_slice buffer (wrap64 (get_0 r - batch_offset)) (get_2 r))
      as [data|] eqn:Hd; [|done].
    simpl in Hs. destruct (buffer_slice_Some _ _ _ _ Hd) as [Hlen Hdata].
    destruct (IH _ _ Hs) as [Hframe Hcopy]. split.
    + intros a Ha. rewrite Hframe by (intros r' Hr'; apply Ha; by right).
      rewrite store_bytes_lookup. rewrite decide_False; [done|].
      rewrite Hlen. apply (Ha r). by left.
    + intros pre r0 post j Hrs Hj Hlater. destruct pre as [|p pre].
      * simpl in Hrs. injection Hrs as <- <-.
        rewrite Hframe by exact Hlater.
        rewrite store_bytes_lookup, decide_True by lia.
        replace (get_1 r + j - get_1 r) with j by lia. by apply Hdata.
      * simpl in Hrs. injection Hrs as <- ->. by eapply Hcopy.
Qed.

Lemma enqueue_batches_map uri batches :
  forall thread_pool tasks,
    enqueue_batches uri batches thread_pool tasks =
      (thread_pool ++ map (mkTask uri) batches, tasks ++ map (mkTask uri) batches).
Proof.
  induction batches as [|b bs IH]; intros thread_pool tasks; simpl.
  - by rewrite !app_nil_r.
  - rewrite IH, <- !app_assoc. reflexivity.
Qed.

(** C7.  With an empty region list [read_all] returns Ok and enqueues
    nothing.  With a non-empty one it enqueues on the caller's pool, and
    pushes onto [tasks], exactly one task per batch of
    [compute_read_batches], in order.  A task that ends with Ok has read
    [nbytes] bytes from the batch's offset into one buffer of that size
    and copied, for every region of the batch, the region's [nbytes] bytes
    from buffer position (region offset minus batch offset) to the
    region's destination; a task that ends with an error has left the
    destinations alone. *)
Theorem read_all_one_task_per_batch (this : VFS) (uri : URI)
    (regions : list Region) (thread_pool tasks : list Task) :
  sort_contract this ->
  (regions = [] -> read_all this uri regions thread_pool tasks
                   = Some (Ok, thread_pool, tasks))
  /\ (regions <> [] ->
      exists bs,
        compute_read_batches this regions [] = Some (Ok, bs)
        /\ read_all this uri regions thread_pool tasks
           = Some (Ok, thread_pool ++ map (mkTask uri) bs,
                   tasks ++ map (mkTask uri) bs)
        /\ length (map (mkTask uri) bs) = length bs)
  /\ (forall batch mem st mem',
        run_task this (mkTask uri batch) mem = Some (st, mem') ->
        if ok st then
          exists buffer,
            read this uri (BatchedRead.offset batch)
                 (replicate (Z.to_nat (BatchedRead.nbytes batch)) Byte.x00)
                 (BatchedRead.nbytes batch) = Some (Ok, buffer)
            /\ scatter (BatchedRead.offset batch) buffer
                       (BatchedRead.regions batch) mem = Some mem'
            /\ copied (BatchedRead.offset batch) buffer
                      (BatchedRead.regions batch) mem mem'
        else mem' = mem).
Proof.
  intros Hsort. split; [|split].
  - intros ->. reflexivity.
  - intros Hne.
    destruct (compute_read_batches_batching this regions [] Hne Hsort)
      as (bs & Hc & _).
    exists bs. split; [exact Hc|]. split; [|apply length_map].
    unfold read_all. destruct regions as [|r rs]; [done|].
    rewrite Hc. simpl. rewrite enqueue_batches_map. reflexivity.
  - intros batch mem st mem'. unfold run_task. simpl.
    destruct (ok (buffer_realloc (platform this) (BatchedRead.nbytes batch))) eqn:Ha;
      simpl.
    2:{ intros [= <- <-]. by rewrite Ha. }
    destruct (read this uri (BatchedRead.offset batch) _ (BatchedRead.nbytes batch))
      as [[st1 buffer]|] eqn:Hread; simpl; [|done].
    destruct (ok st1) eqn:Hok; simpl.
    2:{ intros [= <- <-]. by rewrite Hok. }
    destruct (scatter (BatchedRead.offset batch) buffer
                      (BatchedRead.regions batch) mem) as [m|] eqn:Hsc;
      simpl; [|done].
    intros [= <- <-]. simpl. exists buffer.
    destruct st1; try discriminate.
    split; [done|]. split; [done|]. by apply scatter_copied.
Qed.

(** The theorem at work: no region, then four regions that make three
    batches; the task of the first batch brings byte 13 of the file to
    the second byte of the destination of the region at offset 12. *)
Lemma read_all_one_task_per_batch_witness :
  read_all demo_vfs demo_uri [] [] [] = Some (Ok, [], [])
  /\ (exists bs,
        compute_read_batches demo_vfs
          [(200, 1000, 10); (0, 2000, 10); (12, 3000, 4); (100, 4000, 8)] []
          = Some (Ok, bs)
        /\ read_all demo_vfs demo_uri
             [(200, 1000, 10); (0, 2000, 10); (12, 3000, 4); (100, 4000, 8)] [] []
           = Some (Ok, map (mkTask demo_uri) bs, map (mkTask demo_uri) bs))
  /\ (exists mem',
        run_task demo_vfs
          (mkTask demo_uri (BatchedRead.mk 0 16 [(0, 2000, 10); (12, 3000, 4)])) ∅
          = Some (Ok, mem')
        /\ mem' !! 3001 = Some (demo_file_byte 13)
        /\ mem' !! 5000 = None).
Proof.
  split; [|split].
  - by apply (read_all_one_task_per_batch demo_vfs demo_uri [] [] []
                demo_sort_contract).
  - destruct (proj1 (proj2 (read_all_one_task_per_batch demo_vfs demo_uri
                [(200, 1000, 10); (0, 2000, 10); (12, 3000, 4); (100, 4000, 8)]
                [] [] demo_sort_contract)) ltac:(discriminate))
      as (bs & Hc & Hr & _).
    exists bs. auto.
  - assert (Hrun : exists mem',
               run_task demo_vfs
                 (mkTask demo_uri
                    (BatchedRead.mk 0 16 [(0, 2000, 10); (12, 3000, 4)])) ∅
               = Some (Ok, mem'))
      by (vm_compute; eauto).
    destruct Hrun as [mem' Hrun]. exists mem'. split; [exact Hrun|].
    pose proof (proj2 (proj2 (read_all_one_task_per_batch demo_vfs demo_uri
                  [] [] [] demo_sort_contract)) _ _ _ _ Hrun) as H.
    simpl in H. destruct H as (buffer & Hread & _ & Hframe & Hcopy).
    vm_compute in Hread. injection Hread as <-. split.
    + apply (Hcopy [(0, 2000, 10)] (12, 3000, 4) [] 1 eq_refl).
      * cbv [get_2]. simpl. lia.
      * intros r' Hr'. by apply elem_of_nil in Hr'.
    + rewrite Hframe; [apply lookup_empty|].
      intros r Hr. unfold in_dest.
      apply elem_of_cons in Hr as [->|Hr]; [cbv [get_1 get_2]; simpl; lia|].
      apply list_elem_of_singleton in Hr as ->. cbv [get_1 get_2]. simpl. lia.
Defined.

(** * The subarray partitioner *)

(** ** Splitting points *)

Section SplittingPoint.

Context {T : Type} {ops : DomainOps T}.

(** The running choice of [choose_splitting_dim] is always one of the
    indexed ranges seen so far, and stays once made. *)
Lemma choose_fold_elem (l : list (nat * Range T)) :
  forall best dr,
    foldl (fun best dr =>
             match best with
             | None => Some dr
             | Some (_, rb) =>
                 if splittable_points rb <? splittable_points dr.2
                 then Some dr else best
             end) best l = Some dr ->
    best = Some dr \/ dr ∈ l.
Proof.
  induction l as [|x l IH]; intros best dr; simpl.
  - auto.
  - intros Hf. apply IH in Hf as [Hb | Hin]; [|right; by right].
    destruct best as [[d rb]|].
    + destruct (splittable_points rb <? splittable_points x.2).
      * injection Hb as <-. right. by left.
      * by left.
    + injection Hb as <-. right. by left.
Qed.

Lemma indexed_single_ranges_elem (range : Subarray T) d r :
  (d, r) ∈ indexed_single_ranges range ->
  exists rs, dims range !! d = Some (r :: rs).
Proof.
  unfold indexed_single_ranges. intros Hin.
  apply list_elem_of_omap in Hin as ([d' rs] & Hin & Hr). simpl in Hr.
  destruct rs as [|r0 rs]; [discriminate|].
  apply list_elem_of_lookup in Hin as [i Hi].
  apply lookup_zip_with_Some in Hi as (a & b & Heq & Ha & Hb).
  apply lookup_seq in Ha as [-> _]. simpl in *. simplify_eq. eauto.
Qed.

(** The chosen dimension holds the chosen range at its head. *)
Lemma choose_splitting_dim_range (range : Subarray T) d r :
  choose_splitting_dim range = Some (d, r) ->
  exists rs, dims range !! d = Some (r :: rs).
Proof.
  unfold choose_splitting_dim. intros Hc.
  apply choose_fold_elem in Hc as [Hc | Hin]; [discriminate|].
  by apply indexed_single_ranges_elem.
Qed.

Lemma compute_splitting_point_single_range_chosen (range : Subarray T) d r :
  choose_splitting_dim range = Some (d, r) ->
  compute_splitting_point_single_range range
    = (d, Some (midpoint (lo r) (hi r)), range_unsplittable r).
Proof. unfold compute_splitting_point_single_range. by intros ->. Qed.

End SplittingPoint.

(** On integers the division of C++ and the floor division agree for a
    range that is not inverted, and the splitting point lies in the range,
    below its upper end when the range has more than one point. *)
Lemma integer_midpoint (l h : Z) :
  l <= h ->
  midpoint l h = l + (h - l) / 2
  /\ l <= midpoint l h <= h
  /\ (l < h -> midpoint l h < h).
Proof.
  intros Hlh. simpl. rewrite Z.quot_div_nonneg by lia.
  pose proof (Z.div_mod (h - l) 2 ltac:(lia)).
  pose proof (Z.mod_pos_bound (h - l) 2 ltac:(lia)). lia.
Qed.

(** C6.  For every subarray handed to
    [compute_splitting_point_single_range], let [lo, hi] be the range of
    the chosen dimension (the head of that dimension's ranges).  When the
    coordinates are integers the splitting point is [lo + (hi - lo) / 2].
    When they are 64-bit floats it is [lo / 2 + hi / 2], each operation
    rounded, and if that point equals [lo] with its successor equal to
    [hi], or equals [hi] with its predecessor equal to [lo], the function
    sets [unsplittable]. *)
Theorem splitting_point_single_range :
  (forall (range : Subarray Z) d r,
     choose_splitting_dim range = Some (d, r) ->
     (exists rs, dims range !! d = Some (r :: rs))
     /\ compute_splitting_point_single_range range
        = (d, Some (lo r + (hi r - lo r) ÷ 2), range_unsplittable r)
     /\ (lo r <= hi r -> lo r + (hi r - lo r) ÷ 2 = lo r + (hi r - lo r) / 2))
  /\
  (forall (range : Subarray float64) d r,
     choose_splitting_dim range = Some (d, r) ->
     let half x := SFdiv f64_prec f64_emax x f64_two in
     let splitting_point := SFadd f64_prec f64_emax (half (lo r)) (half (hi r)) in
     (exists rs, dims range !! d = Some (r :: rs))
     /\ compute_splitting_point_single_range range
        = (d, Some splitting_point, range_unsplittable r)
     /\ ((t_eqb splitting_point (lo r) = true
          /\ t_eqb (SFsucc f64_prec f64_emax splitting_point) (hi r) = true)
         \/ (t_eqb splitting_point (hi r) = true
             /\ t_eqb (SFpred f64_prec f64_emax splitting_point) (lo r) = true) ->
         range_unsplittable r = true)).
Proof.
  split.
  - intros range d r Hc. split; [by eapply choose_splitting_dim_range|].
    split; [by rewrite (compute_splitting_point_single_range_chosen _ _ _ Hc)|].
    intros Hlh. exact (proj1 (integer_midpoint (lo r) (hi r) Hlh)).
  - intros range d r Hc half splitting_point.
    split; [by eapply choose_splitting_dim_range|].
    split; [by rewrite (compute_splitting_point_single_range_chosen _ _ _ Hc)|].
    intros Hex.
    change (negb (splittable r)
            || (true
                && ((t_eqb splitting_point (lo r)
                     && t_eqb (SFsucc f64_prec f64_emax splitting_point) (hi r))
                    || (t_eqb splitting_point (hi r)
                        && t_eqb (SFpred f64_prec f64_emax splitting_point) (lo r))))
            = true).
    destruct Hex as [[-> ->] | [-> ->]]; simpl; by rewrite ?orb_true_r.
Qed.

(** The theorem at work: the 2D integer range [1, 100] x [1, 50] is split
    on dimension 0 at 50; the float range [0, 1] at 0.5; the float range
    from 1 to its successor cannot be split. *)
Lemma splitting_point_single_range_witness :
  compute_splitting_point_single_range
    (mkSubarray [[mkRange 1 100]; [mkRange 1 50]] ROW_MAJOR)
    = (0%nat, Some 50, false)
  /\ compute_splitting_point_single_range
       (mkSubarray [[mkRange (S754_zero false)
                             (S754_finite false 4503599627370496 (-52))]]
                   ROW_MAJOR)
     = (0%nat, Some (S754_finite false 4503599627370496 (-53)), false)
  /\ range_unsplittable
       (mkRange (S754_finite false 4503599627370496 (-52))
                (S754_finite false 4503599627370497 (-52))) = true.
Proof.
  destruct splitting_point_single_range as [HZ HF].
  split; [|split].
  - destruct (HZ (mkSubarray [[mkRange 1 100]; [mkRange 1 50]] ROW_MAJOR)
                0%nat (mkRange 1 100) eq_refl) as (_ & Hq & _).
    refine (eq_trans Hq _). reflexivity.
  - destruct (HF (mkSubarray [[mkRange (S754_zero false)
                                       (S754_finite false 4503599627370496 (-52))]]
                             ROW_MAJOR)
                0%nat _ eq_refl) as (_ & Hq & _).
    refine (eq_trans Hq _). vm_compute. reflexivity.
  - destruct (HF (mkSubarray [[mkRange (S754_finite false 4503599627370496 (-52))
                                       (S754_finite false 4503599627370497 (-52))]]
                             ROW_MAJOR)
                0%nat _ eq_refl) as (_ & _ & Hu).
    apply Hu. left. vm_compute. auto.
Defined.

(** ** After [done()] *)

Section Done.

Context {T : Type} {ops : DomainOps T}.
Variable eng : Engine T.

Lemma next_done (p : SubarrayPartitioner T) :
  done p = true -> next eng p = Some (Ok, p, false).
Proof. unfold next. by intros ->. Qed.

Lemma split_current_done (p : SubarrayPartitioner T) :
  done p = true -> split_current eng p = (Ok, p, true).
Proof. unfold split_current. by intros ->. Qed.

(** The budget setters touch neither the state nor the current partition
    nor the subarray. *)
Lemma set_result_budget_frame a b (p : SubarrayPartitioner T) :
  let p' := (set_result_budget eng a b p).2 in
  state_ p' = state_ p /\ current_ p' = current_ p /\ subarray_ p' = subarray_ p.
Proof. unfold set_result_budget. by destruct (attribute_var_sized eng a) as [[|]|]. Qed.

Lemma set_result_budget_var_frame a bo bv (p : SubarrayPartitioner T) :
  let p' := (set_result_budget_var eng a bo bv p).2 in
  state_ p' = state_ p /\ current_ p' = current_ p /\ subarray_ p' = subarray_ p.
Proof.
  unfold set_result_budget_var. by destruct (attribute_var_sized eng a) as [[|]|].
Qed.

Lemma done_state (p p' : SubarrayPartitioner T) :
  state_ p' = state_ p -> done p' = done p.
Proof. unfold done. by intros ->. Qed.

(** A call on a partitioner that is done emits nothing and leaves the
    state and the current partition as they are. *)
Lemma call_done (c : Call) (p : SubarrayPartitioner T) :
  done p = true ->
  exists p', call eng c p = Some (p', false)
             /\ state_ p' = state_ p /\ current_ p' = current_ p.
Proof.
  intros Hd. destruct c as [| |a b|a bo bv|b bv]; simpl.
  - rewrite (next_done p Hd). simpl. rewrite Hd. eauto.
  - rewrite (split_current_done p Hd). eauto.
  - destruct (set_result_budget_frame a b p) as (? & ? & _). eauto.
  - destruct (set_result_budget_var_frame a bo bv p) as (? & ? & _). eauto.
  - eauto.
Qed.

(** C4.  If [done()] is true, [next] returns Ok, leaves the partitioner
    (its current partition and its state) unchanged and sets
    [unsplittable] to false.  Once [done()] is true it stays true, whatever
    is called afterwards: no call emits a partition or changes the state or
    the current partition, and every later [next] is the same no-op. *)
Theorem next_after_done (p : SubarrayPartitioner T) :
  done p = true ->
  next eng p = Some (Ok, p, false)
  /\ forall calls,
       exists p',
         run eng calls p = Some (p', [])
         /\ state_ p' = state_ p
         /\ current_ p' = current_ p
         /\ done p' = true
         /\ next eng p' = Some (Ok, p', false).
Proof.
  intros Hd. split; [by apply next_done|].
  intros calls. revert p Hd.
  induction calls as [|c calls IH]; intros p Hd; simpl.
  - exists p. repeat split; try done. by apply next_done.
  - destruct (call_done c p Hd) as (p1 & -> & Hs & Hc).
    assert (Hd1 : done p1 = true) by (by rewrite (done_state p p1 Hs)).
    destruct (IH p1 Hd1) as (p' & -> & Hs' & Hc' & Hd' & Hn').
    exists p'. repeat split; try done; congruence.
Qed.





End Done.

(** The theorem at work on the exhausted example partitioner. *)
Lemma next_after_done_witness :
  next demo_engine demo_done_partitioner = Some (Ok, demo_done_partitioner, false)
  /\ exists p',
       run demo_engine [CallNext; CallSplitCurrent; CallNext] demo_done_partitioner
         = Some (p', [])
       /\ state_ p' = state_ demo_done_partitioner
       /\ current_ p' = current_ demo_done_partitioner
       /\ done p' = true.
Proof.
  destruct (next_after_done demo_engine demo_done_partitioner eq_refl) as [Hn Hr].
  split; [exact Hn|].
  destruct (Hr [CallNext; CallSplitCurrent; CallNext]) as (p' & H1 & H2 & H3 & H4 & _).
  exists p'. auto.
Defined.

(** ** The intervals of the emitted partitions *)

Section Intervals.

Context {T : Type} {ops : DomainOps T}.
Variable eng : Engine T.
Variable original : Subarray T.

Hypothesis calibration : calibration_in_range eng original.

Lemma split_top_single_range_frame (p p' : SubarrayPartitioner T) u :
  split_top_single_range eng p = (p', u) ->
  subarray_ p' = subarray_ p /\ budget_ p' = budget_ p
  /\ current_ p' = current_ p
  /\ State.start_ (state_ p') = State.start_ (state_ p)
  /\ State.end_ (state_ p') = State.end_ (state_ p)
  /\ State.multi_range_ (state_ p') = State.multi_range_ (state_ p).
Proof.
  unfold split_top_single_range.
  destruct (State.single_range_ (state_ p)) as [|front rest]; [by intros [= <- <-]|].
  destruct (split_single_range eng front) as [[l r]|]; by intros [= <- <-].
Qed.

Lemma split_top_multi_range_frame (p p' : SubarrayPartitioner T) u :
  split_top_multi_range p = (p', u) ->
  subarray_ p' = subarray_ p /\ budget_ p' = budget_ p
  /\ current_ p' = current_ p
  /\ State.start_ (state_ p') = State.start_ (state_ p)
  /\ State.end_ (state_ p') = State.end_ (state_ p)
  /\ State.single_range_ (state_ p') = State.single_range_ (state_ p).
Proof.
  unfold split_top_multi_range.
  destruct (State.multi_range_ (state_ p)) as [|front rest]; [by intros [= <- <-]|].
  destruct (split_multi_range front) as [[l r]|]; by intros [= <- <-].
Qed.

(** Draining a list keeps the subarray, the bounds of the state and the
    interval of the current partition. *)
Lemma next_from_single_range_frame fuel :
  forall (p p' : SubarrayPartitioner T) u,
    next_from_single_range eng fuel p = Some (p', u) ->
    subarray_ p' = subarray_ p
    /\ State.start_ (state_ p') = State.start_ (state_ p)
    /\ State.end_ (state_ p') = State.end_ (state_ p)
    /\ interval (current_ p') = interval (current_ p).
Proof.
  induction fuel as [|fuel IH]; intros p p' u; simpl;
    destruct (State.single_range_ (state_ p)) as [|front rest] eqn:Hq; try done;
    destruct (must_split eng p front); simpl; try (by intros [= <- <-]);
    destruct (split_top_single_range eng p) as [p1 [|]] eqn:Hs;
    try (by intros [= <- <-]); try done.
  intros Hn. apply IH in Hn as (-> & -> & -> & ->).
  apply split_top_single_range_frame in Hs as (-> & _ & -> & -> & -> & _). done.
Qed.

Lemma next_from_multi_range_frame fuel :
  forall (p p' : SubarrayPartitioner T) u,
    next_from_multi_range eng fuel p = Some (p', u) ->
    subarray_ p' = subarray_ p
    /\ State.start_ (state_ p') = State.start_ (state_ p)
    /\ State.end_ (state_ p') = State.end_ (state_ p)
    /\ interval (current_ p') = interval (current_ p).
Proof.
  induction fuel as [|fuel IH]; intros p p' u; simpl;
    destruct (State.multi_range_ (state_ p)) as [|front rest] eqn:Hq; try done;
    destruct (must_split eng p front); simpl; try (by intros [= <- <-]);
    destruct (split_top_multi_range p) as [p1 [|]] eqn:Hs;
    try (by intros [= <- <-]); try done.
  intros Hn. apply IH in Hn as (-> & -> & -> & ->).
  apply split_top_multi_range_frame in Hs as (-> & _ & -> & -> & -> & _). done.
Qed.

(** The tentative end lies between [state.start] and [state.end]. *)
Lemma compute_current_start_end_range (p : SubarrayPartitioner T) e :
  compute_current_start_end eng p = Some e ->
  State.start_ (state_ p) <= e <= State.end_ (state_ p).
Proof.
  unfold compute_current_start_end. intros Hl.
  apply last_Some_elem_of in Hl. apply list_elem_of_filter in Hl as [_ Hl].
  apply elem_of_seqZ in Hl. lia.
Qed.

(** [next] on a partitioner with empty lists and indices left takes the
    interval that begins at [state.start]. *)
Lemma next_takes_interval (p p' : SubarrayPartitioner T) st u :
  subarray_ p = original ->
  State.end_ (state_ p) = range_num original - 1 ->
  0 <= State.start_ (state_ p) <= range_num original - 1 ->
  State.single_range_ (state_ p) = [] ->
  State.multi_range_ (state_ p) = [] ->
  next eng p = Some (st, p', u) ->
  exists i, i.1 = State.start_ (state_ p) /\ tracks original p' i.
Proof.
  intros Hsub Hend Hstart Hsq Hmq. unfold next.
  assert (Hd : done p = false).
  { unfold done. replace (State.end_ (state_ p) <? State.start_ (state_ p)) with false
      by (symmetry; apply Z.ltb_ge; lia). reflexivity. }
  rewrite Hd, Hsq, Hmq.
  set (start := State.start_ (state_ p)) in *.
  destruct (compute_current_start_end eng p) as [e|] eqn:Hc.
  - apply compute_current_start_end_range in Hc. fold start in Hc.
    rewrite Hsub.
    pose proof (calibration start e ltac:(lia) ltac:(lia)) as Hcal.
    destruct (calibrate eng original start e) as [e' must_split_slab].
    simpl in Hcal. destruct must_split_slab.
    + destruct (next_from_multi_range eng _ _) as [[p1 u1]|] eqn:Hn; [|done].
      simpl. intros [= <- <- <-].
      apply next_from_multi_range_frame in Hn as (Hs1 & Hs2 & Hs3 & Hs4).
      simpl in *. exists (start, e'). split; [done|].
      unfold tracks. rewrite Hs1, Hs2, Hs3, Hs4. simpl.
      repeat split; try done; lia.
    + intros [= <- <- <-]. exists (start, e'). split; [done|].
      unfold tracks. simpl. repeat split; try done; lia.
  - destruct (next_from_single_range eng _ _) as [[p1 u1]|] eqn:Hn; [|done].
    simpl. intros [= <- <- <-].
    apply next_from_single_range_frame in Hn as (Hs1 & Hs2 & Hs3 & Hs4).
    simpl in *. exists (start, start). split; [done|].
    unfold tracks. rewrite Hs1, Hs2, Hs3, Hs4. simpl.
    repeat split; try done; lia.
Qed.






End Intervals.

(** ** Subarrays in order *)

Section Validity.

Context {T : Type} {ops : DomainOps T}.

Lemma increasing_take_drop (rs : list (Range T)) j k :
  increasing rs -> increasing (take k (drop j rs)).
Proof.
  intros [Hne Hs]. split.
  - by apply Forall_take, Forall_drop.
  - rewrite <- (take_drop j rs) in Hs. apply StronglySorted_app_1_r in Hs.
    rewrite <- (take_drop k (drop j rs)) in Hs.
    by apply StronglySorted_app_1_l in Hs.
Qed.

Lemma coords_fastest_first_bounds (lens : list nat) :
  forall i, Forall (fun n => (0 < n)%nat) lens ->
            Forall2 (fun c n => (c < n)%nat) (coords_fastest_first lens i) lens.
Proof.
  induction lens as [|n lens IH]; intros i Hpos; simpl; [constructor|].
  apply Forall_cons_1 in Hpos as [Hn Hpos]. constructor; [|by apply IH].
  pose proof (Z.mod_pos_bound i (Z.of_nat n) ltac:(lia)). lia.
Qed.

(** The range indices of a flat index are indices of ranges. *)
Lemma get_range_coords_bounds (s : Subarray T) (i : Z) :
  Forall (fun rs => rs <> []) (dims s) ->
  Forall2 (fun c rs => (c < length rs)%nat) (get_range_coords s i) (dims s).
Proof.
  intros Hne.
  assert (Hpos : Forall (fun n => (0 < n)%nat) (map length (dims s))).
  { apply Forall_fmap. eapply Forall_impl; [exact Hne|].
    intros [|? ?] ?; simpl; [done | lia]. }
  assert (Hgoal : Forall2 (fun c n => (c < n)%nat) (get_range_coords s i)
                          (map length (dims s))).
  { assert (Hrev : Forall2 (fun c n => (c < n)%nat)
                     (reverse (coords_fastest_first (reverse (map length (dims s))) i))
                     (map length (dims s))).
    { rewrite <- (reverse_involutive (map length (dims s))) at 2.
      apply Forall2_reverse, coords_fastest_first_bounds.
      by apply Forall_reverse. }
    unfold get_range_coords. destruct (layout s); try exact Hrev.
    by apply coords_fastest_first_bounds. }
  revert Hgoal. generalize (get_range_coords s i). clear.
  induction (dims s) as [|rs l IH]; intros cs Hcs; simpl in Hcs.
  - apply Forall2_nil_inv_r in Hcs as ->. constructor.
  - apply Forall2_cons_inv_r in Hcs as (c & cs' & Hc & Hcs' & ->).
    constructor; [done | by apply IH].
Qed.

Lemma Forall_zip_with_Forall2 {A B C} (Q : A -> B -> Prop) (P : C -> Prop)
    (f : A -> B -> C) (l : list A) (k : list B) :
  Forall2 Q l k ->
  (forall x y, x ∈ l -> Q x y -> P (f x y)) ->
  Forall P (zip_with f l k).
Proof.
  induction 1 as [|x y l k Hxy _ IH]; intros HP; simpl; constructor.
  - apply HP; [by left | done].
  - apply IH. intros x' y' Hx'. apply HP. by right.
Qed.

(** The single range at a flat index of a subarray in order is a subarray
    in order. *)
Lemma get_range_valid (n : nat) (s : Subarray T) (i : Z) :
  ordered_subarray n s -> ordered_subarray n (get_range s i).
Proof.
  intros [Hlen Hdims].
  assert (Hb : Forall2 (fun c rs => (c < length rs)%nat)
                       (get_range_coords s i) (dims s)).
  { apply get_range_coords_bounds. eapply Forall_impl; [exact Hdims|].
    by intros rs [? _]. }
  split.
  - simpl. rewrite length_zip_with. apply Forall2_length in Hb. lia.
  - simpl. apply Forall2_flip in Hb.
    eapply Forall_zip_with_Forall2; [exact Hb|].
    intros rs c Hin Hc. simpl in Hc. rewrite Forall_forall in Hdims.
    destruct (Hdims rs Hin) as [_ Hinc]. split.
    + intros Hnil. apply (f_equal length) in Hnil.
      rewrite length_take, length_drop in Hnil. cbn [length] in Hnil. lia.
    + by apply increasing_take_drop.
Qed.




(** A subarray in order has at least one flat index. *)
Lemma range_num_positive (n : nat) (s : Subarray T) :
  ordered_subarray n s -> 1 <= range_num s.
Proof.
  intros [_ Hdims]. unfold range_num.
  induction Hdims as [|rs l [Hne _] _ IH]; simpl; [lia|].
  destruct rs as [|r rs]; [done|]. simpl length. nia.
Qed.

End Validity.

(** ** Splitting subarrays in order *)

Ltac order_cases :=
  unfold t_leb, t_ltb in *;
  repeat match goal with
         | |- context [?a <=? ?b] => destruct (Z.leb_spec a b)
         | |- context [?a <? ?b] => destruct (Z.ltb_spec a b)
         end.

Section Splitting.

Context {T : Type} {ops : DomainOps T} {laws : DomainLaws T}.

Lemma foldr_ranges_measure (rs : list (Range T)) (n : Z) :
  foldr (fun r m => 1 + splittable_points r + m) n rs = ranges_measure rs + n.
Proof.
  unfold ranges_measure. induction rs as [|r rs IH]; simpl; [lia|].
  rewrite IH. lia.
Qed.

Lemma subarray_measure_dims (s : Subarray T) :
  subarray_measure s = Z.to_nat (dims_measure (dims s)).
Proof.
  unfold subarray_measure, dims_measure. f_equal.
  induction (dims s) as [|rs l IH]; simpl; [done|].
  by rewrite foldr_ranges_measure, IH.
Qed.

Lemma ranges_measure_nonneg (rs : list (Range T)) : 0 <= ranges_measure rs.
Proof.
  unfold ranges_measure, splittable_points.
  induction rs as [|r rs IH]; simpl; lia.
Qed.

Lemma ranges_measure_app (a b : list (Range T)) :
  ranges_measure (a ++ b) = ranges_measure a + ranges_measure b.
Proof.
  unfold ranges_measure. induction a as [|r a IH]; simpl; [done|].
  rewrite IH. lia.
Qed.

Lemma dims_measure_nonneg (ds : list (list (Range T))) : 0 <= dims_measure ds.
Proof.
  unfold dims_measure. induction ds as [|rs l IH]; simpl; [lia|].
  pose proof (ranges_measure_nonneg rs). lia.
Qed.

(** Shrinking the ranges of one dimension shrinks the measure. *)
Lemma dims_measure_alter (f : list (Range T) -> list (Range T))
    (ds : list (list (Range T))) (d : nat) rs :
  ds !! d = Some rs ->
  dims_measure (alter f d ds) = dims_measure ds - ranges_measure rs
                                + ranges_measure (f rs).
Proof.
  assert (Hcons : forall x l, dims_measure (x :: l)
                              = ranges_measure x + dims_measure l) by done.
  revert d. induction ds as [|x ds IH]; intros [|d] Hd; simpl in Hd; try done.
  - injection Hd as ->. cbn [alter list_alter]. rewrite !Hcons. lia.
  - cbn [alter list_alter]. rewrite !Hcons.
    change (list_alter f d ds) with (alter f d ds). rewrite (IH d Hd). lia.
Qed.

(** The left part never weighs more, and weighs less when some range
    reaches above the point. *)
Lemma split_ranges_left_measure (p : T) (rs : list (Range T)) :
  ranges_measure (split_ranges_left p rs) <= ranges_measure rs
  /\ ((exists r, r ∈ rs /\ ord p < ord (hi r)) ->
      ranges_measure (split_ranges_left p rs) < ranges_measure rs).
Proof.
  induction rs as [|r rs [IH1 IH2]]; simpl.
  - split; [done|]. intros (r & Hr & _). by apply elem_of_nil in Hr.
  - rewrite ranges_measure_app.
    assert (Hhead :
      ranges_measure (if t_leb (hi r) p then [r]
                      else if t_ltb p (lo r) then [] else [mkRange (lo r) p])
        <= 1 + splittable_points r
      /\ (ord p < ord (hi r) ->
          ranges_measure (if t_leb (hi r) p then [r]
                          else if t_ltb p (lo r) then [] else [mkRange (lo r) p])
            < 1 + splittable_points r)).
    { unfold ranges_measure, splittable_points. order_cases; simpl; lia. }
    destruct Hhead as [Hh1 Hh2].
    change (ranges_measure (r :: rs)) with (1 + splittable_points r + ranges_measure rs).
    split; [lia|].
    intros (r' & Hr' & Hp). apply elem_of_cons in Hr' as [-> | Hr'].
    + specialize (Hh2 Hp). lia.
    + assert (ranges_measure (split_ranges_left p rs) < ranges_measure rs)
        by (apply IH2; eauto). lia.
Qed.

(** The right part never weighs more, and weighs less when some range
    begins at or below the point. *)
Lemma split_ranges_right_measure (p : T) (rs : list (Range T)) :
  ranges_measure (split_ranges_right p rs) <= ranges_measure rs
  /\ ((exists r, r ∈ rs /\ ord (lo r) <= ord p) ->
      ranges_measure (split_ranges_right p rs) < ranges_measure rs).
Proof.
  induction rs as [|r rs [IH1 IH2]]; simpl.
  - split; [done|]. intros (r & Hr & _). by apply elem_of_nil in Hr.
  - rewrite ranges_measure_app.
    assert (Hhead :
      ranges_measure (if t_leb (hi r) p then []
                      else if t_ltb p (lo r) then [r]
                      else [mkRange (next_after p) (hi r)])
        <= 1 + splittable_points r
      /\ (ord (lo r) <= ord p ->
          ranges_measure (if t_leb (hi r) p then []
                          else if t_ltb p (lo r) then [r]
                          else [mkRange (next_after p) (hi r)])
            < 1 + splittable_points r)).
    { unfold ranges_measure, splittable_points. order_cases; simpl;
        rewrite ?next_after_ord; lia. }
    destruct Hhead as [Hh1 Hh2].
    change (ranges_measure (r :: rs)) with (1 + splittable_points r + ranges_measure rs).
    split; [lia|].
    intros (r' & Hr' & Hp). apply elem_of_cons in Hr' as [-> | Hr'].
    + specialize (Hh2 Hp). lia.
    + assert (ranges_measure (split_ranges_right p rs) < ranges_measure rs)
        by (apply IH2; eauto). lia.
Qed.

(** A map that keeps each range or shrinks it within itself, or drops it,
    keeps the ranges increasing. *)
Lemma increasing_flat_map (f : Range T -> list (Range T)) (rs : list (Range T)) :
  (forall r r', ord (lo r) <= ord (hi r) -> r' ∈ f r ->
     ord (lo r) <= ord (lo r') /\ ord (hi r') <= ord (hi r)
     /\ ord (lo r') <= ord (hi r')) ->
  (forall r, (length (f r) <= 1)%nat) ->
  increasing rs -> increasing (flat_map f rs).
Proof.
  intros Hf Hlen [Hne Hs].
  induction rs as [|r rs IH]; simpl; [split; constructor|].
  apply Forall_cons_1 in Hne as [Hr Hne].
  apply StronglySorted_cons in Hs as [Hrs Hs].
  destruct (IH Hne Hs) as [IH1 IH2]. split.
  - apply Forall_app. split; [|done]. apply Forall_forall.
    intros r' Hr'. by apply (Hf r r' Hr) in Hr' as (_ & _ & ?).
  - apply StronglySorted_app. split; [|split; [|done]].
    + intros x y Hx Hy. apply (Hf r x Hr) in Hx as (_ & Hx & _).
      apply list_elem_of_In, in_flat_map in Hy as (r2 & Hr2 & Hy).
      apply list_elem_of_In in Hr2, Hy.
      rewrite Forall_forall in Hrs, Hne.
      apply (Hf r2 y (Hne r2 Hr2)) in Hy as (Hy & _ & _).
      specialize (Hrs r2 Hr2). lia.
    + specialize (Hlen r). destruct (f r) as [|a [|b l]]; simpl in Hlen;
        [constructor | repeat constructor | lia].
Qed.

Lemma split_ranges_left_increasing (p : T) (rs : list (Range T)) :
  increasing rs -> increasing (split_ranges_left p rs).
Proof.
  apply increasing_flat_map.
  - intros r r' Hr. order_cases; intros Hr'.
    + apply list_elem_of_singleton in Hr' as ->. lia.
    + by apply elem_of_nil in Hr'.
    + apply list_elem_of_singleton in Hr' as ->. simpl. lia.
  - intros r. order_cases; simpl; lia.
Qed.

Lemma split_ranges_right_increasing (p : T) (rs : list (Range T)) :
  increasing rs -> increasing (split_ranges_right p rs).
Proof.
  apply increasing_flat_map.
  - intros r r' Hr. order_cases; intros Hr'.
    + by apply elem_of_nil in Hr'.
    + apply list_elem_of_singleton in Hr' as ->. lia.
    + apply list_elem_of_singleton in Hr' as ->. simpl.
      rewrite next_after_ord. lia.
  - intros r. order_cases; simpl; lia.
Qed.

Lemma split_ranges_left_nonempty (p : T) (rs : list (Range T)) :
  (exists r, r ∈ rs /\ ord (lo r) <= ord p) -> split_ranges_left p rs <> [].
Proof.
  intros (r & Hr & Hp) Hnil.
  assert (Hin : forall x, x ∈ (if t_leb (hi r) p then [r]
                               else if t_ltb p (lo r) then []
                               else [mkRange (lo r) p]) -> False).
  { intros x Hx. apply list_elem_of_In in Hx, Hr.
    assert (In x (split_ranges_left p rs))
      by (apply in_flat_map; eauto).
    rewrite Hnil in *. done. }
  revert Hin. order_cases; intros Hin; try lia; eapply Hin; by left.
Qed.

Lemma split_ranges_right_nonempty (p : T) (rs : list (Range T)) :
  (exists r, r ∈ rs /\ ord p < ord (hi r)) -> split_ranges_right p rs <> [].
Proof.
  intros (r & Hr & Hp) Hnil.
  assert (Hin : forall x, x ∈ (if t_leb (hi r) p then []
                               else if t_ltb p (lo r) then [r]
                               else [mkRange (next_after p) (hi r)]) -> False).
  { intros x Hx. apply list_elem_of_In in Hx, Hr.
    assert (In x (split_ranges_right p rs))
      by (apply in_flat_map; eauto).
    rewrite Hnil in *. done. }
  revert Hin. order_cases; intros Hin; try lia; eapply Hin; by left.
Qed.

(** Splitting a subarray in order at a point that some range of the splitting
    dimension begins at or below and some range reaches above: both halves
    are in order, the left one has a smaller measure, and the two weigh no
    more than the whole. *)
Lemma split_valid (n : nat) (s : Subarray T) (d : nat) (p : T) rs :
  ordered_subarray n s ->
  dims s !! d = Some rs ->
  (exists r, r ∈ rs /\ ord (lo r) <= ord p) ->
  (exists r, r ∈ rs /\ ord p < ord (hi r)) ->
  ordered_subarray n (split s d p).1
  /\ ordered_subarray n (split s d p).2
  /\ (subarray_measure (split s d p).1 < subarray_measure s)%nat
  /\ subarray_weight (split s d p).1 + subarray_weight (split s d p).2
     <= subarray_weight s.
Proof.
  intros [Hlen Hdims] Hd Hl Hr. unfold split. simpl.
  assert (Hrs : increasing rs) by (by destruct (Forall_lookup_1 _ _ _ _ Hdims Hd)).
  assert (Hle : ranges_measure rs <= dims_measure (dims s)).
  { clear -Hd. revert d Hd. induction (dims s) as [|x l IH]; intros [|d] Hd;
      simpl in Hd; try done.
    - injection Hd as ->. change (dims_measure (rs :: l))
        with (ranges_measure rs + dims_measure l).
      pose proof (dims_measure_nonneg l). lia.
    - change (dims_measure (x :: l)) with (ranges_measure x + dims_measure l).
      pose proof (ranges_measure_nonneg x). specialize (IH d Hd). lia. }
  split; [|split; [|split]]; cycle 3.
  { unfold subarray_weight. simpl.
    rewrite !(dims_measure_alter _ _ _ _ Hd).
    destruct (split_ranges_left_measure p rs) as [_ Hlt]. specialize (Hlt Hr).
    destruct (split_ranges_right_measure p rs) as [_ Hgt]. specialize (Hgt Hl).
    pose proof (ranges_measure_nonneg (split_ranges_left p rs)).
    pose proof (ranges_measure_nonneg (split_ranges_right p rs)).
    set (D := dims_measure (dims s)) in *.
    assert (H2 : 2 ^ D = 2 * 2 ^ (D - 1)).
    { replace D with (Z.succ (D - 1)) at 1 by lia.
      rewrite Z.pow_succ_r by lia. done. }
    assert (2 ^ (D - ranges_measure rs + ranges_measure (split_ranges_left p rs))
            <= 2 ^ (D - 1)) by (apply Z.pow_le_mono_r; lia).
    assert (2 ^ (D - ranges_measure rs + ranges_measure (split_ranges_right p rs))
            <= 2 ^ (D - 1)) by (apply Z.pow_le_mono_r; lia).
    lia. }
  - split; simpl; [by rewrite length_alter|].
    apply Forall_alter; [done|]. intros x Hx _. rewrite Hd in Hx.
    injection Hx as <-. split;
      [by apply split_ranges_left_nonempty | by apply split_ranges_left_increasing].
  - split; simpl; [by rewrite length_alter|].
    apply Forall_alter; [done|]. intros x Hx _. rewrite Hd in Hx.
    injection Hx as <-. split;
      [by apply split_ranges_right_nonempty | by apply split_ranges_right_increasing].
  - rewrite !subarray_measure_dims. simpl.
    rewrite (dims_measure_alter _ _ _ _ Hd).
    destruct (split_ranges_left_measure p rs) as [_ Hlt]. specialize (Hlt Hr).
    pose proof (dims_measure_nonneg (dims s)).
    pose proof (ranges_measure_nonneg (split_ranges_left p rs)).
    lia.
Qed.

End Splitting.

(** ** The state machine keeps its partitions in order and always answers *)

Lemma StronglySorted_lookup_lt {A} (R : A -> A -> Prop) (l : list A) :
  StronglySorted R l ->
  forall i j x y, (i < j)%nat -> l !! i = Some x -> l !! j = Some y -> R x y.
Proof.
  induction 1 as [|a l Hs IH Ha]; intros i j x y Hij Hi Hj; [done|].
  destruct j as [|j]; [lia|]. simpl in Hj. destruct i as [|i]; simpl in Hi.
  - injection Hi as <-. rewrite Forall_forall in Ha. apply Ha.
    by eapply list_elem_of_lookup_2.
  - eapply (IH i j); [lia | done | done].
Qed.

Section Machine.

Context {T : Type} {ops : DomainOps T} {laws : DomainLaws T}.
Variable eng : Engine T.
Variable original : Subarray T.

Hypothesis contract : engine_contract eng original.
Hypothesis original_ordered : ordered_subarray (length (dims original)) original.

Local Abbreviation ordered := (ordered_subarray (length (dims original))).
Local Abbreviation invariant := (partitioner_invariant original).

Lemma split_single_range_valid (front l r : Subarray T) :
  ordered front ->
  split_single_range eng front = Some (l, r) ->
  ordered l /\ ordered r /\ (subarray_measure l < subarray_measure front)%nat
  /\ subarray_weight l + subarray_weight r <= subarray_weight front.
Proof.
  intros Hv. unfold split_single_range.
  assert (Hsingle :
    split_at front (compute_splitting_point_single_range front) = Some (l, r) ->
    ordered l /\ ordered r /\ (subarray_measure l < subarray_measure front)%nat
    /\ subarray_weight l + subarray_weight r <= subarray_weight front).
  { unfold compute_splitting_point_single_range, split_at.
    destruct (choose_splitting_dim front) as [[d r0]|] eqn:Hc; [|done].
    destruct (range_unsplittable r0) eqn:Hu; [done|].
    intros [= <- <-].
    destruct (choose_splitting_dim_range front d r0 Hc) as [rs Hd].
    pose proof (midpoint_inside r0 Hu) as Hm.
    apply (split_valid _ front d _ (r0 :: rs) Hv Hd);
      exists r0; (split; [by left | lia]). }
  destruct (layout front); try exact Hsingle.
  unfold compute_splitting_point_on_tiles, split_at.
  destruct (tile_split eng front) as [[d point]|] eqn:Ht; [|done].
  intros [= <- <-].
  destruct (tile_split_inside eng original contract front d point Ht)
    as (r0 & Hd & Hp).
  apply (split_valid _ front d _ [r0] Hv Hd);
    exists r0; (split; [by left | lia]).
Qed.

Lemma split_multi_range_valid (slab l r : Subarray T) :
  ordered slab ->
  split_multi_range slab = Some (l, r) ->
  ordered l /\ ordered r /\ (subarray_measure l < subarray_measure slab)%nat
  /\ subarray_weight l + subarray_weight r <= subarray_weight slab.
Proof.
  intros Hv. unfold split_multi_range, compute_splitting_point_multi_range.
  set (d := multi_range_splitting_dim slab).
  destruct (dims slab !! d) as [rs|] eqn:Hd; [|done].
  destruct rs as [|r1 [|r2 rs]]; [done| |].
  - unfold split_at. destruct (range_unsplittable r1) eqn:Hu; [done|].
    intros [= <- <-]. pose proof (midpoint_inside r1 Hu) as Hm.
    apply (split_valid _ slab d _ [r1] Hv Hd);
      exists r1; (split; [by left | lia]).
  - set (rs0 := r1 :: r2 :: rs) in *.
    set (m := ((length rs0 - 1) / 2)%nat).
    assert (Hlen : (2 <= length rs0)%nat) by (simpl; lia).
    assert (Hm : (m + 1 < length rs0)%nat).
    { subst m. pose proof (Nat.Div0.mul_div_le (length rs0 - 1) 2). lia. }
    destruct (lookup_lt_is_Some_2 rs0 m ltac:(lia)) as [rm Hrm].
    destruct (lookup_lt_is_Some_2 rs0 (m + 1) Hm) as [rn Hrn].
    rewrite Hrm. unfold split_at. intros [= <- <-].
    destruct Hv as [Hv1 Hv2].
    destruct (Forall_lookup_1 _ _ _ _ Hv2 Hd) as [_ [Hne Hs]].
    pose proof (Forall_lookup_1 _ _ _ _ Hne Hrm) as Hlm.
    pose proof (Forall_lookup_1 _ _ _ _ Hne Hrn) as Hln.
    pose proof (StronglySorted_lookup_lt _ _ Hs m (m + 1) rm rn
                  ltac:(lia) Hrm Hrn) as Hmn.
    simpl in Hlm, Hln, Hmn.
    apply (split_valid _ slab d _ rs0 (conj Hv1 Hv2) Hd).
    + exists rm. split; [by eapply list_elem_of_lookup_2 | lia].
    + exists rn. split; [by eapply list_elem_of_lookup_2 | lia].
Qed.

(** Draining the single-range list with enough fuel answers, keeps the
    pending subarrays in order and emits a partition in order. *)
Lemma next_from_single_range_total fuel :
  forall (p : SubarrayPartitioner T) front rest,
    State.single_range_ (state_ p) = front :: rest ->
    Forall ordered (front :: rest) ->
    (subarray_measure front <= fuel)%nat ->
    exists p' u,
      next_from_single_range eng fuel p = Some (p', u)
      /\ Forall ordered (State.single_range_ (state_ p'))
      /\ State.multi_range_ (state_ p') = State.multi_range_ (state_ p)
      /\ ordered (current p').
Proof.
  induction fuel as [|fuel IH]; intros p front rest Hq Hv Hfuel;
    apply Forall_cons_1 in Hv as [Hfront Hrest]; simpl; rewrite Hq.
  - destruct (must_split eng p front); simpl; [|by eauto 10].
    unfold split_top_single_range. rewrite Hq.
    destruct (split_single_range eng front) as [[l r]|] eqn:Hs; [|by eauto 10].
    destruct (split_single_range_valid front l r Hfront Hs) as (_ & _ & Hlt). lia.
  - destruct (must_split eng p front); simpl; [|by eauto 10].
    unfold split_top_single_range. rewrite Hq.
    destruct (split_single_range eng front) as [[l r]|] eqn:Hs; [|by eauto 10].
    destruct (split_single_range_valid front l r Hfront Hs) as (Hl & Hr & Hlt).
    destruct (IH (with_single_range p (l :: r :: rest)) l (r :: rest) eq_refl
                (Forall_cons_2 _ _ _ Hl (Forall_cons_2 _ _ _ Hr Hrest)) ltac:(lia))
      as (p' & u & Hn & Hq' & Hm' & Hc').
    exists p', u. by rewrite Hn.
Qed.

Lemma next_from_multi_range_total fuel :
  forall (p : SubarrayPartitioner T) front rest,
    State.multi_range_ (state_ p) = front :: rest ->
    Forall ordered (front :: rest) ->
    (subarray_measure front <= fuel)%nat ->
    exists p' u,
      next_from_multi_range eng fuel p = Some (p', u)
      /\ Forall ordered (State.multi_range_ (state_ p'))
      /\ State.single_range_ (state_ p') = State.single_range_ (state_ p)
      /\ ordered (current p').
Proof.
  induction fuel as [|fuel IH]; intros p front rest Hq Hv Hfuel;
    apply Forall_cons_1 in Hv as [Hfront Hrest]; simpl; rewrite Hq.
  - destruct (must_split eng p front); simpl; [|by eauto 10].
    unfold split_top_multi_range. rewrite Hq.
    destruct (split_multi_range front) as [[l r]|] eqn:Hs; [|by eauto 10].
    destruct (split_multi_range_valid front l r Hfront Hs) as (_ & _ & Hlt). lia.
  - destruct (must_split eng p front); simpl; [|by eauto 10].
    unfold split_top_multi_range. rewrite Hq.
    destruct (split_multi_range front) as [[l r]|] eqn:Hs; [|by eauto 10].
    destruct (split_multi_range_valid front l r Hfront Hs) as (Hl & Hr & Hlt).
    destruct (IH (with_multi_range p (l :: r :: rest)) l (r :: rest) eq_refl
                (Forall_cons_2 _ _ _ Hl (Forall_cons_2 _ _ _ Hr Hrest)) ltac:(lia))
      as (p' & u & Hn & Hq' & Hm' & Hc').
    exists p', u. by rewrite Hn.
Qed.

(** [next] always answers, with Ok; it keeps the invariant, and when the
    partitioner was not done its current partition is in order afterwards. *)
Lemma next_total (p : SubarrayPartitioner T) :
  invariant p ->
  exists p' u,
    next eng p = Some (Ok, p', u)
    /\ invariant p'
    /\ (done p = false -> ordered (current p')).
Proof.
  intros (Hsub & Hend & Hstart & Hsq & Hmq). unfold next.
  destruct (done p) eqn:Hd.
  { exists p, false. repeat split; done. }
  destruct (State.single_range_ (state_ p)) as [|f1 r1] eqn:Hq1.
  - destruct (State.multi_range_ (state_ p)) as [|f2 r2] eqn:Hq2.
    + set (start := State.start_ (state_ p)) in *.
      assert (Hse : start <= range_num original - 1).
      { unfold done in Hd. rewrite Hq1, Hq2 in Hd. simpl in Hd.
        rewrite !andb_true_r in Hd. apply Z.ltb_ge in Hd. lia. }
      destruct (compute_current_start_end eng p) as [e|] eqn:Hc.
      * apply compute_current_start_end_range in Hc. fold start in Hc.
        rewrite Hsub.
        pose proof (calibrate_in_range eng original contract start e
                      ltac:(lia) ltac:(lia)) as Hcal.
        pose proof (calibrate_valid eng original contract start e
                      ltac:(lia) ltac:(lia)) as Hval.
        destruct (calibrate eng original start e) as [e' must_split_slab].
        simpl in Hcal, Hval. destruct must_split_slab.
        -- set (p1 := take_interval p start e' (current p) []
                        [get_subarray original start e']).
           destruct (next_from_multi_range_total
                       (subarray_measure (get_subarray original start e')) p1
                       (get_subarray original start e') [] eq_refl
                       (Forall_cons_2 _ _ _ Hval (Forall_nil_2 _)) (le_n _))
             as (p' & u & Hn & Hq' & Hs' & Hc').
           rewrite Hn. simpl. exists p', u. split; [done|]. split; [|done].
           apply next_from_multi_range_frame in Hn as (Hf1 & Hf2 & Hf3 & _).
           unfold partitioner_invariant.
           rewrite Hf1, Hf2, Hf3, Hs'. simpl. repeat split; try done; lia.
        -- exists (take_interval p start e' (get_subarray original start e') [] []),
             false.
           split; [done|]. split; [|done].
           unfold partitioner_invariant. simpl. repeat split; try done; lia.
      * set (p1 := take_interval p start start (current p)
                     [get_range (subarray_ p) start] []).
        assert (Hr : ordered (get_range (subarray_ p) start))
          by (rewrite Hsub; by apply get_range_valid).
        destruct (next_from_single_range_total
                    (subarray_measure (get_range (subarray_ p) start)) p1
                    (get_range (subarray_ p) start) [] eq_refl
                    (Forall_cons_2 _ _ _ Hr (Forall_nil_2 _)) (le_n _))
          as (p' & u & Hn & Hq' & Hs' & Hc').
        rewrite Hn. simpl. exists p', u. split; [done|]. split; [|done].
        apply next_from_single_range_frame in Hn as (Hf1 & Hf2 & Hf3 & _).
        unfold partitioner_invariant.
        rewrite Hf1, Hf2, Hf3, Hs'. simpl. repeat split; try done; lia.
    + destruct (next_from_multi_range_total (subarray_measure f2) p f2 r2
                  Hq2 Hmq (le_n _))
        as (p' & u & Hn & Hq' & Hs' & Hc').
      rewrite Hn. simpl. exists p', u. split; [done|]. split; [|done].
      apply next_from_multi_range_frame in Hn as (Hf1 & Hf2 & Hf3 & _).
      unfold partitioner_invariant.
      rewrite Hf1, Hf2, Hf3, Hs', Hq1. repeat split; try done.
  - destruct (next_from_single_range_total (subarray_measure f1) p f1 r1
                Hq1 Hsq (le_n _))
      as (p' & u & Hn & Hq' & Hs' & Hc').
    rewrite Hn. simpl. exists p', u. split; [done|]. split; [|done].
    apply next_from_single_range_frame in Hn as (Hf1 & Hf2 & Hf3 & _).
    unfold partitioner_invariant.
    rewrite Hf1, Hf2, Hf3, Hs'. repeat split; try done.
Qed.

(** When [next] sets [unsplittable], the partition it could not split is
    the current partition, and it is in order. *)
Lemma next_unsplittable_valid (p p' : SubarrayPartitioner T) st :
  invariant p ->
  next eng p = Some (st, p', true) ->
  st = Ok /\ ordered (current p').
Proof.
  intros Hinv Hn. destruct (next_total p Hinv) as (p1 & u & Hn1 & _ & Hc).
  rewrite Hn1 in Hn. injection Hn as <- <- ->. split; [done|].
  apply Hc. destruct (done p) eqn:Hd; [|done].
  rewrite (next_done eng p Hd) in Hn1. done.
Qed.

(** [split_current] returns Ok; when it sets [unsplittable] it has changed
    nothing, and otherwise it keeps the invariant and a current partition
    in order, provided the current partition was in order. *)
Lemma split_current_invariant (p p' : SubarrayPartitioner T) st u :
  split_current eng p = (st, p', u) ->
  st = Ok
  /\ (u = true -> p' = p)
  /\ (invariant p -> ordered (current p) -> invariant p' /\ ordered (current p')).
Proof.
  unfold split_current. destruct (done p); [by intros [= <- <- <-]|].
  destruct (is_multi_range (current p)).
  - destruct (split_multi_range (current p)) as [[l r]|] eqn:Hs;
      [|by intros [= <- <- <-]].
    intros [= <- <- <-]. split; [done|]. split; [done|].
    intros (Hsub & Hend & Hstart & Hsq & Hmq) Hc.
    destruct (split_multi_range_valid _ l r Hc Hs) as (Hl & Hr & _).
    split; [|done]. unfold partitioner_invariant. simpl.
    repeat split; try done. by constructor.
  - destruct (split_single_range eng (current p)) as [[l r]|] eqn:Hs;
      [|by intros [= <- <- <-]].
    intros [= <- <- <-]. split; [done|]. split; [done|].
    intros (Hsub & Hend & Hstart & Hsq & Hmq) Hc.
    destruct (split_single_range_valid _ l r Hc Hs) as (Hl & Hr & _).
    split; [|done]. unfold partitioner_invariant. simpl.
    repeat split; try done. by constructor.
Qed.

Lemma set_result_budget_invariant a b (p : SubarrayPartitioner T) :
  invariant p -> invariant (set_result_budget eng a b p).2.
Proof. unfold set_result_budget. by destruct (attribute_var_sized eng a) as [[|]|]. Qed.

Lemma set_result_budget_var_invariant a bo bv (p : SubarrayPartitioner T) :
  invariant p -> invariant (set_result_budget_var eng a bo bv p).2.
Proof.
  unfold set_result_budget_var. by destruct (attribute_var_sized eng a) as [[|]|].
Qed.

(** A call sequence on a partitioner with a current partition in order
    always runs to its end. *)
Lemma run_total_emitted (calls : list Call) :
  forall p : SubarrayPartitioner T,
    invariant p -> ordered (current p) ->
    exists p' log, run eng calls p = Some (p', log) /\ invariant p'.
Proof.
  induction calls as [|c calls IH]; intros p Hinv Hcur; simpl; [by eauto|].
  assert (Hstep : exists p1 emitted,
             call eng c p = Some (p1, emitted)
             /\ invariant p1 /\ ordered (current p1)).
  { destruct c as [| |a b|a bo bv|b bv]; simpl.
    - destruct (done p) eqn:Hd.
      + rewrite (next_done eng p Hd). simpl. exists p, false. done.
      + destruct (next_total p Hinv) as (p1 & u & -> & Hi1 & Hc1). simpl.
        exists p1, true. split; [done|]. split; [done | by apply Hc1].
    - destruct (split_current eng p) as [[st p1] u] eqn:Hs.
      destruct (split_current_invariant p p1 st u Hs) as (_ & _ & Hi).
      destruct (Hi Hinv Hcur). eauto.
    - exists (set_result_budget eng a b p).2, false.
      split; [done|]. split; [by apply set_result_budget_invariant|].
      unfold set_result_budget. by destruct (attribute_var_sized eng a) as [[|]|].
    - exists (set_result_budget_var eng a bo bv p).2, false.
      split; [done|]. split; [by apply set_result_budget_var_invariant|].
      unfold set_result_budget_var.
      by destruct (attribute_var_sized eng a) as [[|]|].
    - exists (set_memory_budget b bv p).2, false. done. }
  destruct Hstep as (p1 & emitted & -> & Hi1 & Hc1).
  destruct (IH p1 Hi1 Hc1) as (p' & log & -> & Hi'). eauto.
Qed.

(** A legal call sequence on a partitioner that is not done always runs to
    its end. *)
Lemma run_total_legal (calls : list Call) :
  forall p : SubarrayPartitioner T,
    invariant p -> done p = false -> legal calls = true ->
    exists p' log, run eng calls p = Some (p', log) /\ invariant p'.
Proof.
  induction calls as [|c calls IH]; intros p Hinv Hd Hl; simpl; [by eauto|].
  destruct c as [| |a b|a bo bv|b bv]; simpl in Hl; try done; simpl.
  - destruct (next_total p Hinv) as (p1 & u & -> & Hi1 & Hc1). simpl.
    destruct (run_total_emitted calls p1 Hi1 (Hc1 Hd)) as (p' & log & -> & Hi').
    eauto.
  - destruct (IH (set_result_budget eng a b p).2) as (p' & log & -> & Hi');
      [by apply set_result_budget_invariant | | done | by eauto].
    rewrite <- Hd. apply done_state.
    by destruct (set_result_budget_frame eng a b p) as (? & _).
  - destruct (IH (set_result_budget_var eng a bo bv p).2) as (p' & log & -> & Hi');
      [by apply set_result_budget_var_invariant | | done | by eauto].
    rewrite <- Hd. apply done_state.
    by destruct (set_result_budget_var_frame eng a bo bv p) as (? & _).
  - destruct (IH (set_memory_budget b bv p).2) as (p' & log & Hrun & Hi');
      [done | done | done |].
    simpl in Hrun. rewrite Hrun. eauto.
Qed.

(** A new partitioner satisfies the invariant, is fresh and is not done. *)
Lemma new_invariant :
  invariant (new eng original)
  /\ fresh original (new eng original)
  /\ done (new eng original) = false.
Proof.
  pose proof (range_num_positive _ _ original_ordered) as Hn.
  split; [|split].
  - unfold partitioner_invariant. simpl. repeat split; try done; lia.
  - by unfold fresh.
  - unfold done. simpl.
    replace (range_num original - 1 <? 0) with false
      by (symmetry; apply Z.ltb_ge; lia). done.
Qed.

(** ** Repeated calls of [next] reach [done()] *)

Local Abbreviation weights := (foldr (fun s n => subarray_weight s + n) 0).

Lemma subarray_weight_positive (s : Subarray T) : 1 <= subarray_weight s.
Proof.
  unfold subarray_weight. pose proof (dims_measure_nonneg (dims s)).
  assert (0 < 2 ^ dims_measure (dims s)) by (apply Z.pow_pos_nonneg; lia).
  lia.
Qed.

Lemma weights_nonneg (l : list (Subarray T)) : 0 <= weights l.
Proof.
  induction l as [|s l IH]; simpl; [lia|].
  pose proof (subarray_weight_positive s). lia.
Qed.

Lemma pending_weight_lists (p : SubarrayPartitioner T) :
  pending_weight p
  = weights (State.single_range_ (state_ p))
    + weights (State.multi_range_ (state_ p)).
Proof.
  unfold pending_weight.
  induction (State.single_range_ (state_ p)) as [|s l IH]; simpl; lia.
Qed.

(** Draining a list takes weight off the pending subarrays. *)
Lemma next_from_single_range_weight fuel :
  forall (p p' : SubarrayPartitioner T) u,
    Forall ordered (State.single_range_ (state_ p)) ->
    next_from_single_range eng fuel p = Some (p', u) ->
    pending_weight p' < pending_weight p.
Proof.
  induction fuel as [|fuel IH]; intros p p' u Hv; simpl;
    destruct (State.single_range_ (state_ p)) as [|front rest] eqn:Hq; try done;
    apply Forall_cons_1 in Hv as [Hfront Hrest];
    assert (Hemit : pending_weight (emit (with_single_range p rest) front false)
                    < pending_weight p)
      by (rewrite !pending_weight_lists; simpl; rewrite Hq; simpl;
          pose proof (subarray_weight_positive front); lia);
    destruct (must_split eng p front); simpl; try (by intros [= <- <-]);
    unfold split_top_single_range; rewrite Hq;
    destruct (split_single_range eng front) as [[l r]|] eqn:Hs;
    try (by intros [= <- <-]); try done.
  intros Hn.
  destruct (split_single_range_valid front l r Hfront Hs) as (Hl & Hr & _ & Hw).
  apply IH in Hn;
    [|simpl; apply Forall_cons_2; [done | by apply Forall_cons_2]].
  rewrite !pending_weight_lists in *. simpl in *. rewrite Hq. simpl. lia.
Qed.

Lemma next_from_multi_range_weight fuel :
  forall (p p' : SubarrayPartitioner T) u,
    Forall ordered (State.multi_range_ (state_ p)) ->
    next_from_multi_range eng fuel p = Some (p', u) ->
    pending_weight p' < pending_weight p.
Proof.
  induction fuel as [|fuel IH]; intros p p' u Hv; simpl;
    destruct (State.multi_range_ (state_ p)) as [|front rest] eqn:Hq; try done;
    apply Forall_cons_1 in Hv as [Hfront Hrest];
    assert (Hemit : pending_weight (emit (with_multi_range p rest) front true)
                    < pending_weight p)
      by (rewrite !pending_weight_lists; simpl; rewrite Hq; simpl;
          pose proof (subarray_weight_positive front); lia);
    destruct (must_split eng p front); simpl; try (by intros [= <- <-]);
    unfold split_top_multi_range; rewrite Hq;
    destruct (split_multi_range front) as [[l r]|] eqn:Hs;
    try (by intros [= <- <-]); try done.
  intros Hn.
  destruct (split_multi_range_valid front l r Hfront Hs) as (Hl & Hr & _ & Hw).
  apply IH in Hn;
    [|simpl; apply Forall_cons_2; [done | by apply Forall_cons_2]].
  rewrite !pending_weight_lists in *. simpl in *. rewrite Hq. simpl. lia.
Qed.

(** A call of [next] on a partitioner that is not done makes progress: it
    takes weight off the pending subarrays, or it takes a new interval and
    [state.start] moves on. *)
Lemma next_progress (p p' : SubarrayPartitioner T) st u :
  invariant p ->
  done p = false ->
  next eng p = Some (st, p', u) ->
  (State.start_ (state_ p') = State.start_ (state_ p)
   /\ pending_weight p' < pending_weight p)
  \/ (State.start_ (state_ p) <= State.end_ (state_ p)
      /\ State.start_ (state_ p) < State.start_ (state_ p')).
Proof.
  intros (Hsub & Hend & Hstart & Hsq & Hmq) Hd Hn.
  destruct (State.single_range_ (state_ p)) as [|f1 r1] eqn:Hq1.
  - destruct (State.multi_range_ (state_ p)) as [|f2 r2] eqn:Hq2.
    + right.
      assert (Hse : State.start_ (state_ p) <= range_num original - 1).
      { unfold done in Hd. rewrite Hq1, Hq2 in Hd. simpl in Hd.
        rewrite !andb_true_r in Hd. apply Z.ltb_ge in Hd. lia. }
      destruct (next_takes_interval eng original
                  (calibrate_in_range eng original contract)
                  p p' st u Hsub Hend ltac:(lia) Hq1 Hq2 Hn)
        as (i & Hi & (_ & _ & Hs & _ & Hle & _)).
      lia.
    + left. unfold next in Hn. rewrite Hd, Hq1, Hq2 in Hn.
      destruct (next_from_multi_range eng _ _) as [[p1 u1]|] eqn:Hn1; [|done].
      simpl in Hn. injection Hn as <- <- <-. split.
      * by apply next_from_multi_range_frame in Hn1 as (_ & ? & _).
      * apply (next_from_multi_range_weight _ _ _ _ ltac:(by rewrite Hq2) Hn1).
  - left. unfold next in Hn. rewrite Hd, Hq1 in Hn.
    destruct (next_from_single_range eng _ _) as [[p1 u1]|] eqn:Hn1; [|done].
    simpl in Hn. injection Hn as <- <- <-. split.
    + by apply next_from_single_range_frame in Hn1 as (_ & ? & _).
    + apply (next_from_single_range_weight _ _ _ _ ltac:(by rewrite Hq1) Hn1).
Qed.

(** So from every partitioner that satisfies the invariant a number of
    calls of [next] leads to one that is done. *)
Lemma repeated_next_reaches_done (p : SubarrayPartitioner T) :
  invariant p ->
  exists n p' log,
    run eng (replicate n CallNext) p = Some (p', log) /\ done p' = true.
Proof.
  intros Hinv.
  remember (Z.to_nat (State.end_ (state_ p) + 1 - State.start_ (state_ p)))
    as a eqn:Ha.
  remember (Z.to_nat (pending_weight p)) as b eqn:Hb.
  revert b p Hinv Ha Hb. induction a as [a IHa] using lt_wf_ind.
  induction b as [b IHb] using lt_wf_ind. intros p Hinv Ha Hb.
  destruct (done p) eqn:Hd; [by exists 0%nat, p, []|].
  destruct (next_total p Hinv) as (p1 & u & Hn & Hinv1 & _).
  assert (Hends : State.end_ (state_ p1) = State.end_ (state_ p)).
  { destruct Hinv as (_ & -> & _). by destruct Hinv1 as (_ & -> & _). }
  assert (Hstep : forall n p' log,
            run eng (replicate n CallNext) p1 = Some (p', log) ->
            run eng (replicate (S n) CallNext) p
              = Some (p', current_ p1 :: log)).
  { intros n p' log Hr. cbn [replicate run call]. rewrite Hn.
    cbn [mbind option_bind]. by rewrite Hr, Hd. }
  destruct (next_progress p p1 Ok u Hinv Hd Hn) as [[Hs Hw] | [Hse Hs]].
  - pose proof (weights_nonneg (State.single_range_ (state_ p1))).
    pose proof (weights_nonneg (State.multi_range_ (state_ p1))).
    rewrite (pending_weight_lists p1) in Hw.
    destruct (IHb (Z.to_nat (pending_weight p1))
                ltac:(rewrite (pending_weight_lists p1); lia) p1 Hinv1
                ltac:(rewrite Hends, Hs; exact Ha) eq_refl)
      as (n & p' & log & Hr & Hd').
    exists (S n), p', (current_ p1 :: log). split; [by apply Hstep | done].
  - destruct (IHa (Z.to_nat (State.end_ (state_ p1) + 1 - State.start_ (state_ p1)))
                ltac:(lia) (Z.to_nat (pending_weight p1)) p1 Hinv1
                eq_refl eq_refl)
      as (n & p' & log & Hr & Hd').
    exists (S n), p', (current_ p1 :: log). split; [by apply Hstep | done].
Qed.

Lemma run_app (calls1 calls2 : list Call) :
  forall (p p1 p2 : SubarrayPartitioner T) log1 log2,
    run eng calls1 p = Some (p1, log1) ->
    run eng calls2 p1 = Some (p2, log2) ->
    run eng (calls1 ++ calls2) p = Some (p2, log1 ++ log2).
Proof.
  induction calls1 as [|c calls1 IH]; intros p p1 p2 log1 log2; simpl.
  - by intros [= <- <-].
  - destruct (call eng c p) as [[q emitted]|]; [|done].
    destruct (run eng calls1 q) as [[q1 l1]|] eqn:Hr; [|done].
    intros [= <- <-] Hr2. rewrite (IH q q1 p2 l1 log2 Hr Hr2).
    by destruct emitted.
Qed.

(** After every legal call sequence on a new partitioner, a number of
    calls of [next] leads to [done()]. *)
Lemma done_is_reached_after (calls : list Call) :
  legal calls = true ->
  exists n p' log,
    run eng (calls ++ replicate n CallNext) (new eng original) = Some (p', log)
    /\ done p' = true.
Proof.
  intros Hlegal.
  destruct new_invariant as (Hinv & _ & Hnd).
  destruct (run_total_legal calls _ Hinv Hnd Hlegal) as (p1 & log1 & Hr1 & Hinv1).
  destruct (repeated_next_reaches_done p1 Hinv1) as (n & p' & log & Hr & Hd).
  exists n, p', (log1 ++ log). split; [|done].
  by apply (run_app _ _ _ p1).
Qed.

End Machine.

(** ** Integer coordinates and the example engine *)

#[export] Instance integer_domain_laws : DomainLaws Z.
Proof.
  split.
  - intros p. reflexivity.
  - intros r Hu. unfold range_unsplittable in Hu.
    apply orb_false_iff in Hu as [Hs _]. apply negb_false_iff in Hs.
    unfold splittable, t_ltb in Hs. apply Z.ltb_lt in Hs. simpl in Hs.
    destruct (integer_midpoint (lo r) (hi r) ltac:(lia)) as (_ & H1 & H2).
    simpl in *. lia.
Qed.

Lemma zip_with_zip_diag {A B C} (f : A -> B * B -> C) (l : list A) (k : list B) :
  zip_with f l (zip k k) = zip_with (fun a b => f a (b, b)) l k.
Proof.
  revert k. induction l as [|a l IH]; intros [|b k]; simpl; try done.
  by rewrite IH.
Qed.

(** The interval of one flat index materializes to the range at it. *)
Lemma get_subarray_single {T} (s : Subarray T) (i : Z) :
  get_subarray s i i = get_range s i.
Proof.
  unfold get_subarray, get_range. f_equal. rewrite zip_with_zip_diag.
  apply zip_with_ext; [|done|done]. intros rs c. simpl.
  by rewrite Nat.sub_diag.
Qed.

Lemma demo_engine_contract (original : Subarray Z) :
  ordered_subarray (length (dims original)) original ->
  engine_contract demo_engine original.
Proof.
  intros Hv. split; simpl.
  - intros start end_ ? ?. simpl. lia.
  - intros start end_ _ _. rewrite get_subarray_single. by apply get_range_valid.
  - intros range d point [=].
Qed.

Lemma demo_grid_ordered : ordered_subarray 2 demo_grid.
Proof.
  split; [done|]. repeat constructor; simpl; try lia; done.
Qed.

(** On the example grid, with a budget of thirty cells and whatever is
    called first, repeated calls of [next] reach [done()]. *)
Lemma demo_grid_reaches_done :
  exists n p' log,
    run demo_engine
        ([CallSetResultBudget "a" 120; CallNext; CallSplitCurrent]
           ++ replicate n CallNext)
        (new demo_engine demo_grid) = Some (p', log)
    /\ done p' = true.
Proof.
  apply (done_is_reached_after demo_engine demo_grid
           (demo_engine_contract demo_grid demo_grid_ordered)
           demo_grid_ordered); reflexivity.
Qed.

(** ** Sequences of intervals that follow one another *)



(** ** Reaching [done()] when nothing has to be split *)

Section NothingToSplit.

Context {T : Type} {ops : DomainOps T}.
Variable eng : Engine T.
Variable original : Subarray T.

Hypothesis calibration : calibration_in_range eng original.

(** What must be split depends on the partitioner through its budgets
    only. *)
Lemma must_split_budgets (p q : SubarrayPartitioner T) (s : Subarray T) :
  budget_ q = budget_ p ->
  memory_budget_ q = memory_budget_ p ->
  memory_budget_var_ q = memory_budget_var_ p ->
  must_split eng q s = must_split eng p s.
Proof. unfold must_split, exceeds. by intros -> -> ->. Qed.




End NothingToSplit.

(** ** Ranges that are not in order

    The split of the specification goes by value.  On the ranges [20, 30]
    and [1, 10], in this order, the multi-range split takes the upper end
    of the first as its point: the left half is the slab itself and the
    right half has no range.  A slab that must be split is then never
    drained, whatever the fuel: [next] does not return. *)
Remark unordered_ranges_are_not_drained :
  split_multi_range demo_unordered
    = Some (demo_unordered, mkSubarray [[]] ROW_MAJOR)
  /\ (forall fuel (p : SubarrayPartitioner Z) rest,
        budget_ p = budget_ demo_unordered_partitioner ->
        memory_budget_ p = memory_budget_ demo_unordered_partitioner ->
        memory_budget_var_ p = memory_budget_var_ demo_unordered_partitioner ->
        State.multi_range_ (state_ p) = demo_unordered :: rest ->
        next_from_multi_range demo_slab_engine fuel p = None)
  /\ next demo_slab_engine demo_unordered_partitioner = None.
Proof.
  split; [reflexivity|]. split; [|reflexivity].
  induction fuel as [|fuel IH]; intros p rest Hb Hm Hv Hq; simpl; rewrite Hq;
    rewrite (must_split_budgets demo_slab_engine demo_unordered_partitioner p
               demo_unordered Hb Hm Hv);
    change (must_split demo_slab_engine demo_unordered_partitioner demo_unordered)
      with true; simpl;
    unfold split_top_multi_range; rewrite Hq;
    change (split_multi_range demo_unordered)
      with (Some (demo_unordered, @mkSubarray Z [[]] ROW_MAJOR));
    [done|].
  by apply (IH _ (mkSubarray [[]] ROW_MAJOR :: rest)).
Qed.

(** ** The intervals of the emitted partitions, in order *)




(** ** Partitions that cannot be split *)

Section Unsplittable.

Context {T : Type} {ops : DomainOps T}.
Variable eng : Engine T.










End Unsplittable.



(** * More on the file locks *)

Section LockSequences.

Variable this : VFS.
Variable uri : URI.
Hypothesis locks_enabled :
  enable_filelocks_ (file_params_ (vfs_params_ this)) = true.

Lemma lock_times_held (fd : Z) (shared : bool) (k : nat) :
  forall (c lock : Z) (m : gmap string (Z * Z)) (calls : list OsCall),
    m !! to_string uri = Some (c, fd) ->
    0 <= c -> c + Z.of_nat k < UINT64_MOD ->
    lock_times this uri lock shared k (mkWorld m calls)
      = (replicate k (Ok, fd),
         mkWorld (<[to_string uri := (c + Z.of_nat k, fd)]> m) calls).
Proof using locks_enabled.
  induction k as [|k IH]; intros c lock m calls Hm Hc Hk.
  - simpl. rewrite Z.add_0_r, insert_id by done. reflexivity.
  - cbn [lock_times].
    rewrite (filelock_lock_held this uri locks_enabled lock shared
               (mkWorld m calls) c fd Hm).
    cbn [process_filelocks_ os_calls].
    rewrite wrap64_small by (unfold is_u64; lia).
    rewrite (IH (c + 1) fd (<[to_string uri := (c + 1, fd)]> m) calls)
      by (rewrite ?lookup_insert_eq; first [done | lia]).
    rewrite insert_insert_eq. cbn [replicate].
    do 4 f_equal. lia.
Qed.

Lemma filelock_unlock_counted (w : World) (c fd : Z) :
  process_filelocks_ w !! to_string uri = Some (c, fd) ->
  1 < c < UINT64_MOD ->
  filelock_unlock this uri w
    = (Ok, mkWorld (<[to_string uri := (c - 1, fd)]> (process_filelocks_ w))
                   (os_calls w)).
Proof using locks_enabled.
  intros Hm Hc. unfold filelock_unlock. rewrite locks_enabled. cbn [negb].
  rewrite (decr_lock_count_positive uri false INVALID_FILELOCK _ c fd Hm)
    by lia.
  destruct (Z.eqb_spec c 1); [lia|]. reflexivity.
Qed.

Lemma filelock_unlock_last (w : World) (fd : Z) :
  is_file (platform this) uri = true ->
  process_filelocks_ w !! to_string uri = Some (1, fd) ->
  filelock_unlock this uri w
    = (backend_filelock_unlock (platform this) (os_calls w) fd,
       mkWorld (delete (to_string uri) (process_filelocks_ w))
               (os_calls w ++ [OsUnlock fd])).
Proof using locks_enabled.
  intros Hfile Hm. unfold filelock_unlock. rewrite locks_enabled. cbn [negb].
  rewrite (decr_lock_count_positive uri false INVALID_FILELOCK _ 1 fd Hm)
    by (rewrite UINT64_MOD_eq; lia).
  cbn. rewrite Hfile. reflexivity.
Qed.

Lemma unlock_times_snoc (k : nat) :
  forall (w0 : World) (rs : list Status) (w' : World),
    unlock_times this uri k w0 = (rs, w') ->
    unlock_times this uri (S k) w0
      = (rs ++ [(filelock_unlock this uri w').1], (filelock_unlock this uri w').2).
Proof.
  induction k as [|k IH]; intros w0 rs w' Hk.
  - simpl in Hk. injection Hk as <- <-. cbn [unlock_times].
    destruct (filelock_unlock this uri w0); reflexivity.
  - change (unlock_times this uri (S k) w0) with
      (let '(st, w1') := filelock_unlock this uri w0 in
       let '(rs0, w'') := unlock_times this uri k w1' in (st :: rs0, w''))
      in Hk.
    change (unlock_times this uri (S (S k)) w0) with
      (let '(st, w1') := filelock_unlock this uri w0 in
       let '(rs0, w'') := unlock_times this uri (S k) w1' in (st :: rs0, w'')).
    destruct (filelock_unlock this uri w0) as [st w1'].
    destruct (unlock_times this uri k w1') as [rs0 w''] eqn:Hk'.
    injection Hk as <- <-.
    rewrite (IH _ _ _ Hk'). reflexivity.
Qed.

Lemma unlock_times_held (fd : Z) (k : nat) :
  forall (c : Z) (m : gmap string (Z * Z)) (calls : list OsCall),
    m !! to_string uri = Some (c, fd) ->
    Z.of_nat k < c < UINT64_MOD ->
    unlock_times this uri k (mkWorld m calls)
      = (replicate k Ok,
         mkWorld (<[to_string uri := (c - Z.of_nat k, fd)]> m) calls).
Proof using locks_enabled.
  induction k as [|k IH]; intros c m calls Hm Hk.
  - simpl. rewrite Z.sub_0_r, insert_id by done. reflexivity.
  - cbn [unlock_times].
    rewrite (filelock_unlock_counted (mkWorld m calls) c fd Hm) by lia.
    cbn [process_filelocks_ os_calls].
    rewrite (IH (c - 1) (<[to_string uri := (c - 1, fd)]> m) calls)
      by (rewrite ?lookup_insert_eq; first [done | lia]).
    rewrite insert_insert_eq. cbn [replicate].
    do 4 f_equal. lia.
Qed.

(** X1.  On a [file://] URI that is not locked yet, with file locks
    enabled and a backend that grants the lock with handle [fd]: [n + 1]
    locks in a row all answer Ok with [fd] and leave the count at [n + 1];
    [n + 1] unlocks then answer Ok [n] times and last with the status of
    the backend's unlock, and leave the lock table exactly as it was before
    the first lock.  In all, the backend was asked to lock once and to
    unlock once. *)
Theorem filelock_lock_unlock_round_trip (lock fd : Z) (shared : bool)
    (w : World) (n : nat) :
  is_file (platform this) uri = true ->
  process_filelocks_ w !! to_string uri = None ->
  backend_filelock_lock (platform this) (os_calls w)
                        (to_path (platform this) uri) shared = (Ok, fd) ->
  Z.of_nat n + 1 < UINT64_MOD ->
  exists w1 w2,
    lock_times this uri lock shared (S n) w = (replicate (S n) (Ok, fd), w1)
    /\ process_filelocks_ w1 !! to_string uri = Some (Z.of_nat n + 1, fd)
    /\ os_calls w1 = os_calls w ++ [OsLock (to_path (platform this) uri) shared]
    /\ unlock_times this uri (S n) w1
       = (replicate n Ok
            ++ [backend_filelock_unlock (platform this) (os_calls w1) fd], w2)
    /\ process_filelocks_ w2 = process_filelocks_ w
    /\ os_calls w2
       = os_calls w ++ [OsLock (to_path (platform this) uri) shared; OsUnlock fd].
Proof using locks_enabled.
  intros Hfile Hnone Hbackend Hn.
  set (key := to_string uri).
  set (calls := os_calls w ++ [OsLock (to_path (platform this) uri) shared]).
  set (m := process_filelocks_ w).
  exists (mkWorld (<[key := (Z.of_nat n + 1, fd)]> m) calls),
         (mkWorld m (calls ++ [OsUnlock fd])).
  assert (Hlocks :
    lock_times this uri lock shared (S n) w
      = (replicate (S n) (Ok, fd),
         mkWorld (<[key := (Z.of_nat n + 1, fd)]> m) calls)).
  { cbn [lock_times].
    rewrite (filelock_lock_fresh this uri locks_enabled lock shared w Ok fd
               Hfile Hnone Hbackend).
    cbn [ok]. fold key m calls.
    rewrite (lock_times_held fd shared n 1 fd (<[key := (1, fd)]> m) calls)
      by (rewrite ?lookup_insert_eq; first [done | lia]).
    fold key. rewrite insert_insert_eq. cbn [replicate].
    do 4 f_equal. lia. }
  assert (Hunlocks :
    unlock_times this uri n (mkWorld (<[key := (Z.of_nat n + 1, fd)]> m) calls)
      = (replicate n Ok, mkWorld (<[key := (1, fd)]> m) calls)).
  { rewrite (unlock_times_held fd n (Z.of_nat n + 1)) by
      (rewrite ?lookup_insert_eq; first [done | lia]).
    fold key. rewrite insert_insert_eq. do 4 f_equal. lia. }
  split; [exact Hlocks|]. cbn [process_filelocks_ os_calls].
  split; [by rewrite lookup_insert_eq|].
  split; [done|]. split; [|split].
  - rewrite (unlock_times_snoc _ _ _ _ Hunlocks).
    rewrite (filelock_unlock_last (mkWorld (<[key := (1, fd)]> m) calls) fd Hfile)
      by (cbn; by rewrite lookup_insert_eq).
    cbn [fst snd process_filelocks_ os_calls].
    fold key. by rewrite delete_insert_eq, delete_id.
  - done.
  - unfold calls. by rewrite <- app_assoc.
Qed.

End LockSequences.

(** The theorem at work: three locks and three unlocks of the example URI. *)
Lemma filelock_lock_unlock_round_trip_witness :
  exists w1 w2,
    lock_times demo_vfs demo_uri INVALID_FILELOCK false 3 (mkWorld ∅ [])
      = (replicate 3 (Ok, 3), w1)
    /\ process_filelocks_ w1 !! to_string demo_uri = Some (3, 3)
    /\ os_calls w1 = [OsLock (to_string demo_uri) false]
    /\ unlock_times demo_vfs demo_uri 3 w1 = ([Ok; Ok; Ok], w2)
    /\ process_filelocks_ w2 = ∅
    /\ os_calls w2 = [OsLock (to_string demo_uri) false; OsUnlock 3].
Proof.
  exact (filelock_lock_unlock_round_trip demo_vfs demo_uri eq_refl
           INVALID_FILELOCK 3 false (mkWorld ∅ []) 2 eq_refl eq_refl eq_refl
           eq_refl).
Defined.

(** X2.  With file locks enabled, a lock on an [hdfs://] or [s3://] URI
    whose backend the build has answers Ok and records nothing; the unlock
    that follows finds no counter for the URI and answers with an error. *)
Theorem filelock_remote_lock_not_recorded (this : VFS) (uri : URI) (lock : Z)
    (shared : bool) (w : World) :
  enable_filelocks_ (file_params_ (vfs_params_ this)) = true ->
  is_file (platform this) uri = false ->
  (is_hdfs (platform this) uri = true /\ HAVE_HDFS (platform this) = true)
  \/ (is_hdfs (platform this) uri = false
      /\ is_s3 (platform this) uri = true /\ HAVE_S3 (platform this) = true) ->
  process_filelocks_ w !! to_string uri = None ->
  filelock_lock this uri lock shared w = (Ok, lock, w)
  /\ filelock_unlock this uri w
     = (VFSError ("No lock counter for URI " +:+ to_string uri), w).
Proof.
  intros Hen Hfile Hremote Hnone. destruct w as [m calls]. simpl in Hnone.
  unfold filelock_lock, filelock_unlock, decr_lock_count.
  rewrite Hen. cbn [negb process_filelocks_ os_calls]. rewrite Hnone, Hfile.
  destruct Hremote as [[-> ->] | (-> & -> & ->)]; split; reflexivity.
Qed.

(** The theorem at work: the example URI on S3. *)
Lemma filelock_remote_lock_not_recorded_witness :
  filelock_lock demo_cloud_vfs demo_s3_uri INVALID_FILELOCK false (mkWorld ∅ [])
    = (Ok, INVALID_FILELOCK, mkWorld ∅ [])
  /\ filelock_unlock demo_cloud_vfs demo_s3_uri (mkWorld ∅ [])
     = (VFSError ("No lock counter for URI " +:+ to_string demo_s3_uri),
        mkWorld ∅ []).
Proof.
  apply (filelock_remote_lock_not_recorded demo_cloud_vfs demo_s3_uri
           INVALID_FILELOCK false (mkWorld ∅ []) eq_refl eq_refl).
  - right. repeat split.
  - reflexivity.
Defined.

(** X3.  The lock table keeps every count a positive 64-bit number: an
    unlock keeps it so, a lock does unless the count is already at its
    largest value, and on such a table [decr_lock_count] never meets a
    count of zero (it answers Ok for a URI with a counter). *)
Theorem filelock_counts_stay_positive (this : VFS) (uri : URI) (lock : Z)
    (shared : bool) (w : World) :
  lock_counts_valid (process_filelocks_ w) ->
  lock_counts_valid (process_filelocks_ (filelock_unlock this uri w).2)
  /\ ((forall count fd,
         process_filelocks_ w !! to_string uri = Some (count, fd) ->
         count < UINT64_MOD - 1) ->
      lock_counts_valid (process_filelocks_ (filelock_lock this uri lock shared w).2))
  /\ (forall is_zero fd entry,
        process_filelocks_ w !! to_string uri = Some entry ->
        (decr_lock_count uri is_zero fd (process_filelocks_ w)).1.1.1 = Ok).
Proof.
  intros Hvalid. destruct w as [m calls]. cbn [process_filelocks_] in *.
  assert (Hdecr : forall is_zero fd,
            lock_counts_valid (decr_lock_count uri is_zero fd m).2
            /\ forall entry, m !! to_string uri = Some entry ->
                 (decr_lock_count uri is_zero fd m).1.1.1 = Ok).
  { intros is_zero fd. unfold decr_lock_count.
    destruct (m !! to_string uri) as [[count fd0]|] eqn:Hm; [|split; [done|]; done].
    pose proof (Hvalid _ _ Hm) as Hc. cbn [fst] in Hc.
    destruct (Z.eqb_spec count 0); [lia|].
    rewrite wrap64_small by (unfold is_u64; lia).
    destruct (Z.eqb_spec (count - 1) 0); cbn [fst snd].
    - split; [by apply map_Forall_delete|done].
    - split; [|done]. apply map_Forall_insert_2; [|done]. cbn [fst]. lia. }
  split; [|split].
  - unfold filelock_unlock.
    destruct (negb _); [done|]. cbn [process_filelocks_ os_calls].
    destruct (Hdecr false INVALID_FILELOCK) as [Hv _].
    destruct (decr_lock_count uri false INVALID_FILELOCK m) as [[[st z] fd] m'].
    cbn [snd] in Hv.
    repeat (match goal with
            | |- context [if ?b then _ else _] => destruct b
            end; try done).
  - intros Hbelow. unfold filelock_lock.
    destruct (negb _); [done|]. cbn [process_filelocks_ os_calls].
    destruct (m !! to_string uri) as [[count fd]|] eqn:Hm.
    + cbn [snd process_filelocks_].
      pose proof (Hvalid _ _ Hm) as Hc. cbn [fst] in Hc.
      pose proof (Hbelow _ _ eq_refl).
      apply map_Forall_insert_2; [|done]. cbn [fst].
      rewrite wrap64_small by (unfold is_u64; lia). lia.
    + destruct (is_file _ _).
      * destruct (backend_filelock_lock _ _ _ _) as [st fd].
        destruct (ok st); cbn [snd process_filelocks_]; [|done].
        apply map_Forall_insert_2; [|done]. cbn [fst].
        rewrite UINT64_MOD_eq. lia.
      * repeat (match goal with
                | |- context [if ?b then _ else _] => destruct b
                end; try done).
  - intros is_zero fd entry Hentry.
    by apply (proj2 (Hdecr is_zero fd) entry).
Qed.

(** The theorem at work: the example URI locked twice. *)
Lemma filelock_counts_stay_positive_witness :
  let w := mkWorld (<[to_string demo_uri := (2, 3)]> ∅) [] in
  lock_counts_valid (process_filelocks_ (filelock_unlock demo_vfs demo_uri w).2)
  /\ lock_counts_valid
       (process_filelocks_
          (filelock_lock demo_vfs demo_uri INVALID_FILELOCK false w).2).
Proof.
  intros w.
  assert (Hvalid : lock_counts_valid (process_filelocks_ w)).
  { apply map_Forall_insert_2; [|apply map_Forall_empty].
    cbn [fst]. rewrite UINT64_MOD_eq. lia. }
  pose proof (filelock_counts_stay_positive demo_vfs demo_uri INVALID_FILELOCK
                false w Hvalid) as (Hunlock & Hlock & _).
  split; [exact Hunlock|]. apply Hlock.
  intros count fd Hm. cbn in Hm. rewrite lookup_insert_eq in Hm.
  injection Hm as <- <-. rewrite UINT64_MOD_eq. lia.
Defined.

(** X4.  Locking or unlocking one URI leaves the counter of every other
    URI as it is. *)
Theorem filelock_other_uri_untouched (this : VFS) (uri other : URI) (lock : Z)
    (shared : bool) (w : World) :
  to_string other <> to_string uri ->
  process_filelocks_ (filelock_lock this uri lock shared w).2 !! to_string other
    = process_filelocks_ w !! to_string other
  /\ process_filelocks_ (filelock_unlock this uri w).2 !! to_string other
     = process_filelocks_ w !! to_string other.
Proof.
  intros Hne. destruct w as [m calls]. split.
  - unfold filelock_lock. destruct (negb _); [done|].
    cbn [process_filelocks_ os_calls].
    destruct (m !! to_string uri) as [[count fd]|].
    + cbn [snd process_filelocks_]. by rewrite lookup_insert_ne.
    + destruct (is_file _ _).
      * destruct (backend_filelock_lock _ _ _ _) as [st fd].
        destruct (ok st); cbn [snd process_filelocks_]; [|done].
        by rewrite lookup_insert_ne.
      * repeat (match goal with
                | |- context [if ?b then _ else _] => destruct b
                end; try done).
  - unfold filelock_unlock. destruct (negb _); [done|].
    cbn [process_filelocks_ os_calls].
    assert (Hdecr : (decr_lock_count uri false INVALID_FILELOCK m).2 !! to_string other
                    = m !! to_string other).
    { unfold decr_lock_count.
      destruct (m !! to_string uri) as [[count fd]|]; [|done].
      destruct (count =? 0); [done|].
      destruct (wrap64 (count - 1) =? 0); cbn [snd].
      - by rewrite lookup_delete_ne.
      - by rewrite lookup_insert_ne. }
    destruct (decr_lock_count uri false INVALID_FILELOCK m) as [[[st z] fd] m'].
    cbn [snd] in Hdecr.
    repeat (match goal with
            | |- context [if ?b then _ else _] => destruct b
            end; try done).
Qed.

(** The theorem at work: unlocking the example URI next to a locked one. *)
Lemma filelock_other_uri_untouched_witness :
  let w := mkWorld (<[to_string demo_uri := (1, 3)]>
                      (<[to_string demo_s3_uri := (5, 7)]> ∅)) [] in
  process_filelocks_ (filelock_unlock demo_vfs demo_uri w).2 !! to_string demo_s3_uri
    = Some (5, 7).
Proof.
  intros w.
  rewrite (proj2 (filelock_other_uri_untouched demo_vfs demo_uri demo_s3_uri
                    INVALID_FILELOCK false w ltac:(discriminate))).
  reflexivity.
Defined.

(** * More on reads *)

Lemma num_ops_at_least_one (this : VFS) (uri : URI) (nbytes : Z) :
  1 <= max_parallel_ops this uri -> 1 <= num_ops this uri nbytes.
Proof. unfold num_ops. lia. Qed.

Lemma num_ops_bounds (this : VFS) (uri : URI) (nbytes : Z) :
  let n := num_ops this uri nbytes in
  0 < min_parallel_size_ (vfs_params_ this) ->
  1 < n ->
  n <= max_parallel_ops this uri
  /\ n * min_parallel_size_ (vfs_params_ this) <= nbytes.
Proof.
  intros n Hmps Hn. subst n. unfold num_ops in *.
  set (mps := min_parallel_size_ (vfs_params_ this)) in *.
  split; [lia|].
  assert (Hq : Z.min (Z.max (nbytes / mps) 1) (max_parallel_ops this uri)
               <= nbytes / mps) by lia.
  pose proof (Z.mul_div_le nbytes mps Hmps). nia.
Qed.

(** The last chunk begins inside the read whenever a chunk is at least as
    long as there are chunks before the last. *)
Lemma last_chunk_begins_inside (nbytes n : Z) :
  1 < n -> n * (n - 1) <= nbytes -> (n - 1) * ceil nbytes n < nbytes.
Proof.
  intros Hn Hbig. unfold ceil. destruct (Z.eqb_spec n 0); [lia|].
  pose proof (Z.div_mod nbytes n ltac:(lia)) as Hdm.
  pose proof (Z.mod_pos_bound nbytes n ltac:(lia)) as Hr.
  assert (Hq : n - 1 <= nbytes / n) by nia.
  destruct (Z.eqb_spec (nbytes mod n) 0); nia.
Qed.

(** X5.  [read] does not split the read into chunks whenever the URI is
    served serially (an [hdfs://] URI, or one that is neither [file://] nor
    [s3://]) or the read is shorter than twice [min_parallel_size_] with at
    least one operation allowed: its result is that of one call of
    [read_impl], at the offset and of the length it was given, the data
    stored at the start of the buffer.  That call is one read of a backend
    when one serves the URI: the local one for [file://], HDFS for
    [hdfs://] in a build with HDFS, S3 for [s3://] in a build with S3. *)
Theorem read_single_operation (this : VFS) (uri : URI) (offset : Z)
    (buffer : list Byte.byte) (nbytes : Z) :
  0 < min_parallel_size_ (vfs_params_ this) ->
  0 <= nbytes ->
  (is_file (platform this) uri = false
   /\ (is_hdfs (platform this) uri = true \/ is_s3 (platform this) uri = false))
  \/ (nbytes < 2 * min_parallel_size_ (vfs_params_ this)
      /\ 1 <= max_parallel_ops this uri) ->
  read this uri offset buffer nbytes
    = (let '(st, data) := read_impl this uri offset nbytes in
       buffer' ← buffer_store buffer 0 data; Some (st, buffer'))
  /\ (is_file (platform this) uri = true ->
      read_impl this uri offset nbytes
        = local_read (platform this) (to_path (platform this) uri) offset nbytes)
  /\ (is_file (platform this) uri = false ->
      is_hdfs (platform this) uri = true -> HAVE_HDFS (platform this) = true ->
      read_impl this uri offset nbytes
        = hdfs_read (platform this) uri offset nbytes)
  /\ (is_file (platform this) uri = false ->
      is_hdfs (platform this) uri = false ->
      is_s3 (platform this) uri = true -> HAVE_S3 (platform this) = true ->
      read_impl this uri offset nbytes
        = s3_read (platform this) uri offset nbytes).
Proof.
  intros Hmps Hn Hcase.
  assert (Hone : num_ops this uri nbytes = 1).
  { unfold num_ops. destruct Hcase as [[Hfile Hserial] | [Hshort Hmax]].
    - assert (Hm : max_parallel_ops this uri = 1).
      { unfold max_parallel_ops. rewrite Hfile.
        destruct Hserial as [-> | ->]; [done|].
        by destruct (is_hdfs _ _). }
      rewrite Hm. lia.
    - assert (nbytes / min_parallel_size_ (vfs_params_ this) < 2)
        by (apply Z.div_lt_upper_bound; lia).
      pose proof (Z.div_pos nbytes _ Hn Hmps). lia. }
  split.
  - unfold read.
    destruct (Z.eqb_spec (min_parallel_size_ (vfs_params_ this)) 0); [lia|].
    rewrite Hone. reflexivity.
  - unfold read_impl. repeat split.
    + by intros ->.
    + by intros -> -> ->.
    + by intros -> -> -> ->.
Qed.

(** The theorem at work: a read of a megabyte from HDFS, in a build with
    HDFS, is one read of that backend; so is a read of two bytes of a local
    file. *)
Lemma read_single_operation_witness :
  read demo_cloud_vfs demo_hdfs_uri 0 [] 1048576
    = (let '(st, data) := hdfs_read demo_cloud_platform demo_hdfs_uri 0 1048576 in
       buffer' ← buffer_store [] 0 data; Some (st, buffer'))
  /\ read demo_wide_vfs demo_uri 0 [Byte.x00; Byte.x00] 2
     = (let '(st, data) := local_read demo_platform (to_path demo_platform demo_uri) 0 2 in
        buffer' ← buffer_store [Byte.x00; Byte.x00] 0 data; Some (st, buffer')).
Proof.
  split.
  - destruct (read_single_operation demo_cloud_vfs demo_hdfs_uri 0 [] 1048576)
      as (Hread & _ & Hhdfs & _);
      [reflexivity | discriminate
      | left; split; [reflexivity | left; reflexivity] |].
    rewrite Hread. by rewrite (Hhdfs eq_refl eq_refl eq_refl).
  - destruct (read_single_operation demo_wide_vfs demo_uri 0 [Byte.x00; Byte.x00] 2)
      as (Hread & Hlocal & _);
      [reflexivity | discriminate
      | right; split; [reflexivity | vm_compute; discriminate] |].
    rewrite Hread. by rewrite (Hlocal eq_refl).
Defined.

(** X6.  When the configured maximum of parallel operations for the URI is
    0, [read] answers Ok without reading anything: the buffer is left as it
    was. *)
Theorem read_without_operations (this : VFS) (uri : URI) (offset : Z)
    (buffer : list Byte.byte) (nbytes : Z) :
  min_parallel_size_ (vfs_params_ this) <> 0 ->
  max_parallel_ops this uri = 0 ->
  read this uri offset buffer nbytes = Some (Ok, buffer).
Proof.
  intros Hmps Hmax. unfold read.
  destruct (Z.eqb_spec (min_parallel_size_ (vfs_params_ this)) 0); [done|].
  assert (Hzero : num_ops this uri nbytes = 0) by (unfold num_ops; lia).
  unfold read_chunks. rewrite Hzero. reflexivity.
Qed.

(** The theorem at work: the example file read with no operation allowed. *)
Lemma read_without_operations_witness :
  read demo_idle_vfs demo_uri 0 [Byte.x00; Byte.x00] 2
    = Some (Ok, [Byte.x00; Byte.x00]).
Proof.
  apply (read_without_operations demo_idle_vfs demo_uri 0 [Byte.x00; Byte.x00] 2);
    [discriminate | reflexivity].
Defined.

Lemma read_chunks_tile_config (this : VFS) (uri : URI) (offset nbytes : Z) :
  0 < min_parallel_size_ (vfs_params_ this) ->
  max_parallel_ops this uri - 1 <= min_parallel_size_ (vfs_params_ this) ->
  1 < num_ops this uri nbytes ->
  0 <= offset /\ offset + nbytes <= UINT64_MOD ->
  nbytes + num_ops this uri nbytes <= UINT64_MOD ->
  chunks_tile 0 (read_chunks this uri offset nbytes) (nbytes - 1) = true
  /\ forallb (chunk_reads_own_range offset) (read_chunks this uri offset nbytes) = true
  /\ Z.of_nat (length (read_chunks this uri offset nbytes))
     = num_ops this uri nbytes.
Proof.
  intros Hmps Hmax Hn Hoff Hrange.
  destruct (num_ops_bounds this uri nbytes Hmps Hn) as [Hle Hmul].
  assert (Hbig : num_ops this uri nbytes * (num_ops this uri nbytes - 1) <= nbytes)
    by nia.
  apply read_chunks_tile; try done.
  - nia.
  - by apply last_chunk_begins_inside.
Qed.

(** X7.  When [min_parallel_size_] is at least the maximum of parallel
    operations less one, the chunks of a parallel read are contiguous and
    disjoint, cover exactly the bytes 0 to [nbytes - 1], and each reads its
    own range; there is one chunk per operation. *)
Theorem read_chunks_tile_large_chunks (this : VFS) (uri : URI) (offset nbytes : Z) :
  let n := num_ops this uri nbytes in
  0 < min_parallel_size_ (vfs_params_ this) ->
  max_parallel_ops this uri - 1 <= min_parallel_size_ (vfs_params_ this) ->
  1 < n ->
  0 <= offset /\ offset + nbytes <= UINT64_MOD ->
  nbytes + n <= UINT64_MOD ->
  chunks_tile 0 (read_chunks this uri offset nbytes) (nbytes - 1) = true
  /\ forallb (chunk_reads_own_range offset) (read_chunks this uri offset nbytes) = true
  /\ Z.of_nat (length (read_chunks this uri offset nbytes)) = n.
Proof.
  intros n Hmps Hmax Hn Hoff Hrange.
  exact (read_chunks_tile_config this uri offset nbytes Hmps Hmax Hn Hoff Hrange).
Qed.

(** The theorem at work: twelve bytes in three chunks of four. *)
Lemma read_chunks_tile_large_chunks_witness :
  num_ops demo_wide_vfs demo_uri 12 = 3
  /\ chunks_tile 0 (read_chunks demo_wide_vfs demo_uri 100 12) 11 = true.
Proof.
  split; [reflexivity|].
  apply (read_chunks_tile_large_chunks demo_wide_vfs demo_uri 100 12);
    vm_compute; first [reflexivity | discriminate | split; discriminate].
Defined.

Lemma run_chunks_statuses (this : VFS) (uri : URI) (chunks : list ReadChunk) :
  forall buffer sts buffer',
    run_chunks this uri chunks buffer = Some (sts, buffer') ->
    sts = map (fun c => (read_impl this uri (thread_offset c) (thread_nbytes c)).1)
              chunks.
Proof.
  induction chunks as [|c rest IH]; intros buffer sts buffer' Hrun.
  - simpl in Hrun. by injection Hrun as <- <-.
  - cbn [run_chunks] in Hrun.
    destruct (read_impl this uri (thread_offset c) (thread_nbytes c))
      as [st data] eqn:Himpl.
    destruct (buffer_store buffer (chunk_begin c) data) as [b1|]; [|done].
    cbn in Hrun.
    destruct (run_chunks this uri rest b1) as [[sts' b2]|] eqn:Hrest; [|done].
    cbn in Hrun. injection Hrun as <- <-.
    cbn [map]. rewrite Himpl. cbn [fst]. f_equal. by eapply IH.
Qed.

Lemma wait_all_all_ok (results : list Status) :
  Forall (fun st => ok st = true) results -> wait_all results = Ok.
Proof.
  intros Hall. unfold wait_all.
  replace (filter (fun st => ok st = false) results) with (@nil Status); [done|].
  symmetry. induction Hall as [|st l Hst _ IH]; [done|].
  rewrite filter_cons. destruct (decide (ok st = false)); [congruence|done].
Qed.

Lemma wait_all_first_failure (pre : list Status) (st : Status) (post : list Status) :
  Forall (fun st => ok st = true) pre -> ok st = false ->
  wait_all (pre ++ st :: post) = st.
Proof.
  intros Hpre Hst. unfold wait_all. rewrite filter_app.
  replace (filter (fun st => ok st = false) pre) with (@nil Status).
  - rewrite filter_cons. by destruct (decide (ok st = false)).
  - symmetry. induction Hpre as [|s l Hs _ IH]; [done|].
    rewrite filter_cons. destruct (decide (ok s = false)); [congruence|done].
Qed.

(** X8.  A read that is split into chunks answers Ok when every chunk's
    backend read answered Ok; otherwise it answers with a VFSError whose
    message names the URI and carries the message of the first chunk, in
    chunk order, that failed, whatever kind of error that chunk gave. *)
Theorem read_parallel_status (this : VFS) (uri : URI) (offset : Z)
    (buffer : list Byte.byte) (nbytes : Z) (st : Status) (buffer' : list Byte.byte) :
  num_ops this uri nbytes <> 1 ->
  read this uri offset buffer nbytes = Some (st, buffer') ->
  (Forall (fun s => ok s = true) (chunk_statuses this uri offset nbytes) -> st = Ok)
  /\ (forall pre failed post,
        chunk_statuses this uri offset nbytes = pre ++ failed :: post ->
        Forall (fun s => ok s = true) pre ->
        ok failed = false ->
        st = VFSError ("VFS parallel read error '" +:+ to_string uri +:+ "'; "
                       +:+ message failed)).
Proof.
  intros Hops Hread. unfold read in Hread.
  destruct (min_parallel_size_ (vfs_params_ this) =? 0); [done|].
  destruct (Z.eqb_spec (num_ops this uri nbytes) 1); [done|].
  destruct (run_chunks this uri (read_chunks this uri offset nbytes) buffer)
    as [[results b1]|] eqn:Hrun; [|done].
  cbn in Hread. apply run_chunks_statuses in Hrun.
  fold (chunk_statuses this uri offset nbytes) in Hrun. subst results.
  split.
  - intros Hall. rewrite (wait_all_all_ok _ Hall) in Hread.
    cbn in Hread. by injection Hread as <- _.
  - intros pre failed post Heq Hpre Hfailed.
    rewrite Heq, (wait_all_first_failure _ _ _ Hpre Hfailed), Hfailed in Hread.
    cbn in Hread. by injection Hread as <- _.
Qed.

(** The theorem at work: five bytes of the example file in four chunks, of
    which the last, out of range, fails. *)
Lemma read_parallel_status_witness :
  exists st buffer',
    read demo_vfs demo_uri 100 (replicate 5 Byte.x00) 5 = Some (st, buffer')
    /\ chunk_statuses demo_vfs demo_uri 100 5
       = [Ok; Ok; Ok; IOError "Cannot read past the end of the file"]
    /\ st = VFSError ("VFS parallel read error '" +:+ to_string demo_uri +:+ "'; "
                      +:+ "Cannot read past the end of the file").
Proof.
  assert (Hread : read demo_vfs demo_uri 100 (replicate 5 Byte.x00) 5
                  = Some (VFSError ("VFS parallel read error '" +:+ to_string demo_uri
                                    +:+ "'; " +:+ "Cannot read past the end of the file"),
                          [Byte.x61; Byte.x62; Byte.x61; Byte.x62; Byte.x61]))
    by (vm_compute; reflexivity).
  eexists _, _. split; [exact Hread|]. split; [vm_compute; reflexivity|].
  apply (proj2 (read_parallel_status demo_vfs demo_uri 100 (replicate 5 Byte.x00) 5
                  _ _ ltac:(discriminate) Hread)
           [Ok; Ok; Ok] (IOError "Cannot read past the end of the file") []);
    [vm_compute; reflexivity | repeat constructor | reflexivity].
Defined.

(** ** Reading a file in chunks *)

Lemma file_bytes_length (content : list Byte.byte) (offset nbytes : Z) :
  0 <= offset -> 0 <= nbytes -> offset + nbytes <= Z.of_nat (length content) ->
  length (file_bytes content offset nbytes) = Z.to_nat nbytes.
Proof.
  intros Ho Hn Hlen. unfold file_bytes. rewrite length_take, length_drop. lia.
Qed.

Lemma file_bytes_app (content : list Byte.byte) (offset n1 n2 : Z) :
  0 <= offset -> 0 <= n1 -> 0 <= n2 ->
  file_bytes content offset n1 ++ file_bytes content (offset + n1) n2
    = file_bytes content offset (n1 + n2).
Proof.
  intros Ho H1 H2. unfold file_bytes.
  rewrite (Z2Nat.inj_add offset n1), (Z2Nat.inj_add n1 n2) by lia.
  rewrite <- take_take_drop, drop_drop. reflexivity.
Qed.

Lemma buffer_store_inside (buffer : list Byte.byte) (pos : Z) (data : list Byte.byte) :
  (0 < length data)%nat ->
  0 <= pos ->
  pos + Z.of_nat (length data) <= Z.of_nat (length buffer) ->
  buffer_store buffer pos data
    = Some (take (Z.to_nat pos) buffer ++ data
            ++ drop (Z.to_nat pos + length data) buffer).
Proof.
  intros Hdata Hpos Hfit. destruct data as [|d data]; [simpl in Hdata; lia|].
  unfold buffer_store. by rewrite decide_True.
Qed.

Lemma chunks_tile_ends (chunks : list ReadChunk) :
  forall b last, chunks_tile b chunks last = true -> b <= last + 1.
Proof.
  induction chunks as [|c rest IH]; intros b last Htile; simpl in Htile.
  - lia.
  - apply andb_prop in Htile as [Hc Hrest]. apply andb_prop in Hc as [Hb Hle].
    apply IH in Hrest. lia.
Qed.

(** Chunks that tile the bytes [b] to [last] of a read, run one after the
    other on a backend that holds the file, fill the buffer from [b] to
    [last] with the file's bytes and leave the rest of it alone. *)
Lemma run_chunks_tiled (this : VFS) (uri : URI) (content : list Byte.byte)
    (offset last : Z) (chunks : list ReadChunk) :
  serves this uri content ->
  0 <= offset ->
  offset + last + 1 <= Z.of_nat (length content) ->
  forall (b : Z) (buffer : list Byte.byte),
    0 <= b ->
    last + 1 <= Z.of_nat (length buffer) ->
    chunks_tile b chunks last = true ->
    forallb (chunk_reads_own_range offset) chunks = true ->
    run_chunks this uri chunks buffer
      = Some (replicate (length chunks) Ok,
              take (Z.to_nat b) buffer
                ++ file_bytes content (offset + b) (last + 1 - b)
                ++ drop (Z.to_nat (last + 1)) buffer).
Proof.
  intros Hserves Hoff Hfile.
  induction chunks as [|c rest IH]; intros b buffer Hb Hbuf Htile Hown.
  - simpl in Htile. apply Z.eqb_eq in Htile. subst b.
    rewrite Z.sub_diag. unfold file_bytes. cbn [run_chunks length replicate].
    rewrite take_0, app_nil_l, take_drop. reflexivity.
  - cbn [chunks_tile forallb] in Htile, Hown.
    apply andb_prop in Htile as [Hc Hrest]. apply andb_prop in Hc as [Hbegin Hle].
    apply andb_prop in Hown as [Hc Hown]. unfold chunk_reads_own_range in Hc.
    apply andb_prop in Hc as [Hto Htn].
    apply Z.eqb_eq in Hbegin, Hto, Htn. apply Z.leb_le in Hle.
    pose proof (chunks_tile_ends _ _ _ Hrest) as Hend.
    destruct c as [cb ce tn to]. cbn [chunk_begin chunk_end thread_nbytes thread_offset] in *.
    subst cb tn to.
    cbn [run_chunks chunk_begin chunk_end thread_nbytes thread_offset].
    rewrite (Hserves (offset + b) (ce - b + 1)) by lia.
    pose proof (file_bytes_length content (offset + b) (ce - b + 1)
                  ltac:(lia) ltac:(lia) ltac:(lia)) as Hlen.
    set (data := file_bytes content (offset + b) (ce - b + 1)) in *.
    assert (Hstore : buffer_store buffer b data
                     = Some (take (Z.to_nat b) buffer ++ data
                             ++ drop (Z.to_nat (ce + 1)) buffer)).
    { rewrite buffer_store_inside by lia. do 4 f_equal. lia. }
    rewrite Hstore. cbn [mbind option_bind].
    set (buffer1 := take (Z.to_nat b) buffer ++ data ++ drop (Z.to_nat (ce + 1)) buffer).
    assert (Hlen1 : length buffer1 = length buffer).
    { unfold buffer1. rewrite !length_app, length_take, length_drop. lia. }
    rewrite (IH (ce + 1) buffer1) by (rewrite ?Hlen1; first [done | lia]).
    cbn [mbind option_bind length replicate]. do 2 f_equal.
    assert (Htake : take (Z.to_nat (ce + 1)) buffer1 = take (Z.to_nat b) buffer ++ data).
    { unfold buffer1. rewrite app_assoc.
      apply take_app_length'. rewrite length_app, length_take. lia. }
    assert (Hdrop : drop (Z.to_nat (last + 1)) buffer1
                    = drop (Z.to_nat (last + 1)) buffer).
    { unfold buffer1. rewrite app_assoc.
      replace (Z.to_nat (last + 1))
        with (length (take (Z.to_nat b) buffer ++ data) + Z.to_nat (last - ce))%nat
        by (rewrite length_app, length_take; lia).
      rewrite drop_app_add, drop_drop. f_equal.
      rewrite length_app, length_take. lia. }
    rewrite Htake, Hdrop, <- !app_assoc. f_equal. rewrite app_assoc. f_equal.
    unfold data.
    replace (offset + (ce + 1)) with (offset + b + (ce - b + 1)) by lia.
    replace (last + 1 - (ce + 1)) with (last - ce) by lia.
    rewrite file_bytes_app by lia. f_equal. lia.
Qed.

(** A read inside a file that the backend holds delivers the file's bytes,
    in one operation or in chunks that tile the read. *)
Lemma read_serves_file (this : VFS) (uri : URI) (content : list Byte.byte)
    (offset : Z) (buffer : list Byte.byte) (nbytes : Z) :
  serves this uri content ->
  0 < min_parallel_size_ (vfs_params_ this) ->
  1 <= max_parallel_ops this uri ->
  max_parallel_ops this uri - 1 <= min_parallel_size_ (vfs_params_ this) ->
  Z.of_nat (length content) + max_parallel_ops this uri <= UINT64_MOD ->
  0 <= offset -> 1 <= nbytes ->
  offset + nbytes <= Z.of_nat (length content) ->
  nbytes <= Z.of_nat (length buffer) ->
  read this uri offset buffer nbytes
    = Some (Ok, file_bytes content offset nbytes ++ drop (Z.to_nat nbytes) buffer).
Proof.
  intros Hserves Hmps Hmax1 Hmax Hsize Hoff Hn Hfile Hbuf.
  pose proof (num_ops_at_least_one this uri nbytes Hmax1) as Hops.
  unfold read.
  destruct (Z.eqb_spec (min_parallel_size_ (vfs_params_ this)) 0); [lia|].
  destruct (Z.eqb_spec (num_ops this uri nbytes) 1) as [Hone|Hmany].
  - rewrite (Hserves offset nbytes) by lia.
    pose proof (file_bytes_length content offset nbytes
                  ltac:(lia) ltac:(lia) ltac:(lia)) as Hlen.
    rewrite buffer_store_inside by lia.
    cbn [mbind option_bind]. rewrite take_0, app_nil_l, Hlen. reflexivity.
  - assert (Hlt : 1 < num_ops this uri nbytes) by lia.
    destruct (num_ops_bounds this uri nbytes Hmps Hlt) as [Hle _].
    destruct (read_chunks_tile_config this uri offset nbytes Hmps Hmax Hlt
                ltac:(lia) ltac:(lia)) as (Htile & Hown & Hcount).
    rewrite (run_chunks_tiled this uri content offset (nbytes - 1) _ Hserves Hoff
               ltac:(lia) 0 buffer ltac:(lia) ltac:(lia) Htile Hown).
    cbn [mbind option_bind].
    rewrite wait_all_all_ok by (apply Forall_replicate; reflexivity).
    cbn [ok negb]. rewrite take_0, app_nil_l.
    rewrite Z.add_0_r. replace (nbytes - 1 + 1 - 0) with nbytes by lia.
    replace (nbytes - 1 + 1) with nbytes by lia. reflexivity.
Qed.


(** The example platform holds [demo_content] behind every [file://] URI. *)
Lemma demo_serves (params : VFSParams) :
  serves (mkVFS demo_platform params) demo_uri demo_content.
Proof.
  intros offset nbytes Hoff Hn Hlen.
  assert (Hsize : Z.of_nat (length demo_content) = 4096) by (vm_compute; reflexivity).
  rewrite Hsize in Hlen.
  change (read_impl (mkVFS demo_platform params) demo_uri offset nbytes)
    with (demo_read offset nbytes).
  unfold demo_read. destruct (Z.leb_spec (offset + nbytes) 4096); [|lia].
  f_equal. unfold file_bytes, demo_content.
  replace 4096 with (offset + (nbytes + (4096 - offset - nbytes))) by lia.
  rewrite (seqZ_app 0 offset), (seqZ_app (0 + offset) nbytes) by lia.
  rewrite !map_app.
  rewrite drop_app_length' by (rewrite length_map, length_seqZ; lia).
  rewrite take_app_length' by (rewrite length_map, length_seqZ; lia).
  rewrite (Z.add_comm 0 offset), <- (fmap_add_seqZ offset 0 nbytes).
  change (Z.add offset <$> seqZ 0 nbytes) with (map (Z.add offset) (seqZ 0 nbytes)).
  rewrite map_map. reflexivity.
Qed.


Lemma chunks_tile_begin_le_end (chunks : list ReadChunk) :
  forall b last,
    chunks_tile b chunks last = true ->
    Forall (fun c => chunk_begin c <= chunk_end c) chunks.
Proof.
  induction chunks as [|c rest IH]; intros b last Htile; [constructor|].
  cbn [chunks_tile] in Htile.
  apply andb_prop in Htile as [Hc Hrest]. apply andb_prop in Hc as [_ Hle].
  constructor; [by apply Z.leb_le | by eapply IH].
Qed.

(** X10.  The chunks of a parallel read tile the bytes 0 to [nbytes - 1]
    exactly when the last chunk begins inside the read, that is when
    [(num_ops - 1) * ceil (nbytes, num_ops) < nbytes]; otherwise the last
    chunk begins at or beyond [nbytes] and ends before it begins. *)
Theorem read_chunks_tile_iff (this : VFS) (uri : URI) (offset nbytes : Z) :
  let n := num_ops this uri nbytes in
  1 < n ->
  1 <= nbytes ->
  0 <= offset /\ offset + nbytes <= UINT64_MOD ->
  nbytes + n <= UINT64_MOD ->
  chunks_tile 0 (read_chunks this uri offset nbytes) (nbytes - 1) = true
  <-> (n - 1) * ceil nbytes n < nbytes.
Proof.
  intros n Hn Hnbytes Hoff Hrange. split.
  - intros Htile.
    destruct (Z.lt_ge_cases ((n - 1) * ceil nbytes n) nbytes) as [|Hbeyond]; [done|].
    exfalso. apply chunks_tile_begin_le_end in Htile.
    rewrite Forall_forall in Htile.
    pose proof (ceil_bounds nbytes n ltac:(lia) ltac:(lia)) as Hc.
    pose proof (ceil_positive nbytes n ltac:(lia) ltac:(lia)) as Hp.
    specialize (Htile (read_chunk offset nbytes (ceil nbytes n) (n - 1))).
    unfold read_chunks in Htile. fold n in Htile.
    assert (Hin : read_chunk offset nbytes (ceil nbytes n) (n - 1)
                  ∈ map (read_chunk offset nbytes (ceil nbytes n)) (seqZ 0 n)).
    { apply list_elem_of_In, in_map, list_elem_of_In, elem_of_seqZ. lia. }
    specialize (Htile Hin). unfold read_chunk in Htile.
    cbn [chunk_begin chunk_end] in Htile.
    rewrite (wrap64_small ((n - 1) * ceil nbytes n)) in Htile
      by (unfold is_u64; nia).
    rewrite (wrap64_small (nbytes - 1)) in Htile by (unfold is_u64; lia).
    lia.
  - intros Hinside. by apply read_chunks_tile.
Qed.

(** The theorem at work: five bytes in four chunks do not tile, twelve
    bytes in three chunks do. *)
Lemma read_chunks_tile_iff_witness :
  chunks_tile 0 (read_chunks demo_vfs demo_uri 100 5) (5 - 1) = false
  /\ chunks_tile 0 (read_chunks demo_wide_vfs demo_uri 100 12) (12 - 1) = true.
Proof.
  split.
  - apply not_true_is_false. intros Htile.
    apply (read_chunks_tile_iff demo_vfs demo_uri 100 5) in Htile;
      vm_compute in Htile |- *; first [done | by split].
  - apply (read_chunks_tile_iff demo_wide_vfs demo_uri 100 12);
      vm_compute; first [done | by split].
Defined.

(** * More on batched reads *)

Lemma batching_nonempty (this : VFS) (l : list Region) (bs : list BatchedRead.t) :
  batching this l bs -> bs <> [] /\ (length bs <= length l)%nat.
Proof.
  induction 1 as [r | l bs b r Hb IH Hm | l bs b r Hb IH Hm].
  - split; [done | simpl; lia].
  - destruct IH as [_ IH]. rewrite !length_app in *. cbn [length] in *.
    split; [by destruct bs | lia].
  - destruct IH as [_ IH]. rewrite !length_app in *. cbn [length] in *.
    split; [by destruct bs | lia].
Qed.

Lemma first_regions_sorted (bs : list BatchedRead.t) :
  Forall (fun b => exists r rs, BatchedRead.regions b = r :: rs
                                /\ BatchedRead.offset b = get_0 r) bs ->
  StronglySorted (fun a b => get_0 a <= get_0 b)
                 (concat (map BatchedRead.regions bs)) ->
  StronglySorted (fun a b => BatchedRead.offset a <= BatchedRead.offset b) bs.
Proof.
  induction 1 as [|b bs (r & rs & Hrs & Ho) Hbs IH]; intros Hsorted; [constructor|].
  cbn [map concat] in Hsorted. rewrite Hrs in Hsorted.
  change ((r :: rs) ++ concat (map BatchedRead.regions bs))
    with (r :: (rs ++ concat (map BatchedRead.regions bs))) in Hsorted.
  apply StronglySorted_cons in Hsorted as [Hle Hsorted].
  apply StronglySorted_app in Hsorted as (_ & _ & Hrest).
  constructor; [by apply IH|].
  apply Forall_forall. intros b' Hb'.
  rewrite Forall_forall in Hbs. destruct (Hbs b' Hb') as (r' & rs' & Hrs' & Ho').
  rewrite Ho, Ho'. rewrite Forall_forall in Hle. apply Hle.
  apply elem_of_app. right. apply list_elem_of_In, in_concat.
  exists (BatchedRead.regions b'). split.
  - apply in_map. by apply list_elem_of_In.
  - rewrite Hrs'. by left.
Qed.

(** X11.  Whatever vector it is given, [compute_read_batches] appends at
    least one batch and at most one per region, leaves the batches already
    there alone, puts at least one region in every batch, gives every batch
    the offset of its first region, and produces the batches in order of
    offset. *)
Theorem compute_read_batches_shape (this : VFS) (regions : list Region)
    (batches : list BatchedRead.t) :
  regions <> [] ->
  sort_contract this ->
  exists bs,
    compute_read_batches this regions batches = Some (Ok, batches ++ bs)
    /\ bs <> []
    /\ (length bs <= length regions)%nat
    /\ Forall (fun b => exists r rs, BatchedRead.regions b = r :: rs
                                     /\ BatchedRead.offset b = get_0 r) bs
    /\ StronglySorted (fun a b => BatchedRead.offset a <= BatchedRead.offset b) bs.
Proof.
  intros Hne Hsort.
  destruct (compute_read_batches_batching this regions batches Hne Hsort)
    as (bs & Hrun & Hbatching).
  destruct (Hsort regions) as [Hperm Hsorted].
  destruct (batching_nonempty _ _ _ Hbatching) as [Hbs Hlen].
  pose proof (batching_first_region _ _ _ Hbatching) as Hfirst.
  exists bs. repeat split; try done.
  - by rewrite <- (Permutation_length Hperm).
  - apply first_regions_sorted; [done|].
    by rewrite (batching_concat _ _ _ Hbatching).
Qed.

(** The theorem at work: four regions in three batches, after a batch that
    was in the vector before. *)
Lemma compute_read_batches_shape_witness :
  exists bs,
    compute_read_batches demo_vfs
      [(200, 1000, 10); (0, 2000, 10); (12, 3000, 4); (100, 4000, 8)]
      [BatchedRead.mk 7 7 []]
      = Some (Ok, BatchedRead.mk 7 7 [] :: bs)
    /\ length bs = 3%nat
    /\ StronglySorted (fun a b => BatchedRead.offset a <= BatchedRead.offset b) bs.
Proof.
  destruct (compute_read_batches_shape demo_vfs
              [(200, 1000, 10); (0, 2000, 10); (12, 3000, 4); (100, 4000, 8)]
              [BatchedRead.mk 7 7 []] ltac:(discriminate) demo_sort_contract)
    as (bs & Hrun & _ & _ & _ & Hsorted).
  exists bs. split; [exact Hrun|]. split; [|exact Hsorted].
  vm_compute in Hrun. injection Hrun as <-. reflexivity.
Defined.

Lemma fold_batch_step_contiguous (this : VFS) :
  0 <= min_batch_gap_ (vfs_params_ this) ->
  forall (rest : list Region) (prev : Region) (o n u : Z)
         (rs : list Region) (out : list BatchedRead.t),
    0 <= o -> 0 <= n ->
    get_0 prev + get_2 prev = o + n ->
    Forall region_in_range rest ->
    contiguous (prev :: rest) ->
    let st := fold_left (batch_step this) rest
                (mkBatchLoop (BatchedRead.mk o n rs) u out) in
    curr_batch st = BatchedRead.mk o (n + total_bytes rest) (rs ++ rest)
    /\ batches_out st = out.
Proof.
  intros Hgap. induction rest as [|r rest IH];
    intros prev o n u rs out Ho Hn Hprev Hrange Hchain.
  - simpl. by rewrite Z.add_0_r, app_nil_r.
  - apply Forall_cons_1 in Hrange as [(Hr0 & Hr2 & Hr) Hrange].
    change (get_0 r = get_0 prev + get_2 prev /\ contiguous (r :: rest)) in Hchain.
    destruct Hchain as [Hnext Hchain].
    assert (Hspan : wrap64 (get_0 r + get_2 r - o) = n + get_2 r).
    { replace (get_0 r + get_2 r - o) with (n + get_2 r) by lia.
      apply wrap64_small. unfold is_u64. lia. }
    assert (Hmerges : merges this (BatchedRead.mk o n rs) r = true).
    { unfold merges.
      cbn [BatchedRead.offset BatchedRead.nbytes BatchedRead.regions].
      replace (get_0 r - (o + n)) with 0 by lia. change (wrap64 0) with 0.
      apply orb_true_iff. right. by apply Z.leb_le. }
    cbn [fold_left].
    rewrite (batch_step_merges this
               (mkBatchLoop (BatchedRead.mk o n rs) u out) r Hmerges).
    unfold extend.
    cbn [curr_batch curr_batch_useful_bytes batches_out
         BatchedRead.offset BatchedRead.nbytes BatchedRead.regions].
    rewrite Hspan.
    destruct (IH r o (n + get_2 r) (wrap64 (u + get_2 r)) (rs ++ [r]) out
                ltac:(lia) ltac:(lia) ltac:(lia) Hrange Hchain) as [Hcurr Hout].
    split; [|exact Hout]. rewrite Hcurr. cbn [total_bytes foldr].
    fold (total_bytes rest). rewrite <- app_assoc. f_equal. lia.
Qed.

(** X12.  Regions that, in order of offset, each begin exactly where the
    one before ends are always read as one batch, whatever
    [min_batch_size_] and [min_batch_gap_] are: the batch begins at the
    first region, is as long as all of them together, and holds them all. *)
Theorem contiguous_regions_one_batch (this : VFS) (regions : list Region)
    (first : Region) (rest : list Region) :
  0 <= min_batch_gap_ (vfs_params_ this) ->
  parallel_sort (platform this) region_offset_lt regions = first :: rest ->
  Forall region_in_range (first :: rest) ->
  contiguous (first :: rest) ->
  compute_read_batches this regions []
    = Some (Ok, [BatchedRead.mk (get_0 first) (total_bytes (first :: rest))
                                (first :: rest)]).
Proof.
  intros Hgap Hsorted Hrange Hchain. unfold compute_read_batches.
  rewrite Hsorted.
  apply Forall_cons_1 in Hrange as [(Hf0 & Hf2 & Hf) Hrange].
  destruct (fold_batch_step_contiguous this Hgap rest first (get_0 first)
              (get_2 first) (get_2 first) [first] [] Hf0 Hf2 eq_refl Hrange Hchain)
    as [Hcurr Hout].
  unfold BatchedRead.of_region. rewrite Hcurr, Hout. reflexivity.
Qed.

(** The theorem at work: three regions of 100 bytes in a row, far larger
    together than [min_batch_size_]. *)
Lemma contiguous_regions_one_batch_witness :
  compute_read_batches demo_vfs [(200, 3000, 100); (0, 1000, 100); (100, 2000, 100)] []
    = Some (Ok, [BatchedRead.mk 0 300
                   [(0, 1000, 100); (100, 2000, 100); (200, 3000, 100)]]).
Proof.
  apply (contiguous_regions_one_batch demo_vfs
           [(200, 3000, 100); (0, 1000, 100); (100, 2000, 100)]
           (0, 1000, 100) [(100, 2000, 100); (200, 3000, 100)]).
  - discriminate.
  - reflexivity.
  - repeat constructor; vm_compute; congruence.
  - repeat split.
Defined.

(** ** Reading all regions of a file *)

Lemma dest_disjoint_sym (a b : Region) : dest_disjoint a b -> dest_disjoint b a.
Proof. unfold dest_disjoint. lia. Qed.

Lemma pairwise_dest_disjoint_perm (l l' : list Region) :
  l ≡ₚ l' -> pairwise_dest_disjoint l -> pairwise_dest_disjoint l'.
Proof.
  induction 1 as [|x l l' Hp IH|x y l|l l' l'' _ IH1 _ IH2]; simpl.
  - done.
  - intros [Hx Hl]. split; [by rewrite <- Hp | auto].
  - intros [Hy [Hx Hl]]. apply Forall_cons_1 in Hy as [Hyx Hy].
    repeat split; try done. constructor; [|done]. by apply dest_disjoint_sym.
  - auto.
Qed.

Lemma pairwise_dest_disjoint_app (l1 l2 : list Region) :
  pairwise_dest_disjoint (l1 ++ l2) ->
  pairwise_dest_disjoint l1 /\ pairwise_dest_disjoint l2
  /\ forall a b, a ∈ l1 -> b ∈ l2 -> dest_disjoint a b.
Proof.
  induction l1 as [|x l1 IH]; simpl.
  - intros H. repeat split; try done. intros a b Ha. by apply elem_of_nil in Ha.
  - intros [Hx Hrest]. apply Forall_app in Hx as [Hx1 Hx2].
    destruct (IH Hrest) as (H1 & H2 & Hcross). repeat split; try done.
    intros a b Ha Hb. apply elem_of_cons in Ha as [-> | Ha]; [|by apply Hcross].
    rewrite Forall_forall in Hx2. by apply Hx2.
Qed.

Lemma dest_disjoint_not_in_dest (a b : Region) (j : Z) :
  dest_disjoint a b -> 0 <= j < get_2 a -> ~ in_dest b (get_1 a + j).
Proof. unfold dest_disjoint, in_dest. lia. Qed.

Lemma file_bytes_lookup (content : list Byte.byte) (offset nbytes j : Z) :
  0 <= offset -> 0 <= j < nbytes ->
  file_bytes content offset nbytes !! Z.to_nat j = content !! Z.to_nat (offset + j).
Proof.
  intros Ho Hj. unfold file_bytes.
  rewrite lookup_take_lt, lookup_drop by lia. f_equal. lia.
Qed.

(** Every batch of a chain of regions ends where one of its regions ends. *)
Lemma batching_ends (this : VFS) (l : list Region) (bs : list BatchedRead.t) :
  batching this l bs ->
  Forall region_in_range l ->
  StronglySorted (fun a b => get_0 a + get_2 a <= get_0 b) l ->
  Forall (fun b => exists r, r ∈ BatchedRead.regions b
                             /\ r ∈ l
                             /\ BatchedRead.offset b + BatchedRead.nbytes b
                                = get_0 r + get_2 r) bs.
Proof.
  induction 1 as [r | l bs b r Hb IH Hm | l bs b r Hb IH Hm]; intros Hr Hc.
  - repeat constructor. exists r. simpl. repeat split; try lia; apply list_elem_of_here.
  - pose proof (batching_spans this _ _ (batching_merge this l bs b r Hb Hm) Hr Hc)
      as [_ Hlast].
    destruct (Hlast bs (extend b r) eq_refl) as (l0 & r' & Heq & Hend & _).
    apply app_inj_tail in Heq as [_ <-].
    apply Forall_app in Hr as [Hrl _].
    apply StronglySorted_app in Hc as (_ & Hcl & _).
    specialize (IH Hrl Hcl). apply Forall_app in IH as [IH _].
    apply Forall_app. split.
    + eapply Forall_impl; [exact IH|]. intros b0 (r0 & H1 & H2 & H3).
      exists r0. repeat split; try done. apply elem_of_app. by left.
    + repeat constructor. exists r. repeat split; try done.
      * unfold extend. simpl. apply elem_of_app. right. apply list_elem_of_here.
      * apply elem_of_app. right. apply list_elem_of_here.
  - apply Forall_app in Hr as [Hrl Hrr].
    apply StronglySorted_app in Hc as (_ & Hcl & _).
    specialize (IH Hrl Hcl).
    replace (bs ++ [b; BatchedRead.of_region r])
      with ((bs ++ [b]) ++ [BatchedRead.of_region r])
      by (rewrite <- app_assoc; reflexivity).
    apply Forall_app. split.
    + eapply Forall_impl; [exact IH|]. intros b0 (r0 & H1 & H2 & H3).
      exists r0. repeat split; try done. apply elem_of_app. by left.
    + repeat constructor. exists r. simpl. repeat split; try lia.
      * apply list_elem_of_here.
      * apply elem_of_app. right. apply list_elem_of_here.
Qed.

Section ReadAllDelivers.

Variable this : VFS.
Variable uri : URI.
Variable content : list Byte.byte.

Hypothesis file_served : serves this uri content.
Hypothesis realloc_ok : forall n, buffer_realloc (platform this) n = Ok.
Hypothesis chunk_size : 0 < min_parallel_size_ (vfs_params_ this).
Hypothesis some_ops : 1 <= max_parallel_ops this uri.
Hypothesis large_chunks :
  max_parallel_ops this uri - 1 <= min_parallel_size_ (vfs_params_ this).
Hypothesis file_size_in_range :
  Z.of_nat (length content) + max_parallel_ops this uri <= UINT64_MOD.

Lemma run_task_delivers (b : BatchedRead.t) (mem : gmap Z Byte.byte) :
  good_batch content b ->
  pairwise_dest_disjoint (BatchedRead.regions b) ->
  exists mem',
    run_task this (mkTask uri b) mem = Some (Ok, mem')
    /\ (forall a, (forall r, r ∈ BatchedRead.regions b -> ~ in_dest r a) ->
                  mem' !! a = mem !! a)
    /\ (forall r j, r ∈ BatchedRead.regions b -> 0 <= j < get_2 r ->
                    mem' !! (get_1 r + j) = content !! Z.to_nat (get_0 r + j)).
Proof using All.
  intros (Ho & Hn & Hend & Hspan) Hdisjoint.
  unfold run_task. cbn [batch_copy uri_copy]. rewrite realloc_ok. cbn [ok negb].
  rewrite (read_serves_file this uri content (BatchedRead.offset b) _
             (BatchedRead.nbytes b) file_served chunk_size some_ops large_chunks
             file_size_in_range Ho Hn Hend)
    by (rewrite length_replicate; lia).
  cbn [mbind option_bind ok negb].
  rewrite drop_replicate, Nat.sub_diag. cbn [replicate]. rewrite app_nil_r.
  set (buffer := file_bytes content (BatchedRead.offset b) (BatchedRead.nbytes b)).
  assert (Hlen : Z.of_nat (length buffer) = BatchedRead.nbytes b).
  { unfold buffer. rewrite file_bytes_length by lia. lia. }
  destruct (scatter_in_bounds b buffer (BatchedRead.regions b) mem Hlen Ho
              ltac:(lia)) as [mem' Hscatter].
  { eapply Forall_impl; [exact Hspan|]. simpl. intros r [Hw Hr]. split; [done|lia]. }
  rewrite Hscatter. cbn [mbind option_bind]. exists mem'. split; [done|].
  destruct (scatter_copied _ _ _ _ _ Hscatter) as [Hframe Hcopied].
  split; [exact Hframe|].
  intros r j Hr Hj.
  apply list_elem_of_split in Hr as (pre & post & Hsplit).
  rewrite Hsplit in Hdisjoint, Hspan.
  apply pairwise_dest_disjoint_app in Hdisjoint as (_ & Hpost & _).
  destruct Hpost as [Hpost _].
  apply Forall_app in Hspan as [_ Hspan].
  apply Forall_cons_1 in Hspan as [[[Hw1 Hw2] Hr1] _].
  rewrite (Hcopied pre r post j Hsplit Hj).
  - rewrite wrap64_small by (unfold is_u64; lia).
    unfold buffer.
    replace (get_0 r - BatchedRead.offset b + j)
      with ((get_0 r - BatchedRead.offset b) + j) by lia.
    rewrite (file_bytes_lookup content (BatchedRead.offset b) (BatchedRead.nbytes b)
               (get_0 r - BatchedRead.offset b + j)) by lia.
    f_equal. lia.
  - intros r' Hr'. rewrite Forall_forall in Hpost.
    by apply dest_disjoint_not_in_dest; [apply Hpost|].
Qed.

Lemma run_tasks_delivers (bs : list BatchedRead.t) :
  forall mem : gmap Z Byte.byte,
    Forall (good_batch content) bs ->
    pairwise_dest_disjoint (concat (map BatchedRead.regions bs)) ->
    exists mem',
      run_tasks this (map (mkTask uri) bs) mem = Some (replicate (length bs) Ok, mem')
      /\ (forall a, (forall r, r ∈ concat (map BatchedRead.regions bs) -> ~ in_dest r a) ->
                    mem' !! a = mem !! a)
      /\ (forall r j, r ∈ concat (map BatchedRead.regions bs) -> 0 <= j < get_2 r ->
                      mem' !! (get_1 r + j) = content !! Z.to_nat (get_0 r + j)).
Proof using All.
  induction bs as [|b bs IH]; intros mem Hgood Hdisjoint.
  - exists mem. repeat split; try done. intros r j Hr. by apply elem_of_nil in Hr.
  - apply Forall_cons_1 in Hgood as [Hb Hgood].
    cbn [map concat] in Hdisjoint |- *.
    apply pairwise_dest_disjoint_app in Hdisjoint as (Hd1 & Hd2 & Hcross).
    destruct (run_task_delivers b mem Hb Hd1) as (mem1 & Hrun1 & Hframe1 & Hdata1).
    destruct (IH mem1 Hgood Hd2) as (mem2 & Hrun2 & Hframe2 & Hdata2).
    exists mem2. cbn [run_tasks]. rewrite Hrun1. cbn [mbind option_bind].
    rewrite Hrun2. cbn [mbind option_bind length replicate].
    split; [done|]. split.
    + intros a Ha. rewrite Hframe2, Hframe1; [done| |].
      * intros r Hr. apply Ha. apply elem_of_app. by left.
      * intros r Hr. apply Ha. apply elem_of_app. by right.
    + intros r j Hr Hj. apply elem_of_app in Hr as [Hr | Hr].
      * rewrite Hframe2; [by apply Hdata1|].
        intros r' Hr'. apply dest_disjoint_not_in_dest; [|done]. by apply Hcross.
      * by apply Hdata2.
Qed.

End ReadAllDelivers.

(** X13.  On a backend that holds the file, with [Buffer::realloc] that
    succeeds, [min_parallel_size_] positive and at least the maximum of
    parallel operations less one, and at least one operation allowed: for
    regions of at least one byte each that lie inside the file, share no
    byte of it and have disjoint destinations,
    [read_all] answers Ok and enqueues tasks that, run to completion, all
    answer Ok and leave at the destination of every region the bytes of the
    file from the region's offset on; memory outside the destinations is as
    before. *)
Theorem read_all_delivers_file_bytes (this : VFS) (uri : URI)
    (content : list Byte.byte) (regions : list Region)
    (thread_pool tasks : list Task) (mem : gmap Z Byte.byte) :
  sort_contract this ->
  serves this uri content ->
  (forall n, buffer_realloc (platform this) n = Ok) ->
  0 < min_parallel_size_ (vfs_params_ this) ->
  1 <= max_parallel_ops this uri ->
  max_parallel_ops this uri - 1 <= min_parallel_size_ (vfs_params_ this) ->
  Z.of_nat (length content) + max_parallel_ops this uri <= UINT64_MOD ->
  regions <> [] ->
  Forall (region_in_file (Z.of_nat (length content))) regions ->
  pairwise_non_overlapping regions ->
  pairwise_dest_disjoint regions ->
  exists ts mem',
    read_all this uri regions thread_pool tasks
      = Some (Ok, thread_pool ++ ts, tasks ++ ts)
    /\ run_tasks this ts mem = Some (replicate (length ts) Ok, mem')
    /\ (forall r j, r ∈ regions -> 0 <= j < get_2 r ->
                    mem' !! (get_1 r + j) = content !! Z.to_nat (get_0 r + j))
    /\ (forall a, (forall r, r ∈ regions -> ~ in_dest r a) -> mem' !! a = mem !! a).
Proof.
  intros Hsort Hserves Hrealloc Hmps Hops Hlarge Hsize Hne Hfile Hoverlap Hdest.
  destruct (compute_read_batches_batching this regions [] Hne Hsort)
    as (bs & Hrun & Hbatching).
  destruct (Hsort regions) as [Hperm Hsorted].
  set (sorted := parallel_sort (platform this) region_offset_lt regions) in *.
  assert (Hfile' : Forall (region_in_file (Z.of_nat (length content))) sorted)
    by (by rewrite Hperm).
  assert (Hrange : Forall region_in_range sorted).
  { eapply Forall_impl; [exact Hfile'|]. intros r (H0 & H1 & H2).
    unfold region_in_range. lia. }
  assert (Hchain : StronglySorted (fun a b => get_0 a + get_2 a <= get_0 b) sorted).
  { apply sorted_disjoint_chain; [done| |].
    - eapply Forall_impl; [exact Hfile'|]. by intros r (_ & H1 & _).
    - by apply (pairwise_non_overlapping_perm regions). }
  destruct (batching_spans this _ _ Hbatching Hrange Hchain) as [Hspans _].
  pose proof (batching_ends this _ _ Hbatching Hrange Hchain) as Hends.
  pose proof (batching_first_region this _ _ Hbatching) as Hfirst.
  pose proof (batching_concat this _ _ Hbatching) as Hconcat.
  assert (Hgood : Forall (good_batch content) bs).
  { apply Forall_forall. intros b Hb.
    rewrite Forall_forall in Hspans. rewrite Forall_forall in Hends.
    rewrite Forall_forall in Hfirst. rewrite Forall_forall in Hfile'.
    destruct (Hspans b Hb) as (Ho & _ & Hwithin).
    destruct (Hends b Hb) as (r & Hr & Hrl & Hend).
    destruct (Hfirst b Hb) as (r0 & rs & Hrs & Hoff).
    assert (Hin : forall x, x ∈ BatchedRead.regions b -> x ∈ sorted).
    { intros x Hx. rewrite <- Hconcat. apply list_elem_of_In, in_concat.
      exists (BatchedRead.regions b). split.
      - apply in_map. by apply list_elem_of_In.
      - by apply list_elem_of_In. }
    assert (Hall : Forall (fun r => within b r /\ 1 <= get_2 r) (BatchedRead.regions b)).
    { apply Forall_forall. intros x Hx. rewrite Forall_forall in Hwithin.
      split; [by apply Hwithin|]. by destruct (Hfile' x (Hin x Hx)) as (_ & H1 & _). }
    destruct (Hfile' r Hrl) as (_ & _ & Hrend).
    assert (Hr0 : within b r0 /\ 1 <= get_2 r0).
    { rewrite Forall_forall in Hall. apply Hall. rewrite Hrs. apply list_elem_of_here. }
    destruct Hr0 as [[Hw1 Hw2] Hsz].
    repeat split; try done; lia. }
  assert (Hdest' : pairwise_dest_disjoint (concat (map BatchedRead.regions bs))).
  { rewrite Hconcat. by apply (pairwise_dest_disjoint_perm regions). }
  destruct (run_tasks_delivers this uri content Hserves Hrealloc Hmps Hops Hlarge
              Hsize bs mem Hgood Hdest') as (mem' & Hrun' & Hframe & Hdata).
  exists (map (mkTask uri) bs), mem'. split; [|split; [|split]].
  - unfold read_all. destruct regions as [|r0 regions0]; [done|].
    rewrite Hrun. cbn [mbind option_bind ok negb app].
    by rewrite enqueue_batches_map.
  - by rewrite length_map.
  - intros r j Hr Hj. apply Hdata; [|done]. rewrite Hconcat. by rewrite Hperm.
  - intros a Ha. apply Hframe. intros r Hr. apply Ha.
    rewrite Hconcat in Hr. by rewrite Hperm in Hr.
Qed.

(** The theorem at work: four regions of the example file. *)
Lemma read_all_delivers_file_bytes_witness :
  let regions := [(200, 1000, 10); (0, 2000, 10); (12, 3000, 4); (100, 4000, 8)] in
  exists ts mem',
    read_all demo_wide_vfs demo_uri regions [] [] = Some (Ok, ts, ts)
    /\ run_tasks demo_wide_vfs ts ∅ = Some (replicate (length ts) Ok, mem')
    /\ (forall r j, r ∈ regions -> 0 <= j < get_2 r ->
                    mem' !! (get_1 r + j) = demo_content !! Z.to_nat (get_0 r + j))
    /\ (forall a, (forall r, r ∈ regions -> ~ in_dest r a) ->
                  mem' !! a = (∅ : gmap Z Byte.byte) !! a).
Proof.
  intros regions.
  apply (read_all_delivers_file_bytes demo_wide_vfs demo_uri demo_content regions
           [] [] ∅ demo_sort_contract (demo_serves demo_wide_params)).
  - intros n. reflexivity.
  - reflexivity.
  - vm_compute. discriminate.
  - vm_compute. discriminate.
  - vm_compute. discriminate.
  - discriminate.
  - repeat constructor; vm_compute; congruence.
  - simpl. repeat split; repeat constructor.
  - simpl. repeat first [split | apply Forall_nil | apply Forall_cons];
      unfold dest_disjoint; cbv [get_1 get_2]; simpl; lia.
Defined.

(** * The storage operations *)

(** ** The size of a directory *)

Lemma wrap64_add_l (a b : Z) : wrap64 (wrap64 a + b) = wrap64 (a + b).
Proof. unfold wrap64. apply Zplus_mod_idemp_l. Qed.

Lemma forest_split (children : list (URI * Tree)) :
  forest_bytes children = files_bytes children + queue_bytes (subdirs children)
  /\ forest_dirs children = queue_dirs (subdirs children).
Proof.
  induction children as [|[uri [size | entries]] rest [IHb IHd]].
  - done.
  - cbn [forest_bytes forest_dirs foldr files_bytes subdirs snd tree_bytes tree_dirs].
    fold (forest_bytes rest) (forest_dirs rest). split; [lia|done].
  - cbn [forest_bytes forest_dirs foldr files_bytes subdirs snd tree_bytes tree_dirs
         queue_bytes queue_dirs].
    fold (forest_bytes rest) (forest_dirs rest) (forest_bytes entries)
         (forest_dirs entries) (queue_bytes (subdirs rest)) (queue_dirs (subdirs rest)).
    split; lia.
Qed.

Lemma queue_app (q1 q2 : list (URI * list (URI * Tree))) :
  queue_bytes (q1 ++ q2) = queue_bytes q1 + queue_bytes q2
  /\ queue_dirs (q1 ++ q2) = (queue_dirs q1 + queue_dirs q2)%nat.
Proof.
  induction q1 as [|d q1 [IHb IHd]]; [done|].
  cbn [app queue_bytes queue_dirs foldr].
  fold (queue_bytes (q1 ++ q2)) (queue_dirs (q1 ++ q2)) (queue_bytes q1) (queue_dirs q1).
  split; lia.
Qed.

Section DirSize.

Context {FS : Type}.
Variable this : VFS.
Variable B : Backends FS.
Variable fs : FS.

Lemma subdirs_listed (children : list (URI * Tree)) :
  foldr (fun c rest => describes this B fs c.1 c.2 /\ rest) True children ->
  Forall (fun d => lists this B fs d.1 d.2) (subdirs children).
Proof.
  induction children as [|[uri [size | entries]] rest IH]; cbn [foldr fst snd subdirs].
  - constructor.
  - intros [_ Hrest]. by apply IH.
  - intros [(_ & Hls & Hentries) Hrest]. constructor; [by split | by apply IH].
Qed.

(** The loop over the entries of a directory: the files add their sizes to
    the sum, the subdirectories join [to_ls] in order. *)
Lemma dir_size_children_described (children : list (URI * Tree)) :
  forall l : DirSizeLoop,
    foldr (fun c rest => describes this B fs c.1 c.2 /\ rest) True children ->
    is_u64 (dir_size_sum l) ->
    exists l',
      dir_size_children this B fs (map fst children) l = Some (Ok, l')
      /\ to_ls l' = to_ls l ++ map fst (subdirs children)
      /\ is_u64 (dir_size_sum l')
      /\ wrap64 (dir_size_sum l') = wrap64 (dir_size_sum l + files_bytes children).
Proof.
  induction children as [|[uri [size | entries]] rest IH]; intros l Hdesc Hsum.
  - exists l. cbn. rewrite app_nil_r, Z.add_0_r. done.
  - cbn [foldr fst snd describes] in Hdesc. destruct Hdesc as [[Hfile Hsize] Hrest].
    cbn [map fst dir_size_children]. rewrite Hfile, Hsize.
    cbn [ok negb assign is_file_var size_var to_ls dir_size_sum].
    destruct (IH (mkDirSizeLoop (to_ls l) (wrap64 (dir_size_sum l + size))
                                (Some size) (Some true)) Hrest (wrap64_range _))
      as (l' & Hrun & Hto & Hu & Hw).
    exists l'. split; [exact Hrun|]. cbn [to_ls dir_size_sum] in Hto, Hw.
    split; [exact Hto|]. split; [exact Hu|].
    rewrite Hw, wrap64_add_l. cbn [files_bytes]. f_equal. lia.
  - cbn [foldr fst snd describes] in Hdesc.
    destruct Hdesc as [(Hfile & _ & _) Hrest].
    cbn [map fst dir_size_children]. rewrite Hfile.
    cbn [ok negb assign is_file_var size_var to_ls dir_size_sum].
    destruct (IH (mkDirSizeLoop (to_ls l ++ [uri]) (dir_size_sum l)
                                (size_var l) (Some false)) Hrest Hsum)
      as (l' & Hrun & Hto & Hu & Hw).
    exists l'. split; [exact Hrun|]. cbn [to_ls dir_size_sum] in Hto, Hw.
    split; [|split; [exact Hu | exact Hw]].
    rewrite Hto, <- app_assoc. reflexivity.
Qed.

(** The [do ... while] loop on a queue of listed directories. *)
Lemma dir_size_loop_described (fuel : nat) :
  forall (queue : list (URI * list (URI * Tree))) (l : DirSizeLoop),
    queue <> [] ->
    to_ls l = map fst queue ->
    Forall (fun d => lists this B fs d.1 d.2) queue ->
    (queue_dirs queue <= fuel)%nat ->
    is_u64 (dir_size_sum l) ->
    exists l',
      dir_size_loop this B fs fuel l = Returns (Ok, l')
      /\ is_u64 (dir_size_sum l')
      /\ wrap64 (dir_size_sum l') = wrap64 (dir_size_sum l + queue_bytes queue).
Proof.
  induction fuel as [|fuel IH]; intros queue l Hne Hto Hlists Hfuel Hsum.
  - destruct queue as [|d queue]; [done|]. cbn in Hfuel. lia.
  - destruct queue as [|[uri children] queue]; [done|].
    apply Forall_cons_1 in Hlists as [[Hls Hdesc] Hlists]. cbn [fst snd] in Hls, Hdesc.
    cbn [map fst] in Hto. cbn [dir_size_loop]. rewrite Hto, Hls. cbn [ok negb].
    destruct (dir_size_children_described children
                (mkDirSizeLoop (map fst queue) (dir_size_sum l) (size_var l)
                               (is_file_var l)) Hdesc Hsum)
      as (l1 & Hrun & Hto1 & Hu1 & Hw1).
    rewrite Hrun. cbn [ok negb to_ls dir_size_sum] in Hto1, Hw1 |- *.
    destruct (forest_split children) as [Hbytes Hdirs].
    destruct (queue_app queue (subdirs children)) as [Hqb Hqd].
    rewrite <- map_app in Hto1.
    cbn [queue_bytes queue_dirs foldr snd] in Hfuel |- *.
    fold (queue_bytes queue) (queue_dirs queue) in Hfuel |- *.
    destruct (queue ++ subdirs children) as [|d queue'] eqn:Hqueue.
    + rewrite Hto1. cbn [map]. exists l1. split; [done|]. split; [done|].
      cbn in Hqb. rewrite Hw1. f_equal. lia.
    + rewrite Hto1. cbn [map].
      change (d.1 :: map fst queue') with (map fst (d :: queue')) in *.
      destruct (IH (d :: queue') l1 ltac:(done) Hto1) as (l' & Hrun' & Hu' & Hw').
      * rewrite <- Hqueue. apply Forall_app. split; [done | by apply subdirs_listed].
      * lia.
      * done.
      * exists l'. split; [done|]. split; [done|].
        rewrite Hw', <- wrap64_add_l, Hw1, wrap64_add_l. f_equal. lia.
Qed.

(** X14.  For a directory whose entries, as [ls], [is_file] and
    [file_size] report them, form a finite tree, [dir_size] ends after one
    round of its loop per directory of the tree, answers Ok and stores in
    [*dir_size] the sum of the sizes of all files of the tree, as a 64-bit
    number. *)
Theorem dir_size_sums_the_tree (dir_name : URI) (children : list (URI * Tree))
    (fuel : nat) :
  is_dir this B dir_name fs = (Ok, Some true) ->
  lists this B fs dir_name children ->
  (forest_dirs children < fuel)%nat ->
  dir_size this B fuel dir_name fs
    = Returns (Ok, Some (wrap64 (forest_bytes children))).
Proof.
  intros Hdir Hlists Hfuel. unfold dir_size. rewrite Hdir. cbn [ok negb].
  destruct (dir_size_loop_described fuel [(dir_name, children)]
              (mkDirSizeLoop [dir_name] 0 None None))
    as (l' & Hrun & Hu & Hw).
  - done.
  - done.
  - constructor; [exact Hlists | constructor].
  - cbn [queue_dirs foldr snd]. lia.
  - unfold is_u64. cbn [dir_size_sum]. rewrite UINT64_MOD_eq. lia.
  - rewrite Hrun. do 3 f_equal. rewrite <- (wrap64_small _ Hu), Hw.
    cbn [dir_size_sum queue_bytes foldr snd]. f_equal. lia.
Qed.

Lemma dir_size_loop_cycle (dir_name : URI) (fuel : nat) :
  ls this B dir_name [] fs = (Ok, [dir_name]) ->
  vfs_is_file this B dir_name fs = (Ok, Some false) ->
  forall l, to_ls l = [dir_name] -> dir_size_loop this B fs fuel l = OutOfFuel.
Proof.
  intros Hls Hfile. induction fuel as [|fuel IH]; intros l Hto; [done|].
  cbn [dir_size_loop]. rewrite Hto, Hls. cbn [ok negb dir_size_children].
  rewrite Hfile. cbn [ok negb assign is_file_var to_ls app].
  by apply IH.
Qed.

(** X15.  [dir_size] keeps no record of the directories it has listed: on
    a directory that lists itself (and is not a file) its loop never ends,
    however many rounds it is given. *)
Theorem dir_size_never_returns_on_a_cycle (dir_name : URI) (fuel : nat) :
  is_dir this B dir_name fs = (Ok, Some true) ->
  ls this B dir_name [] fs = (Ok, [dir_name]) ->
  vfs_is_file this B dir_name fs = (Ok, Some false) ->
  dir_size this B fuel dir_name fs = OutOfFuel.
Proof.
  intros Hdir Hls Hfile. unfold dir_size. rewrite Hdir. cbn [ok negb].
  by rewrite (dir_size_loop_cycle dir_name fuel Hls Hfile).
Qed.

End DirSize.

(** The theorem at work: the example directory holds 42 bytes. *)
Lemma dir_size_sums_the_tree_witness :
  dir_size demo_vfs demo_backends 2 (mkURI "file:///data") demo_storage
    = Returns (Ok, Some 42).
Proof.
  apply (dir_size_sums_the_tree demo_vfs demo_backends demo_storage
           (mkURI "file:///data") demo_tree 2).
  - vm_compute. reflexivity.
  - unfold lists, demo_tree. cbn [foldr describes fst snd].
    repeat split; vm_compute; reflexivity.
  - vm_compute. lia.
Defined.

(** The theorem at work: backends whose directories list themselves. *)
Lemma dir_size_never_returns_on_a_cycle_witness :
  dir_size demo_vfs demo_loop_backends 1000 (mkURI "file:///data") demo_storage
    = OutOfFuel.
Proof.
  apply (dir_size_never_returns_on_a_cycle demo_vfs demo_loop_backends demo_storage
           (mkURI "file:///data") 1000); vm_compute; reflexivity.
Defined.

(** ** URIs that no backend serves *)

(** X16.  On a URI that no backend of the build serves (unknown scheme, or
    [hdfs://] or [s3://] without that backend), [touch], [remove_dir],
    [remove_file], [write], [sync] and [close_file] answer with an error
    and leave the storage as it was. *)
Theorem unserved_uri_is_refused {FS : Type} (this : VFS) (B : Backends FS)
    (uri : URI) (fs : FS) (buffer : list Byte.byte) (buffer_size : Z) :
  unserved this uri ->
  refused fs (touch this B uri fs)
  /\ refused fs (remove_dir this B uri fs)
  /\ refused fs (remove_file this B uri fs)
  /\ refused fs (write this B uri buffer buffer_size fs)
  /\ refused fs (sync this B uri fs)
  /\ refused fs (close_file this B uri fs).
Proof.
  intros [Hfile Hscheme].
  unfold refused, touch, remove_dir, remove_file, sync, close_file, write.
  rewrite Hfile.
  destruct Hscheme as [[Hh Hs] | [(Hh & Hs & Hhave) | (Hh & Hs & Hhave)]];
    rewrite Hh, ?Hs, ?Hhave; done.
Qed.

(** The theorem at work: an [hdfs://] URI on a build without HDFS. *)
Lemma unserved_uri_is_refused_witness :
  touch demo_vfs demo_backends demo_hdfs_uri demo_storage
    = (VFSError "TileDB was built without HDFS support", demo_storage)
  /\ refused demo_storage (touch demo_vfs demo_backends demo_hdfs_uri demo_storage)
  /\ refused demo_storage
       (write demo_vfs demo_backends demo_hdfs_uri [Byte.x61] 1 demo_storage).
Proof.
  pose proof (unserved_uri_is_refused demo_vfs demo_backends demo_hdfs_uri
                demo_storage [Byte.x61] 1) as Hrefused.
  destruct Hrefused as (Htouch & _ & _ & Hwrite & _).
  - split; [reflexivity|]. right. left. repeat split.
  - split; [reflexivity|]. split; [exact Htouch | exact Hwrite].
Defined.

(** X17.  On such a URI the operations built on others fail before they
    do anything: [create_dir], [open_file] in every mode and [move_dir]
    answer with an error and leave the storage as it was, [dir_size]
    answers with an error and stores nothing in [*dir_size], [ls] answers
    with an error and appends nothing, and the queries [is_dir], [is_file]
    and [file_size] answer with an error. *)
Theorem unserved_uri_fails_early {FS : Type} (this : VFS) (B : Backends FS)
    (uri other : URI) (fs : FS) (mode : VFSMode) (fuel : nat) (uris : list URI) :
  unserved this uri ->
  (exists st, create_dir this B uri fs = Some (st, fs) /\ ok st = false)
  /\ (exists st, open_file this B uri mode fs = Some (st, fs) /\ ok st = false)
  /\ (exists st, dir_size this B fuel uri fs = Returns (st, None) /\ ok st = false)
  /\ refused fs (move_dir this B uri other fs)
  /\ (exists st, ls this B uri uris fs = (st, uris) /\ ok st = false)
  /\ ok (is_dir this B uri fs).1 = false
  /\ ok (vfs_is_file this B uri fs).1 = false
  /\ ok (file_size this B uri fs).1 = false.
Proof.
  intros [Hfile Hscheme].
  unfold refused, move_dir, move_by_scheme, create_dir, open_file, dir_size, ls,
    is_dir, vfs_is_file, file_size.
  rewrite Hfile.
  destruct Hscheme as [[-> ->] | [(-> & -> & ->) | (-> & -> & ->)]];
    cbn [negb ok fst snd];
    repeat split; eauto;
    try (destruct (is_hdfs (platform this) other); eauto; fail);
    try (destruct (is_s3 (platform this) other); eauto; fail).
Qed.

(** The theorem at work: a URI of unknown scheme. *)
Lemma unserved_uri_fails_early_witness :
  create_dir demo_vfs demo_backends demo_unknown_uri demo_storage
    = Some (VFSError ("Unsupported URI scheme: " +:+ to_string demo_unknown_uri),
            demo_storage)
  /\ (exists st, dir_size demo_vfs demo_backends 5 demo_unknown_uri demo_storage
                   = Returns (st, None) /\ ok st = false).
Proof.
  split; [reflexivity|].
  apply (unserved_uri_fails_early demo_vfs demo_backends demo_unknown_uri
           demo_uri demo_storage VFS_READ 5 []).
  split; [reflexivity|]. left. split; reflexivity.
Defined.

(** X18.  The bucket operations serve [s3://] URIs on a build with S3
    only: on any other URI, or without S3, [create_bucket],
    [remove_bucket] and [empty_bucket] answer with an error and leave the
    storage as it was, and [is_bucket] and [is_empty_bucket] answer with an
    error.  On a URI that is not [s3://], [empty_bucket] and
    [is_empty_bucket] give the very error of [remove_bucket]. *)
Theorem bucket_operations_need_s3 {FS : Type} (this : VFS) (B : Backends FS)
    (uri : URI) (fs : FS) :
  is_s3 (platform this) uri = false \/ HAVE_S3 (platform this) = false ->
  refused fs (create_bucket this B uri fs)
  /\ refused fs (remove_bucket this B uri fs)
  /\ refused fs (empty_bucket this B uri fs)
  /\ ok (is_bucket this B uri fs).1 = false
  /\ ok (is_empty_bucket this B uri fs).1 = false
  /\ (is_s3 (platform this) uri = false ->
      empty_bucket this B uri fs = remove_bucket this B uri fs
      /\ (is_empty_bucket this B uri fs).1 = (remove_bucket this B uri fs).1).
Proof.
  unfold refused, create_bucket, remove_bucket, empty_bucket, is_bucket,
    is_empty_bucket.
  intros [-> | ->]; [done|].
  by destruct (is_s3 (platform this) uri).
Qed.

(** The theorem at work: a local path is no bucket. *)
Lemma bucket_operations_need_s3_witness :
  empty_bucket demo_cloud_vfs demo_backends demo_uri demo_storage
    = (VFSError ("Cannot remove bucket; Unsupported URI scheme: "
                 +:+ to_string demo_uri), demo_storage)
  /\ refused demo_storage
       (create_bucket demo_cloud_vfs demo_backends demo_uri demo_storage).
Proof.
  split; [reflexivity|].
  apply (bucket_operations_need_s3 demo_cloud_vfs demo_backends demo_uri demo_storage).
  by left.
Defined.

(** X19.  [close_file] does what [sync] does on a [file://] URI and on an
    [hdfs://] URI that is not also [file://]: the same backend call, the
    same status and storage. *)
Theorem close_file_is_sync {FS : Type} (this : VFS) (B : Backends FS)
    (uri : URI) (fs : FS) :
  is_file (platform this) uri = true \/ is_hdfs (platform this) uri = true ->
  close_file this B uri fs = sync this B uri fs.
Proof.
  unfold close_file, sync. intros [-> | Hhdfs]; [done|].
  rewrite Hhdfs. by destruct (is_file (platform this) uri).
Qed.

(** The theorem at work: the example file. *)
Lemma close_file_is_sync_witness :
  close_file demo_vfs demo_backends demo_uri demo_storage
    = sync demo_vfs demo_backends demo_uri demo_storage.
Proof.
  apply (close_file_is_sync demo_vfs demo_backends demo_uri demo_storage).
  by left.
Defined.

(** X20.  [supports_fs] answers with the build flags.  For a URI that no
    backend serves, [supports_uri_scheme] answers false when the scheme is
    [hdfs://] or [s3://], but true when the scheme is unknown. *)
Theorem supports_uri_scheme_of_unserved (this : VFS) (uri : URI) :
  unserved this uri ->
  supports_fs this HDFS = HAVE_HDFS (platform this)
  /\ supports_fs this S3 = HAVE_S3 (platform this)
  /\ supports_uri_scheme this uri
     = negb (is_hdfs (platform this) uri) && negb (is_s3 (platform this) uri).
Proof.
  intros [Hfile Hscheme].
  assert (Hhdfs : supports_fs this HDFS = HAVE_HDFS (platform this)).
  { unfold supports_fs, supported_fs_.
    by destruct (HAVE_HDFS (platform this)), (HAVE_S3 (platform this)). }
  assert (Hs3 : supports_fs this S3 = HAVE_S3 (platform this)).
  { unfold supports_fs, supported_fs_.
    by destruct (HAVE_HDFS (platform this)), (HAVE_S3 (platform this)). }
  split; [exact Hhdfs|]. split; [exact Hs3|].
  unfold supports_uri_scheme. rewrite Hhdfs, Hs3.
  by destruct Hscheme as [[-> ->] | [(-> & -> & ->) | (-> & -> & ->)]].
Qed.

(** The theorem at work: a URI of unknown scheme counts as supported,
    though no operation serves it. *)
Lemma supports_uri_scheme_of_unserved_witness :
  supports_uri_scheme demo_vfs demo_unknown_uri = true
  /\ touch demo_vfs demo_backends demo_unknown_uri demo_storage
     = (VFSError ("Unsupported URI scheme: " +:+ to_string demo_unknown_uri),
        demo_storage).
Proof.
  split; [|reflexivity].
  apply (supports_uri_scheme_of_unserved demo_vfs demo_unknown_uri).
  split; [reflexivity|]. left. split; reflexivity.
Defined.

(** ** Creating directories *)

(** X21.  [create_dir] on a directory that exists answers Ok without
    touching the storage, and so it does on an [s3://] URI when the build
    has S3, where directories need not be created. *)
Theorem create_dir_existing {FS : Type} (this : VFS) (B : Backends FS)
    (uri : URI) (fs : FS) :
  (is_s3 (platform this) uri = false /\ is_dir this B uri fs = (Ok, Some true))
  \/ (is_file (platform this) uri = false /\ is_hdfs (platform this) uri = false
      /\ is_s3 (platform this) uri = true /\ HAVE_S3 (platform this) = true) ->
  create_dir this B uri fs = Some (Ok, fs).
Proof.
  intros [[Hs3 Hdir] | (Hfile & Hhdfs & Hs3 & Hhave)]; unfold create_dir.
  - rewrite Hs3, Hdir. reflexivity.
  - rewrite Hs3, Hfile, Hhdfs, Hhave. reflexivity.
Qed.

(** The theorem at work: the example directory, created again. *)
Lemma create_dir_existing_witness :
  create_dir demo_vfs demo_backends (mkURI "file:///data") demo_storage
    = Some (Ok, demo_storage).
Proof.
  apply (create_dir_existing demo_vfs demo_backends (mkURI "file:///data")
           demo_storage).
  left. split; reflexivity.
Defined.

(** X22.  The generic error that ends [create_dir] is never its own
    answer: when [create_dir] answers with a generic error, a backend gave
    that status (the local or the HDFS [create_dir], or the HDFS [is_dir]).
    For a URI of unknown scheme the answer is the VFS error of [is_dir]. *)
Theorem create_dir_generic_error {FS : Type} (this : VFS) (B : Backends FS)
    (uri : URI) (fs fs' : FS) (msg : string) :
  create_dir this B uri fs = Some (GenericError msg, fs') ->
  (local_create_dir B (to_path (platform this) uri) fs).1 = GenericError msg
  \/ (hdfs_create_dir B uri fs).1 = GenericError msg
  \/ (hdfs_is_dir B uri fs).1 = GenericError msg.
Proof.
  unfold create_dir, is_dir.
  destruct (is_s3 (platform this) uri) eqn:Hs3; cbn [negb].
  - destruct (is_file (platform this) uri).
    + intros Hc. injection Hc as Hc. left. by rewrite Hc.
    + destruct (is_hdfs (platform this) uri).
      * destruct (HAVE_HDFS (platform this)); [|done].
        intros Hc. injection Hc as Hc. right. left. by rewrite Hc.
      * by destruct (HAVE_S3 (platform this)).
  - destruct (is_file (platform this) uri).
    + cbn [ok negb]. destruct (local_is_dir B _ fs); [done|].
      intros Hc. injection Hc as Hc. left. by rewrite Hc.
    + destruct (is_hdfs (platform this) uri); [|done].
      destruct (HAVE_HDFS (platform this)); [|done].
      destruct (hdfs_is_dir B uri fs) as [st [[|]|]] eqn:Hdir.
      * destruct st; cbn [ok negb]; try done.
        all: intros Hc; injection Hc as Hc _; right; right; by rewrite <- Hc.
      * destruct st; cbn [ok negb].
        -- intros Hc. injection Hc as Hc. right. left. by rewrite Hc.
        -- done.
        -- done.
        -- done.
        -- intros Hc. injection Hc as Hc _. right. right. by rewrite <- Hc.
      * destruct st; cbn [ok negb]; try done.
        intros Hc. injection Hc as Hc _. right. right. by rewrite <- Hc.
Qed.

(** The theorem at work: a new directory on a full disk. *)
Lemma create_dir_generic_error_witness :
  create_dir demo_vfs demo_full_backends (mkURI "file:///new") demo_storage
    = Some (GenericError "disk full", demo_storage)
  /\ ((local_create_dir demo_full_backends "file:///new" demo_storage).1
        = GenericError "disk full"
      \/ (hdfs_create_dir demo_full_backends (mkURI "file:///new") demo_storage).1
         = GenericError "disk full"
      \/ (hdfs_is_dir demo_full_backends (mkURI "file:///new") demo_storage).1
         = GenericError "disk full").
Proof.
  split; [reflexivity|].
  apply (create_dir_generic_error demo_vfs demo_full_backends (mkURI "file:///new")
           demo_storage demo_storage "disk full").
  reflexivity.
Defined.

(** ** Moving and opening files *)

(** X23.  [move_file] removes an existing destination before it looks at
    the two schemes: when the source is on another filesystem than the
    destination, it answers that such moves are not supported, and the
    destination file is gone.  [move_dir] answers the same and leaves the
    storage as it was. *)
Theorem move_file_across_filesystems {FS : Type} (this : VFS) (B : Backends FS)
    (old_uri new_uri : URI) (fs fs' : FS) :
  is_file (platform this) old_uri = true
  \/ (is_file (platform this) old_uri = false
      /\ is_hdfs (platform this) old_uri = true) ->
  is_file (platform this) new_uri = false ->
  is_hdfs (platform this) new_uri = false ->
  vfs_is_file this B new_uri fs = (Ok, Some true) ->
  remove_file this B new_uri fs = (Ok, fs') ->
  move_file this B old_uri new_uri fs
    = Some (VFSError "Moving files across filesystems is not supported yet", fs')
  /\ move_dir this B old_uri new_uri fs
     = (VFSError "Moving files across filesystems is not supported yet", fs).
Proof.
  intros Hold Hnew_file Hnew_hdfs Hexists Hremove.
  unfold move_file, move_dir, move_by_scheme.
  rewrite Hexists, Hremove, Hnew_file, Hnew_hdfs. cbn [ok negb].
  by destruct Hold as [-> | [-> ->]].
Qed.

(** The theorem at work: a local file moved onto an object on S3. *)
Lemma move_file_across_filesystems_witness :
  let old_uri := mkURI "file:///data/a.tdb" in
  let new_uri := mkURI "s3://bucket/a.tdb" in
  let fs' := delete "s3://bucket/a.tdb" demo_storage in
  move_file demo_cloud_vfs demo_backends old_uri new_uri demo_storage
    = Some (VFSError "Moving files across filesystems is not supported yet", fs')
  /\ vfs_is_file demo_cloud_vfs demo_backends new_uri demo_storage = (Ok, Some true)
  /\ vfs_is_file demo_cloud_vfs demo_backends new_uri fs' = (Ok, Some false)
  /\ vfs_is_file demo_cloud_vfs demo_backends old_uri fs' = (Ok, Some true).
Proof.
  intros old_uri new_uri fs'.
  split; [|repeat split; vm_compute; reflexivity].
  apply (move_file_across_filesystems demo_cloud_vfs demo_backends old_uri new_uri
           demo_storage fs'); try reflexivity.
  by left.
Defined.

Lemma ok_is_Ok (st : Status) : ok st = true -> st = Ok.
Proof. by destruct st. Qed.

(** X24.  [open_file] changes the storage in write mode only.  When
    [is_file] answers Ok: read mode opens exactly the files that exist;
    write mode removes the file if it exists, and answers with the status
    of that removal.  Append mode is always refused on an [s3://] URI. *)
Theorem open_file_modes {FS : Type} (this : VFS) (B : Backends FS)
    (uri : URI) (fs : FS) (found : bool) :
  vfs_is_file this B uri fs = (Ok, Some found) ->
  open_file this B uri VFS_READ fs
    = Some (if found then Ok
            else VFSError ("Cannot open file '" +:+ to_string uri
                           +:+ "'; File does not exist"), fs)
  /\ open_file this B uri VFS_WRITE fs
     = Some (if found then remove_file this B uri fs else (Ok, fs))
  /\ (exists st, open_file this B uri VFS_APPEND fs = Some (st, fs)
                 /\ (is_s3 (platform this) uri = true -> ok st = false)
                 /\ (is_s3 (platform this) uri = false -> st = Ok)).
Proof.
  intros Hfile. unfold open_file. rewrite Hfile. cbn [ok negb].
  split; [by destruct found|]. split.
  - destruct found; [|done].
    destruct (remove_file this B uri fs) as [st fs'].
    destruct (ok st) eqn:Hok; cbn [negb]; [|done]. by rewrite (ok_is_Ok st Hok).
  - destruct (is_s3 (platform this) uri); [|by exists Ok].
    destruct (HAVE_S3 (platform this)); eexists; (split; [reflexivity|done]).
Qed.

(** The theorem at work: the example object on S3 in the three modes. *)
Lemma open_file_modes_witness :
  let uri := mkURI "s3://bucket/a.tdb" in
  open_file demo_cloud_vfs demo_backends uri VFS_READ demo_storage
    = Some (Ok, demo_storage)
  /\ open_file demo_cloud_vfs demo_backends uri VFS_WRITE demo_storage
     = Some (Ok, delete "s3://bucket/a.tdb" demo_storage)
  /\ open_file demo_cloud_vfs demo_backends uri VFS_APPEND demo_storage
     = Some (VFSError ("Cannot open file '" +:+ to_string uri
                       +:+ "'; S3 does not support append mode"), demo_storage).
Proof.
  intros uri.
  destruct (open_file_modes demo_cloud_vfs demo_backends uri demo_storage true
              eq_refl) as (Hread & Hwrite & _).
  split; [exact Hread|]. split; [exact Hwrite|]. reflexivity.
Defined.

(** ** Variables without a value *)

Section StoredAnswers.

Context {FS : Type}.
Variable this : VFS.
Variable B : Backends FS.
Hypothesis stored : backends_store_answers B.

Lemma is_dir_stores (uri : URI) (fs : FS) (st : Status) :
  is_dir this B uri fs = (st, None) -> ok st = false.
Proof using stored.
  destruct stored as (Hd & _ & Hs & _). unfold is_dir.
  repeat (match goal with
          | |- context [if ?b then _ else _] => destruct b
          end; try done); eauto.
  by intros [= <-].
Qed.

Lemma vfs_is_file_stores (uri : URI) (fs : FS) (st : Status) :
  vfs_is_file this B uri fs = (st, None) -> ok st = false.
Proof using stored.
  destruct stored as (_ & Hf & _). unfold vfs_is_file.
  repeat (match goal with
          | |- context [if ?b then _ else _] => destruct b
          end; try done); eauto.
  by intros [= <-].
Qed.

Lemma file_size_stores (uri : URI) (fs : FS) (st : Status) :
  file_size this B uri fs = (st, None) -> ok st = false.
Proof using stored.
  destruct stored as (_ & _ & _ & Hl & Hh & Hs). unfold file_size.
  repeat (match goal with
          | |- context [if ?b then _ else _] => destruct b
          end; try done); eauto; by intros [= <-].
Qed.

Lemma dir_size_children_defined (fs : FS) (children : list URI) :
  forall l : DirSizeLoop, is_Some (dir_size_children this B fs children l).
Proof using stored.
  induction children as [|child rest IH]; intros l; cbn [dir_size_children]; [eauto|].
  destruct (vfs_is_file this B child fs) as [st [found|]] eqn:Hfile.
  - destruct (ok st); cbn [negb assign is_file_var]; [|eauto].
    destruct found; [|by apply IH].
    destruct (file_size this B child fs) as [st' [size|]] eqn:Hsize.
    + destruct (ok st'); cbn [negb assign size_var]; [|eauto]. by apply IH.
    + rewrite (file_size_stores _ _ _ Hsize). cbn [negb]. eauto.
  - rewrite (vfs_is_file_stores _ _ _ Hfile). cbn [negb]. eauto.
Qed.

Lemma dir_size_loop_defined (fs : FS) (fuel : nat) :
  forall l : DirSizeLoop,
    to_ls l <> [] -> dir_size_loop this B fs fuel l <> Undefined.
Proof using stored.
  induction fuel as [|fuel IH]; intros l Hto; [done|].
  cbn [dir_size_loop]. destruct (to_ls l) as [|uri rest]; [done|].
  destruct (ls this B uri [] fs) as [st children].
  destruct (ok st); cbn [negb]; [|done].
  destruct (dir_size_children_defined fs children
              (mkDirSizeLoop rest (dir_size_sum l) (size_var l) (is_file_var l)))
    as [[st' l'] ->].
  destruct (ok st'); cbn [negb]; [|done].
  destruct (to_ls l') as [|uri' rest'] eqn:Hto'; [done|].
  apply IH. by rewrite Hto'.
Qed.

(** X25.  When the backends store their answer whenever they answer Ok,
    no operation reads a variable that was never given a value:
    [create_dir], [move_file] and [open_file] always return, and
    [dir_size] returns or is still in its loop. *)
Theorem no_read_of_unset_variable (uri other : URI) (mode : VFSMode) (fs : FS)
    (fuel : nat) :
  is_Some (create_dir this B uri fs)
  /\ is_Some (move_file this B other uri fs)
  /\ is_Some (open_file this B uri mode fs)
  /\ dir_size this B fuel uri fs <> Undefined.
Proof using stored.
  split; [|split; [|split]].
  - unfold create_dir. destruct (negb _); [|eauto].
    destruct (is_dir this B uri fs) as [st [[|]|]] eqn:Hdir;
      destruct (ok st) eqn:Hok; cbn [negb]; eauto.
    by rewrite (is_dir_stores _ _ _ Hdir) in Hok.
  - unfold move_file.
    destruct (vfs_is_file this B uri fs) as [st [[|]|]] eqn:Hfile;
      destruct (ok st) eqn:Hok; cbn [negb]; eauto.
    + destruct (remove_file this B uri fs) as [st' fs']. destruct (negb _); eauto.
    + by rewrite (vfs_is_file_stores _ _ _ Hfile) in Hok.
  - unfold open_file.
    destruct (vfs_is_file this B uri fs) as [st [[|]|]] eqn:Hfile;
      destruct (ok st) eqn:Hok; cbn [negb]; eauto.
    + destruct mode; eauto.
      * destruct (remove_file this B uri fs) as [st' fs']. destruct (negb _); eauto.
      * repeat (match goal with
                | |- context [if ?b then _ else _] => destruct b
                end; eauto).
    + destruct mode; eauto.
      repeat (match goal with
              | |- context [if ?b then _ else _] => destruct b
              end; eauto).
    + by rewrite (vfs_is_file_stores _ _ _ Hfile) in Hok.
  - unfold dir_size.
    destruct (is_dir this B uri fs) as [st [[|]|]] eqn:Hdir;
      destruct (ok st) eqn:Hok; cbn [negb]; try done.
    + pose proof (dir_size_loop_defined fs fuel (mkDirSizeLoop [uri] 0 None None)
                    ltac:(done)) as Hloop.
      destruct (dir_size_loop this B fs fuel _) as [[st' l']| |]; done.
    + by rewrite (is_dir_stores _ _ _ Hdir) in Hok.
Qed.

End StoredAnswers.

(** The example backends store their answers. *)
Lemma demo_backends_store_answers : backends_store_answers demo_backends.
Proof.
  assert (Hsize : forall path fs st,
            demo_file_size path fs = (st, None) -> ok st = false).
  { intros path fs st. unfold demo_file_size.
    destruct (fs !! path) as [[size|]|]; by intros [= <-]. }
  repeat split; try done; intros uri fs st; apply Hsize.
Qed.

(** The theorem at work: the example storage. *)
Lemma no_read_of_unset_variable_witness :
  is_Some (create_dir demo_cloud_vfs demo_backends demo_s3_uri demo_storage)
  /\ is_Some (move_file demo_cloud_vfs demo_backends demo_uri demo_s3_uri demo_storage)
  /\ is_Some (open_file demo_cloud_vfs demo_backends demo_s3_uri VFS_WRITE demo_storage)
  /\ dir_size demo_cloud_vfs demo_backends 3 demo_s3_uri demo_storage <> Undefined.
Proof.
  exact (no_read_of_unset_variable demo_cloud_vfs demo_backends
           demo_backends_store_answers demo_s3_uri demo_uri VFS_WRITE demo_storage 3).
Defined.
